(** * Refactoring swarm: the orchestration graph and its stages

    A shallow embedding of [src/graph.py], [src/agents.py], [src/tools.py]
    and [main.py].

    Conventions of the embedding.
    - A Python [str] is a Rocq [string]; each [ascii] stands for one code
      point below 256, and the character classes of [re] ([\s], [\w]) are
      the ones Python uses on that range.
    - [float(...)] of a decimal token is the binary64 value nearest to it
      (ties to even), kept as a rational, or [inf] when it overflows.
    - The state dictionary is a record; a node returns a partial update
      (a record of optional fields) that the graph merges into the state.
    - The collaborators of the stages (file access, pylint, pytest, the
      language model, [os.path]) are oracles collected in a [World]; every
      answer may depend on the moment of the call.
    - The files of a run are the ones [list_files] returned: they lie under
      the target directory, so that the path check of [read_file] and of
      the write of overwrite mode passes on them.  The destination of copy
      mode depends on [--output_dir] and is checked: [write_file] raises
      [ValueError] when it lies outside, and the exception ends the run.
    - [--cooldown] is a natural number, so that [time.sleep] returns; the
      experiment log is left out. *)

From Stdlib Require Import String Ascii List Bool Arith Lia.
From Stdlib Require Import ZArith QArith Qcanon.
Import ListNotations.

Local Open Scope nat_scope.

(* ================================================================== *)
(** * Text utilities *)
(* ================================================================== *)

Module Text.

Definition chars := list ascii.

Definition code (c : ascii) : nat := nat_of_ascii c.

Definition between (lo hi n : nat) : bool := (lo <=? n) && (n <=? hi).

(** [\s] of [re] on a [str] pattern, and the characters [str.strip]
    removes: 9-13, 28-32, 133 and 160. *)
Definition is_space (c : ascii) : bool :=
  let n := code c in
  between 9 13 n || between 28 32 n || (n =? 133) || (n =? 160).

Definition is_digit (c : ascii) : bool := between 48 57 (code c).

(** [\w] of [re] on a [str] pattern, below 256. *)
Definition is_word (c : ascii) : bool :=
  let n := code c in
  between 48 57 n || between 65 90 n || (n =? 95) || between 97 122 n
  || (n =? 170) || between 178 179 n || (n =? 181) || between 185 186 n
  || between 188 190 n || between 192 214 n || between 216 246 n
  || between 248 255 n.

(** The class [[0-9.]]. *)
Definition is_numch (c : ascii) : bool := is_digit c || (code c =? 46).

Definition lower (c : ascii) : ascii :=
  if between 65 90 (code c) then ascii_of_nat (code c + 32) else c.

Definition eqb_ci (a b : ascii) : bool := Ascii.eqb (lower a) (lower b).

Definition lit (s : string) : chars := list_ascii_of_string s.

Definition nl : ascii := ascii_of_nat 10.

(** Longest prefix whose characters satisfy [p], and what follows it. *)
Fixpoint span (p : ascii -> bool) (s : chars) : chars * chars :=
  match s with
  | c :: s' =>
      if p c then let (a, b) := span p s' in (c :: a, b) else ([], s)
  | [] => ([], [])
  end.

(** [s] with the literal [l] removed from its front, when it starts with
    it; characters are compared with [eq]. *)
Fixpoint strip_prefix_with (eq : ascii -> ascii -> bool) (l s : chars)
  : option chars :=
  match l with
  | [] => Some s
  | a :: l' =>
      match s with
      | c :: s' => if eq a c then strip_prefix_with eq l' s' else None
      | [] => None
      end
  end.

Definition strip_prefix := strip_prefix_with Ascii.eqb.
Definition strip_prefix_ci := strip_prefix_with eqb_ci.

Fixpoint drop_while (p : ascii -> bool) (s : chars) : chars :=
  match s with
  | c :: s' => if p c then drop_while p s' else s
  | [] => []
  end.

(** [str.strip()] *)
Definition strip (s : chars) : chars :=
  rev (drop_while is_space (rev (drop_while is_space s))).

(** [sep.join(parts)] *)
Fixpoint join (sep : chars) (parts : list chars) : chars :=
  match parts with
  | [] => []
  | [p] => p
  | p :: ps => p ++ sep ++ join sep ps
  end.

Definition chars_eqb (a b : chars) : bool :=
  if list_eq_dec ascii_dec a b then true else false.

(** First occurrence of the literal [l] in [s]: the text before it and the
    text after it. *)
Fixpoint find_lit (l s : chars) : option (chars * chars) :=
  match strip_prefix l s with
  | Some rest => Some ([], rest)
  | None =>
      match s with
      | c :: s' =>
          match find_lit l s' with
          | Some (pre, rest) => Some (c :: pre, rest)
          | None => None
          end
      | [] => None
      end
  end.

End Text.

(* ================================================================== *)
(** * Score extraction ([SwarmAgents._extract_score]) *)
(* ================================================================== *)

Module Score.
Import Text.

(** The regular expression [rated at\s+([0-9.]+)\/10] with [re.IGNORECASE],
    tried at the front of [s]; the result is group 1.  No character is in
    two neighbouring classes, so the greedy repetitions never give a
    character back. *)
Definition match_at (s : chars) : option chars :=
  match strip_prefix_ci (lit "rated at") s with
  | None => None
  | Some s1 =>
      let (ws, s2) := span is_space s1 in
      match ws with
      | [] => None
      | _ :: _ =>
          let (num, s3) := span is_numch s2 in
          match num with
          | [] => None
          | _ :: _ =>
              match strip_prefix (lit "/10") s3 with
              | Some _ => Some num
              | None => None
              end
          end
      end
  end.

(** [re.search]: the match at the leftmost position that has one. *)
Fixpoint search (s : chars) : option chars :=
  match match_at s with
  | Some g => Some g
  | None =>
      match s with
      | _ :: s' => search s'
      | [] => None
      end
  end.

Definition digit_val (c : ascii) : Z := Z.of_nat (code c - 48).

Definition digits_val (ds : chars) : Z :=
  fold_left (fun acc c => (10 * acc + digit_val c)%Z) ds 0%Z.

(** A Python [float] that [float(num)] can return on such a token: a
    finite binary64 value, kept as the rational it stands for, or [inf]. *)
Inductive PyFloat : Type :=
| Finite (q : Q)
| Infinity.

(** [n * 2^e] as a fraction in lowest terms. *)
Definition scaled (n e : Z) : Q :=
  if (0 <=? e)%Z then inject_Z (n * 2 ^ e)
  else Qred (Qmake n (Z.to_pos (2 ^ (- e)))).

(** The binary64 value nearest to [n / 10^k], for [0 <= n]: a significand
    of 53 bits above [2^-1022] and a multiple of [2^-1074] below, ties to
    the even significand, [inf] from [2^1024 - 2^970] on. *)
Definition round_binary64 (n : Z) (k : nat) : PyFloat :=
  if (n =? 0)%Z then Finite 0
  else
    let den := (10 ^ Z.of_nat k)%Z in
    let d := (Z.log2 n - Z.log2 den)%Z in
    let t := if (den * 2 ^ Z.max 0 d <=? n * 2 ^ Z.max 0 (- d))%Z
             then d else (d - 1)%Z in
    let e := Z.max (t - 52) (-1074) in
    let num' := (n * 2 ^ Z.max 0 (- e))%Z in
    let den' := (den * 2 ^ Z.max 0 e)%Z in
    let q := (num' / den')%Z in
    let r := (num' mod den')%Z in
    let m := if (den' <? 2 * r)%Z || ((2 * r =? den')%Z && Z.odd q)
             then (q + 1)%Z else q in
    if (2 ^ 1024 <=? m * 2 ^ Z.max 0 e)%Z then Infinity
    else Finite (scaled m e).

(** [float(num)] for [num] over [[0-9.]]: digits with at most one point
    and at least one digit, read as a decimal and rounded to binary64;
    anything else raises [ValueError]. *)
Definition parse_float (num : chars) : option PyFloat :=
  let (ip, r) := span is_digit num in
  match r with
  | [] =>
      match ip with
      | [] => None
      | _ :: _ => Some (round_binary64 (digits_val ip) 0)
      end
  | c :: fp =>
      if (code c =? 46) && forallb is_digit fp
         && negb (Nat.eqb (length ip + length fp) 0)
      then Some (round_binary64 (digits_val (ip ++ fp)) (length fp))
      else None
  end.

Definition unparsable : PyFloat := Finite (-1 # 1)%Q.

Definition extract_score_chars (s : chars) : PyFloat :=
  match search s with
  | Some num =>
      match parse_float num with
      | Some q => q
      | None => unparsable
      end
  | None => unparsable
  end.

Definition _extract_score (text : string) : PyFloat :=
  extract_score_chars (list_ascii_of_string text).

(** Equal up to the case of ASCII letters. *)
Definition ci_equal (a b : chars) : Prop := map lower a = map lower b.

(** [s] has an occurrence of the pattern after [pre]: ["rated at"] in any
    case, at least one blank, a number token [num] over digits and
    points, then ["/10"]. *)
Definition occurrence (s pre kw ws num post : chars) : Prop :=
  s = (pre ++ kw ++ ws ++ num ++ lit "/10" ++ post)%list
  /\ ci_equal (lit "rated at") kw
  /\ ws <> [] /\ forallb is_space ws = true
  /\ num <> [] /\ forallb is_numch num = true.

Definition has_occurrence (s : chars) : Prop :=
  exists pre kw ws num post, occurrence s pre kw ws num post.

End Score.

(* ================================================================== *)
(** * Function blocks and the fragment written in copy mode
      (the local functions of [SwarmAgents.fixer_node]) *)
(* ================================================================== *)

Module Fragment.
Import Text.

(** The lookahead [def\s+\w+\s*\(] at the front of [s]. *)
Definition looks_like_def (s : chars) : bool :=
  match strip_prefix (lit "def") s with
  | None => false
  | Some s1 =>
      let (ws, s2) := span is_space s1 in
      match ws with
      | [] => false
      | _ :: _ =>
          let (name, s3) := span is_word s2 in
          match name with
          | [] => false
          | _ :: _ =>
              let (_, s4) := span is_space s3 in
              match strip_prefix (lit "(") s4 with
              | Some _ => true
              | None => false
              end
          end
      end
  end.

(** The lazy body [[\s\S]*?(?=^def\s+\w+\s*\(|\Z)]: the shortest text
    up to the next line that starts a definition, or up to the end.
    [bol] tells whether the position is at the beginning of a line. *)
Fixpoint take_body (bol : bool) (s : chars) : chars :=
  match s with
  | [] => []
  | c :: s' =>
      if bol && looks_like_def s then []
      else c :: take_body (Ascii.eqb c nl) s'
  end.

(** One match of
    [^def\s+(\w+)\s*\([^)]*\):[\s\S]*?(?=^def\s+\w+\s*\(|\Z)] at the
    front of [s] (the caller checks [^]): group 1 and group 0. *)
Definition match_block (s : chars) : option (chars * chars) :=
  match strip_prefix (lit "def") s with
  | None => None
  | Some s1 =>
      let (ws, s2) := span is_space s1 in
      match ws with
      | [] => None
      | _ :: _ =>
          let (name, s3) := span is_word s2 in
          match name with
          | [] => None
          | _ :: _ =>
              let (ws', s4) := span is_space s3 in
              match strip_prefix (lit "(") s4 with
              | None => None
              | Some s5 =>
                  let (args, s6) :=
                    span (fun c => negb (Ascii.eqb c ")")) s5 in
                  match strip_prefix (lit "):") s6 with
                  | None => None
                  | Some s7 =>
                      Some (name,
                            lit "def" ++ ws ++ name ++ ws' ++ lit "("
                            ++ args ++ lit "):" ++ take_body false s7)
                  end
              end
          end
      end
  end.

(** [pat.finditer(src)]: the matches from left to right, each search
    resuming where the previous match ended.  [skip] counts the characters
    of the current match still to pass. *)
Fixpoint finditer (bol : bool) (skip : nat) (s : chars)
  : list (chars * chars) :=
  match s with
  | [] => []
  | c :: s' =>
      match skip with
      | S k => finditer (Ascii.eqb c nl) k s'
      | O =>
          match (if bol then match_block s else None) with
          | Some (name, block) =>
              (name, block)
                :: finditer (Ascii.eqb c nl) (length block - 1) s'
          | None => finditer (Ascii.eqb c nl) 0 s'
          end
      end
  end.

(** A Python [dict] with keys in insertion order. *)
Definition dict := list (chars * chars).

Fixpoint dict_get (k : chars) (d : dict) : option chars :=
  match d with
  | [] => None
  | (k', v) :: d' => if chars_eqb k k' then Some v else dict_get k d'
  end.

(** [d[k] = v]: a key already present keeps its place. *)
Fixpoint dict_set (k v : chars) (d : dict) : dict :=
  match d with
  | [] => [(k, v)]
  | (k', v') :: d' =>
      if chars_eqb k k' then (k, v) :: d' else (k', v') :: dict_set k v d'
  end.

Definition dict_has (k : chars) (d : dict) : bool :=
  match dict_get k d with Some _ => true | None => false end.

(** [{m.group(1): m.group(0).strip() for m in pat.finditer(src)}] *)
Definition _func_blocks (src : chars) : dict :=
  fold_left (fun d m => dict_set (fst m) (strip (snd m)) d)
            (finditer true 0 src) [].

(** [re.sub(r"\s+", "", s)] *)
Definition _norm (s : chars) : chars := filter (fun c => negb (is_space c)) s.

Definition differs (orig_map : dict) (name block : chars) : bool :=
  match dict_get name orig_map with
  | Some o => negb (chars_eqb (_norm block) (_norm o))
  | None => false
  end.

Definition changed_blocks (orig_map new_map : dict) : list chars :=
  map (fun e => strip (snd e))
      (filter (fun e => differs orig_map (fst e) (snd e)) new_map).

(** [[new_map[n].strip() for n in new_map.keys() if n in orig_map]] *)
Definition inter (orig_map new_map : dict) : list chars :=
  map (fun e => strip (snd e))
      (filter (fun e => dict_has (fst e) orig_map) new_map).

Definition sep : chars := [nl; nl].

Definition content_of_maps (orig_map new_map : dict) : chars :=
  let content_to_write := join sep (changed_blocks orig_map new_map) in
  match content_to_write with
  | _ :: _ => content_to_write
  | [] =>
      match inter orig_map new_map with
      | b :: _ => b
      | [] =>
          match new_map with
          | (_, any_block) :: _ => strip any_block
          | [] => strip []
          end
      end
  end.

(** The text [fixer_node] writes to the destination in copy mode, from the
    original content and the new code. *)
Definition content_to_write (code_content new_code : string) : string :=
  string_of_list_ascii
    (content_of_maps (_func_blocks (list_ascii_of_string code_content))
                     (_func_blocks (list_ascii_of_string new_code))).

(** A block starts with the [d] of its [def]. *)
Definition starts_def (b : chars) : Prop := exists r, b = "d"%char :: r.

Definition all_start_def (d : dict) : Prop :=
  Forall (fun e => starts_def (snd e)) d.

(** The fallback of [content_of_maps]: the first block of the new
    partition that the original also has, else the first block of the new
    partition, else nothing. *)
Definition fallback (orig_map new_map : dict) : chars :=
  match inter orig_map new_map with
  | b :: _ => b
  | [] =>
      match new_map with
      | (_, any_block) :: _ => strip any_block
      | [] => []
      end
  end.

End Fragment.

(* ================================================================== *)
(** * The state of the graph ([src/state.py]) *)
(* ================================================================== *)

Local Open Scope string_scope.
Local Open Scope nat_scope.

Definition NL : string := String Text.nl EmptyString.

(** The values the code gives to the key ["status"]. *)
Inductive Status := STARTING | LLM_DISABLED | LLM_FAILURE.

(** [--output_mode], one of the two choices of the argument parser. *)
Inductive OutputMode := overwrite | copy.

Definition Status_eqb (a b : Status) : bool :=
  match a, b with
  | STARTING, STARTING | LLM_DISABLED, LLM_DISABLED
  | LLM_FAILURE, LLM_FAILURE => true
  | _, _ => false
  end.

Definition OutputMode_eqb (a b : OutputMode) : bool :=
  match a, b with
  | overwrite, overwrite | copy, copy => true
  | _, _ => false
  end.

(** The dictionary [SwarmTools.run_pytest] returns. *)
Record TestResults := mkTestResults {
  success : bool;
  output : string;
  return_code : Z
}.

(** One entry of ["results"]. *)
Record Entry := mkEntry {
  original_path : option string;
  dest_path : option string;
  mode : OutputMode;
  before_score : Score.PyFloat;
  after_score : Score.PyFloat;
  entry_status : string
}.

(** [SwarmState].  ["test_results"] starts as the empty dictionary, here
    [None]; ["current_file_path"] is [None] after the last file. *)
Record SwarmState := mkState {
  target_dir : string;
  files : list string;
  current_file_index : nat;
  current_file_path : option string;
  current_file_content : string;
  pylint_report : string;
  refactoring_plan : string;
  test_results : option TestResults;
  iteration_count : nat;
  max_iterations : nat;
  status : Status;
  messages : list string;
  cooldown_seconds : nat;
  disable_llm : bool;
  output_mode : OutputMode;
  output_dir : string;
  results : list Entry
}.

(** What a node returns: the keys it sets. *)
Record Update := mkUpdate {
  set_current_file_index : option nat;
  set_current_file_path : option (option string);
  set_current_file_content : option string;
  set_pylint_report : option string;
  set_refactoring_plan : option string;
  set_test_results : option TestResults;
  set_iteration_count : option nat;
  set_status : option Status;
  set_results : option (list Entry)
}.

Definition no_update : Update :=
  mkUpdate None None None None None None None None None.

Definition upd {A} (new : option A) (old : A) : A :=
  match new with Some v => v | None => old end.

(** The graph writes the returned keys over the state. *)
Definition merge (s : SwarmState) (u : Update) : SwarmState :=
  {| target_dir := target_dir s;
     files := files s;
     current_file_index := upd (set_current_file_index u) (current_file_index s);
     current_file_path := upd (set_current_file_path u) (current_file_path s);
     current_file_content :=
       upd (set_current_file_content u) (current_file_content s);
     pylint_report := upd (set_pylint_report u) (pylint_report s);
     refactoring_plan := upd (set_refactoring_plan u) (refactoring_plan s);
     test_results :=
       match set_test_results u with
       | Some r => Some r
       | None => test_results s
       end;
     iteration_count := upd (set_iteration_count u) (iteration_count s);
     max_iterations := max_iterations s;
     status := upd (set_status u) (status s);
     messages := messages s;
     cooldown_seconds := cooldown_seconds s;
     disable_llm := disable_llm s;
     output_mode := output_mode s;
     output_dir := output_dir s;
     results := upd (set_results u) (results s) |}.

(** [initial_state] of [main.py], for a run over [files] (not empty: [main]
    exits before when it is).  [max_iterations] is 10 there; it is a
    parameter here. *)
Definition initial_state (dir : string) (fs : list string) (max_iter : nat)
    (cooldown : nat) (no_llm : bool) (om : OutputMode) (od : string)
  : SwarmState :=
  {| target_dir := dir;
     files := fs;
     current_file_index := 0;
     current_file_path := nth_error fs 0;
     current_file_content := "";
     pylint_report := "";
     refactoring_plan := "";
     test_results := None;
     iteration_count := 0;
     max_iterations := max_iter;
     status := STARTING;
     messages := [];
     cooldown_seconds := cooldown;
     disable_llm := no_llm;
     output_mode := om;
     output_dir := od;
     results := [] |}.

(* ================================================================== *)
(** * The collaborators *)
(* ================================================================== *)

(** The prompts, by the values the templates interpolate.  The last field
    of a fixer prompt tells whether the copy-mode instructions are added. *)
Inductive Prompt :=
| AuditorPrompt (current_file : option string)
                (code_content pylint_output : string)
| FixerPrompt (current_file : option string)
              (plan test_feedback code_content : string)
              (copy_instructions : bool).

(** [self.llm.invoke(prompt)]: a response, or an exception. *)
Inductive LlmOutcome :=
| Response (content : string)
| LlmException (message : string).

(** [subprocess.run(...)] in [run_pytest]: a completed process, or an
    exception. *)
Inductive ProcOutcome :=
| Completed (returncode : Z) (stdout stderr : string)
| ProcException (message : string).

(** The answers of the outside world; the first argument is the moment of
    the call (the number of nodes run before).  [is_safe_path] is the
    answer of [SwarmTools._is_safe_path], the check at the head of
    [write_file]. *)
Record World := mkWorld {
  read_file : nat -> option string -> string;
  run_pylint : nat -> option string -> string;
  pytest_process : nat -> ProcOutcome;
  llm_invoke : nat -> Prompt -> LlmOutcome;
  os_path_relpath : option string -> string -> string;
  os_path_join : string -> string -> string;
  is_safe_path : string -> bool
}.

(** What a node does to the outside: a request to the model, a file
    written, an exception that leaves the node. *)
Inductive Effect :=
| LlmRequest (p : Prompt)
| FileWritten (path : option string) (content : string)
| ErrorRaised (message : string).

Definition is_raise (e : Effect) : bool :=
  match e with ErrorRaised _ => true | _ => false end.

(** The node raised. *)
Definition raised (e : list Effect) : bool := existsb is_raise e.

(** [SwarmTools.run_pytest] *)
Definition run_pytest (o : ProcOutcome) : TestResults :=
  match o with
  | Completed rc out err =>
      {| success := (rc =? 0)%Z;
         output := "STDOUT:" ++ NL ++ out ++ NL ++ "STDERR:" ++ NL ++ err;
         return_code := rc |}
  | ProcException e =>
      {| success := false;
         output := "Error running pytest: " ++ e;
         return_code := (-1)%Z |}
  end.

(** [{"content": ..., "failed": ...}] of [_safe_llm_invoke] *)
Record LlmResult := mkLlmResult { content : string; failed : bool }.

Definition _safe_llm_invoke (o : LlmOutcome) : LlmResult :=
  match o with
  | Response c => {| content := c; failed := false |}
  | LlmException e => {| content := e; failed := true |}
  end.

(* ================================================================== *)
(** * The stages ([src/agents.py]) *)
(* ================================================================== *)

(** What a node returns and what it does; when it raises, the effects end
    with the exception and the update is not used. *)
Definition Outcome : Type := Update * list Effect.

Definition auditor_node (w : World) (t : nat) (state : SwarmState) : Outcome :=
  let current_file := current_file_path state in
  let code_content := read_file w t current_file in
  let pylint_output := run_pylint w t current_file in
  let prompt := AuditorPrompt current_file code_content pylint_output in
  if disable_llm state then
    let plan :=
      "LLM disabled. Apply pylint recommendations, add docstrings/tests."
      ++ NL ++ pylint_output in
    ({| set_current_file_index := None;
        set_current_file_path := None;
        set_current_file_content := Some code_content;
        set_pylint_report := Some pylint_output;
        set_refactoring_plan := Some plan;
        set_test_results := None;
        set_iteration_count := None;
        set_status := Some LLM_DISABLED;
        set_results := None |}, [])
  else
    let _res := _safe_llm_invoke (llm_invoke w t prompt) in
    if failed _res then
      let _fallback :=
        "LLM unavailable. Apply pylint recommendations and add docstrings/tests."
        ++ NL ++ pylint_output in
      ({| set_current_file_index := None;
          set_current_file_path := None;
          set_current_file_content := Some code_content;
          set_pylint_report := Some pylint_output;
          set_refactoring_plan := Some _fallback;
          set_test_results := None;
          set_iteration_count := None;
          set_status := Some LLM_FAILURE;
          set_results := None |}, [LlmRequest prompt])
    else
      let plan := content _res in
      ({| set_current_file_index := None;
          set_current_file_path := None;
          set_current_file_content := Some code_content;
          set_pylint_report := Some pylint_output;
          set_refactoring_plan := Some plan;
          set_test_results := None;
          set_iteration_count := None;
          set_status := None;
          set_results := None |}, [LlmRequest prompt]).

(** The feedback the fixer adds to its prompt:
    [if test_results and not test_results.get("success", True)]. *)
Definition test_feedback_of (test_results : option TestResults) : string :=
  match test_results with
  | Some r =>
      if negb (success r)
      then NL ++ "Previous Test Failures:" ++ NL ++ output r ++ NL
           ++ "Fix these errors."
      else ""
  | None => ""
  end.

Definition fence_open : string := "```python" ++ NL.
Definition fence_close : string := "```".

(** [re.search(r"```python\n(.*?)```", response_content, re.DOTALL)]:
    group 1 of the first fenced block, or the whole response. *)
Definition extract_code (response_content : string) : string :=
  match Text.find_lit (Text.lit fence_open) (Text.lit response_content) with
  | Some (_, after) =>
      match Text.find_lit (Text.lit fence_close) after with
      | Some (new_code, _) => string_of_list_ascii new_code
      | None => response_content
      end
  | None => response_content
  end.

(** The fixer's prompt: the plan, the feedback of the last test run, the
    content, and the copy-mode instructions when [output_mode] is [copy]. *)
Definition fixer_prompt (state : SwarmState) : Prompt :=
  let current_file := current_file_path state in
  let plan := refactoring_plan state in
  let code_content := current_file_content state in
  let test_feedback := test_feedback_of (test_results state) in
  FixerPrompt current_file plan test_feedback code_content
              (OutputMode_eqb (output_mode state) copy).

(** The text of the [ValueError] of [write_file]. *)
Definition write_alert (file_path : string) : string :=
  "Security Alert: Attempted to write outside target directory: "
  ++ file_path.

(** The fixer's return when it leaves the content as it is. *)
Definition fixer_unchanged (state : SwarmState) (st : option Status) : Update :=
  {| set_current_file_index := None;
     set_current_file_path := None;
     set_current_file_content := Some (current_file_content state);
     set_pylint_report := Some (pylint_report state);
     set_refactoring_plan := None;
     set_test_results := None;
     set_iteration_count := None;
     set_status := st;
     set_results := None |}.

(** [fixer_node].  In copy mode [write_file] raises when the destination
    fails [_is_safe_path]: the exception leaves the node before pylint
    runs and before the entry is built.  In overwrite mode the destination
    is the file the auditor has read, on which the check passes. *)
Definition fixer_node (w : World) (t : nat) (state : SwarmState) : Outcome :=
  let current_file := current_file_path state in
  let code_content := current_file_content state in
  let prompt := fixer_prompt state in
  if disable_llm state then (fixer_unchanged state (Some LLM_DISABLED), [])
  else if Status_eqb (status state) LLM_FAILURE
  then (fixer_unchanged state None, [])
  else
    let _res := _safe_llm_invoke (llm_invoke w t prompt) in
    if failed _res
    then (fixer_unchanged state (Some LLM_FAILURE), [LlmRequest prompt])
    else
      let new_code := extract_code (content _res) in
      match output_mode state with
      | copy =>
          let rel := os_path_relpath w current_file (target_dir state) in
          let dest_root :=
            os_path_join w (target_dir state) (output_dir state) in
          let dest_path := Some (os_path_join w dest_root rel) in
          let content_to_write :=
            Fragment.content_to_write code_content new_code in
          if negb (is_safe_path w (os_path_join w dest_root rel)) then
            (no_update,
             [LlmRequest prompt;
              ErrorRaised (write_alert (os_path_join w dest_root rel))])
          else
          let updated_pylint := run_pylint w t dest_path in
          let entry :=
            {| original_path := current_file;
               dest_path := dest_path;
               mode := copy;
               before_score := Score._extract_score (pylint_report state);
               after_score := Score._extract_score updated_pylint;
               entry_status := "UPDATED" |} in
          ({| set_current_file_index := None;
              set_current_file_path := None;
              set_current_file_content := Some new_code;
              set_pylint_report := Some updated_pylint;
              set_refactoring_plan := None;
              set_test_results := None;
              set_iteration_count := None;
              set_status := None;
              set_results := Some (results state ++ [entry])%list |},
           [LlmRequest prompt; FileWritten dest_path content_to_write])
      | overwrite =>
          let updated_pylint := run_pylint w t current_file in
          let entry :=
            {| original_path := current_file;
               dest_path := current_file;
               mode := overwrite;
               before_score := Score._extract_score (pylint_report state);
               after_score := Score._extract_score updated_pylint;
               entry_status := "UPDATED" |} in
          ({| set_current_file_index := None;
              set_current_file_path := None;
              set_current_file_content := Some new_code;
              set_pylint_report := Some updated_pylint;
              set_refactoring_plan := None;
              set_test_results := None;
              set_iteration_count := None;
              set_status := None;
              set_results := Some (results state ++ [entry])%list |},
           [LlmRequest prompt; FileWritten current_file new_code])
      end.

(** The value [judge_node] assigns to [success]. *)
Definition judged_success (state : SwarmState) (probe : TestResults) : bool :=
  if OutputMode_eqb (output_mode state) copy then true else success probe.

Definition judge_node (w : World) (t : nat) (state : SwarmState) : Outcome :=
  let probe := run_pytest (pytest_process w t) in
  let success := judged_success state probe in
  let iteration := iteration_count state in
  let results :=
    {| success := success;
       output := output probe;
       return_code := return_code probe |} in
  ({| set_current_file_index := None;
      set_current_file_path := None;
      set_current_file_content := None;
      set_pylint_report := None;
      set_refactoring_plan := None;
      set_test_results := Some results;
      set_iteration_count := Some (iteration + 1);
      set_status := None;
      set_results := None |}, []).

(* ================================================================== *)
(** * The graph ([src/graph.py]) *)
(* ================================================================== *)

Inductive Node := manager | auditor | fixer | judge | next_file_processor.

Inductive ManagerRoute := route_auditor | route_end.
Inductive JudgeRoute := route_next_file | route_retry.

Definition manager_router (state : SwarmState) : ManagerRoute :=
  let index := current_file_index state in
  if index <? length (files state) then route_auditor else route_end.

Definition judge_router (state : SwarmState) : JudgeRoute :=
  let success :=
    match test_results state with
    | Some results => success results
    | None => false
    end in
  let iteration := iteration_count state in
  let max_iter := max_iterations state in
  if disable_llm state then route_next_file
  else if Status_eqb (status state) LLM_FAILURE then route_next_file
  else if success || (max_iter <=? iteration) then route_next_file
  else route_retry.

Definition next_file_node (state : SwarmState) : Update :=
  {| set_current_file_index := Some (current_file_index state + 1);
     set_current_file_path :=
       Some (if current_file_index state + 1 <? length (files state)
             then nth_error (files state) (current_file_index state + 1)
             else None);
     set_current_file_content := None;
     set_pylint_report := None;
     set_refactoring_plan := None;
     set_test_results := None;
     set_iteration_count := Some 0;
     set_status := None;
     set_results := None |}.

(** A node of the compiled graph, run at moment [t].  The manager returns
    the state it was given. *)
Definition run_node (w : World) (n : Node) (t : nat) (s : SwarmState)
  : Outcome :=
  match n with
  | manager => (no_update, [])
  | auditor => auditor_node w t s
  | fixer => fixer_node w t s
  | judge => judge_node w t s
  | next_file_processor => (next_file_node s, [])
  end.

(** The edges; [None] is [END].  The conditional edges read the state after
    the node's update. *)
Definition next_node (n : Node) (s : SwarmState) : option Node :=
  match n with
  | manager =>
      match manager_router s with
      | route_auditor => Some auditor
      | route_end => None
      end
  | auditor => Some fixer
  | fixer => Some judge
  | judge =>
      match judge_router s with
      | route_retry => Some fixer
      | route_next_file => Some next_file_processor
      end
  | next_file_processor => Some manager
  end.

(** A point of a run: the node about to run, the state, the moment, and
    the effects so far.  After an exception no node is left to run and the
    effects end with the exception. *)
Record Config := mkConfig {
  at_node : option Node;
  state : SwarmState;
  clock : nat;
  effects : list Effect
}.

Definition start (s : SwarmState) : Config :=
  {| at_node := Some manager; state := s; clock := 0; effects := [] |}.

Definition step (w : World) (c : Config) : Config :=
  match at_node c with
  | None => c
  | Some n =>
      let (u, e) := run_node w n (clock c) (state c) in
      if raised e then
        {| at_node := None;
           state := state c;
           clock := S (clock c);
           effects := (effects c ++ e)%list |}
      else
        let s' := merge (state c) u in
        {| at_node := next_node n s';
           state := s';
           clock := S (clock c);
           effects := (effects c ++ e)%list |}
  end.

(** The run was ended by an exception. *)
Definition aborted (c : Config) : bool := raised (effects c).

Fixpoint steps (w : World) (n : nat) (c : Config) : Config :=
  match n with
  | 0 => c
  | S k => steps w k (step w c)
  end.

(** The first [n] points of the run from [c]. *)
Fixpoint trace (w : World) (n : nat) (c : Config) : list Config :=
  match n with
  | 0 => []
  | S k => c :: trace w k (step w c)
  end.

(** The nodes run in the first [n] steps. *)
Definition executed (w : World) (n : nat) (c : Config) : list Node :=
  flat_map (fun c => match at_node c with Some x => [x] | None => [] end)
           (trace w n c).

(** [app.invoke(initial_state, config={"recursion_limit": n})]: the final
    state, or [None] when the call raises: [GraphRecursionError] unless
    [END] is reached with fewer than [n] nodes run, or the exception of a
    node. *)
Definition invoke (w : World) (recursion_limit : nat) (s : SwarmState)
  : option SwarmState :=
  let c := steps w (recursion_limit - 1) (start s) in
  match at_node c with
  | None => if aborted c then None else Some (state c)
  | Some _ => None
  end.

Definition Node_eqb (a b : Node) : bool :=
  match a, b with
  | manager, manager | auditor, auditor | fixer, fixer | judge, judge
  | next_file_processor, next_file_processor => true
  | _, _ => false
  end.

(** Audit, Fix and Judge are the stages; the manager and the file
    transition are routing nodes. *)
Definition is_stage (n : Node) : bool :=
  match n with
  | auditor | fixer | judge => true
  | manager | next_file_processor => false
  end.

Definition count_nodes (p : Node -> bool) (l : list Node) : nat :=
  length (filter p l).

Definition is_llm_request (e : Effect) : bool :=
  match e with LlmRequest _ => true | _ => false end.

(* ================================================================== *)
(** * The vocabulary of the properties *)
(* ================================================================== *)

(** The success flag the router reads: [results.get("success", False)]. *)
Definition last_success (s : SwarmState) : bool :=
  match test_results s with
  | Some r => success r
  | None => false
  end.

(** The state the judge's router reads: the state the judge was given,
    with the judge's update written over it. *)
Definition judged (w : World) (t : nat) (s : SwarmState) : SwarmState :=
  merge s (fst (judge_node w t s)).

(** A retry: the judge ran and the graph goes back to the fixer. *)
Definition is_retry (w : World) (c : Config) : bool :=
  match at_node c, at_node (step w c) with
  | Some judge, Some fixer => true
  | _, _ => false
  end.

(** The retries taken for the file at index [i] among the points [l]. *)
Definition retries_for (w : World) (i : nat) (l : list Config) : nat :=
  length (filter (fun c => is_retry w c
                           && (current_file_index (state c) =? i)) l).

(** The state after the file transition. *)
Definition advanced (s : SwarmState) : SwarmState :=
  merge s (next_file_node s).

(** The file transition as the specification words it: the cursor moves by
    one, the counter and the test result are reset, and the current file is
    the path at the new index, or absent. *)
Definition advance_resets (s : SwarmState) : Prop :=
  current_file_index (advanced s) = current_file_index s + 1
  /\ iteration_count (advanced s) = 0
  /\ test_results (advanced s) = None
  /\ current_file_path (advanced s)
     = nth_error (files s) (current_file_index s + 1).

Module Scenario.

(** A world where the model always answers, pylint always gives the same
    report and the tests always fail. *)
Definition failing_tests : World :=
  {| read_file := fun _ _ => "def f(): pass";
     run_pylint := fun _ _ => "Your code has been rated at 5.00/10";
     pytest_process := fun _ => Completed 1 "1 failed" "";
     llm_invoke := fun _ _ => Response "def f(): return 1";
     os_path_relpath := fun _ _ => "a.py";
     os_path_join := fun a b => a ++ "/" ++ b;
     is_safe_path := fun _ => true |}.

(** The same world, with a model that raises on its first call (the call
    of the auditor at moment 1) and answers afterwards. *)
Definition failing_once : World :=
  {| read_file := read_file failing_tests;
     run_pylint := run_pylint failing_tests;
     pytest_process := pytest_process failing_tests;
     llm_invoke := fun t _ =>
       if t <? 2 then LlmException "rate limit"
       else Response "def f(): return 1";
     os_path_relpath := os_path_relpath failing_tests;
     os_path_join := os_path_join failing_tests;
     is_safe_path := is_safe_path failing_tests |}.


Definition one_file (max_iter : nat) (no_llm : bool) (om : OutputMode)
  : SwarmState :=
  initial_state "sandbox" ["sandbox/a.py"] max_iter 0 no_llm om "refactored".

Definition two_files (max_iter : nat) : SwarmState :=
  initial_state "sandbox" ["sandbox/a.py"; "sandbox/b.py"] max_iter 0 false
                overwrite "refactored".

(** What [run_pytest] returns in [failing_tests]. *)
Definition failure : TestResults :=
  {| success := false;
     output := "STDOUT:" ++ NL ++ "1 failed" ++ NL ++ "STDERR:" ++ NL ++ "";
     return_code := 1%Z |}.

End Scenario.

(** The most Fix/Judge cycles one file can take. *)
Definition cycles_cap (s : SwarmState) : nat := Nat.max 1 (max_iterations s).

Definition files_left (s : SwarmState) : nat :=
  length (files s) - current_file_index s.

(** The points a run from [main]'s initial state goes through: it ends
    after the last file, or by an exception. *)
Definition well_formed (c : Config) : Prop :=
  let s := state c in
  match at_node c with
  | None => aborted c = true \/ current_file_index s = length (files s)
  | Some manager =>
      current_file_index s <= length (files s)
      /\ iteration_count s < cycles_cap s
  | Some next_file_processor => current_file_index s < length (files s)
  | Some _ =>
      current_file_index s < length (files s)
      /\ iteration_count s < cycles_cap s
  end.

(** A bound on the nodes still to run. *)
Definition nodes_left (c : Config) : nat :=
  let s := state c in
  let per_file := 2 * cycles_cap s + 3 in
  let later := (files_left s - 1) * per_file in
  let rounds := 2 * (cycles_cap s - iteration_count s) in
  match at_node c with
  | None => 0
  | Some manager => files_left s * per_file + 1
  | Some auditor => files_left s * per_file
  | Some fixer => later + 2 + rounds
  | Some judge => later + 2 + rounds - 1
  | Some next_file_processor => later + 2
  end.





(** No write of the run can be refused: files are overwritten, or the
    model is disabled, or [write_file] accepts every path. *)
Definition never_raises (w : World) (s : SwarmState) : Prop :=
  output_mode s = overwrite \/ disable_llm s = true
  \/ forall p, is_safe_path w p = true.

(** [write_file] accepts the destination of the fixer at state [s]. *)
Definition write_allowed (w : World) (s : SwarmState) : bool :=
  match output_mode s with
  | overwrite => true
  | copy =>
      is_safe_path w
        (os_path_join w (os_path_join w (target_dir s) (output_dir s))
                      (os_path_relpath w (current_file_path s)
                                       (target_dir s)))
  end.

(** The fixer asks the model: it is enabled and no stage has failed. *)
Definition fixer_asks (c : Config) : bool :=
  match at_node c with
  | Some fixer =>
      negb (disable_llm (state c))
      && negb (Status_eqb (status (state c)) LLM_FAILURE)
  | _ => false
  end.

(** The fixer gets an answer from the model. *)
Definition fixer_answered (w : World) (c : Config) : bool :=
  fixer_asks c
  && negb (failed (_safe_llm_invoke
                     (llm_invoke w (clock c) (fixer_prompt (state c))))).

(** The fixer gets an answer from the model and applies it: the write is
    accepted. *)
Definition fix_applies (w : World) (c : Config) : bool :=
  fixer_answered w c && write_allowed w (state c).

(** The fixer gets an answer and [write_file] raises. *)
Definition fixer_raises (w : World) (c : Config) : bool :=
  fixer_answered w c && negb (write_allowed w (state c)).

Definition is_write (e : Effect) : bool :=
  match e with FileWritten _ _ => true | _ => false end.

Definition writes (c : Config) : nat := length (filter is_write (effects c)).

(** One record for each file of the run, in order: what the specification
    asks of the final state. *)
Definition one_record_per_file (s : SwarmState) : Prop :=
  map original_path (results s) = map Some (files s).

(** The nodes one file goes through when nothing is retried. *)
Definition one_cycle : list Node :=
  [manager; auditor; fixer; judge; next_file_processor].

(** [k] times [one_cycle]. *)
Fixpoint cycles (k : nat) : list Node :=
  match k with
  | 0 => []
  | S k' => (one_cycle ++ cycles k')%list
  end.

(** The counter is 1 between the judge and the file transition and 0
    everywhere else. *)
Definition counter_at (c : Config) : nat :=
  match at_node c with
  | Some next_file_processor => 1
  | _ => 0
  end.

(** A float that is not negative: a finite value from 0 on, or [inf]. *)
Definition not_negative (x : Score.PyFloat) : Prop :=
  match x with
  | Score.Finite q => (0 <= q)%Q
  | Score.Infinity => True
  end.

(** The occurrence of the score pattern after [pre] is the leftmost one
    of [s]. *)
Definition leftmost (s pre : Text.chars) : Prop :=
  forall pre' kw' ws' num' post',
    Score.occurrence s pre' kw' ws' num' post' -> length pre <= length pre'.

(** [num] is a decimal numeral: the digits [ip], then maybe a point and
    the digits [fp], with one digit at least. *)
Definition numeral (num ip fp : Text.chars) : Prop :=
  forallb Text.is_digit ip = true
  /\ forallb Text.is_digit fp = true
  /\ (ip ++ fp)%list <> []
  /\ ((num = ip /\ fp = []) \/ num = (ip ++ "."%char :: fp)%list).

(** The result of score extraction when the pattern is found with the
    number token [num]. *)
Definition score_of_token (num : Text.chars) : Score.PyFloat :=
  match Score.parse_float num with
  | Some x => x
  | None => Score.unparsable
  end.

(** A report whose score is written with [n] nines. *)
Definition nines_report (n : nat) : string :=
  "Your code has been rated at "
  ++ string_of_list_ascii (repeat "9"%char n) ++ "/10".

(** The range the specification gives to a score. *)
Definition score_in_range (x : Score.PyFloat) : Prop :=
  x = Score.unparsable
  \/ exists q, x = Score.Finite q /\ (0 <= q /\ q <= 10)%Q.

(** ** Function-level blocks, as the specification describes them *)

Module FragmentSpec.
Import Text.
Local Open Scope list_scope.

(** A run of blanks, and a name. *)
Definition blanks (ws : chars) : Prop := forallb is_space ws = true.

Definition identifier (name : chars) : Prop :=
  name <> [] /\ forallb is_word name = true.

(** A text that starts a function header: [def], blanks, a name, maybe
    blanks, an opening parenthesis. *)
Definition header_start (s : chars) : Prop :=
  exists ws name ws' rest,
    s = lit "def" ++ ws ++ name ++ ws' ++ lit "(" ++ rest
    /\ ws <> [] /\ blanks ws /\ identifier name /\ blanks ws'.

(** A function header for [name]: a header start, parameters without a
    closing parenthesis among them, the closing parenthesis and a colon. *)
Definition header (h name : chars) : Prop :=
  exists ws ws' args,
    h = lit "def" ++ ws ++ name ++ ws' ++ lit "(" ++ args ++ lit "):"
    /\ ws <> [] /\ blanks ws /\ identifier name /\ blanks ws'
    /\ forallb (fun c => negb (Ascii.eqb c ")")) args = true.

(** The position after [pre] is the beginning of a line. *)
Definition line_start (pre : chars) : Prop :=
  pre = [] \/ exists p, pre = p ++ [nl].

(** [block] is the function-level block for [name] that begins at the
    front of [s]: it begins with a header and extends to the next line
    that starts a header, or to the end of the text. *)
Definition block_here (s name block : chars) : Prop :=
  exists h body rest,
    s = block ++ rest
    /\ block = h ++ body
    /\ header h name
    /\ (rest = [] \/ ((exists p, body = p ++ [nl]) /\ header_start rest))
    /\ (forall a b, body = a ++ nl :: b -> b <> [] ->
                    ~ header_start (b ++ rest)).

(** [block] is a function-level block of [src], found after [pre] at the
    beginning of a line. *)
Definition block_at (src pre name block : chars) : Prop :=
  exists rest,
    src = pre ++ block ++ rest
    /\ line_start pre
    /\ block_here (block ++ rest) name block.

(** The function-level blocks of a text [s] that comes after [pre], from
    left to right: each one begins at the first beginning of a line,
    after the block before it, where a block begins. *)
Inductive blocks_of : chars -> chars -> list (chars * chars) -> Prop :=
| blocks_none pre s :
    (forall a b name block,
        s = a ++ b -> line_start (pre ++ a) -> ~ block_here b name block) ->
    blocks_of pre s []
| blocks_first pre a name block rest ms :
    (forall a1 a2 n b,
        a = a1 ++ a2 -> a2 <> [] -> line_start (pre ++ a1) ->
        ~ block_here (a2 ++ block ++ rest) n b) ->
    line_start (pre ++ a) ->
    block_here (block ++ rest) name block ->
    blocks_of (pre ++ a ++ block) rest ms ->
    blocks_of pre (a ++ block ++ rest) ((name, block) :: ms).

(** [block] is the last of the matches [ms] that has the name [name]. *)
Definition last_named (ms : list (chars * chars)) (name block : chars)
  : Prop :=
  exists before after,
    ms = before ++ (name, block) :: after
    /\ forall e, In e after -> fst e <> name.

(** Whether the position after [a] is the beginning of a line, when the
    position before [a] is one exactly if [bol]. *)
Definition bol_after (bol : bool) (a : chars) : bool :=
  match rev a with
  | [] => bol
  | c :: _ => Ascii.eqb c nl
  end.

End FragmentSpec.

(** The answer of the model the fixer works from at moment [t]. *)
Definition fixer_new_code (w : World) (t : nat) (state : SwarmState)
  : string :=
  extract_code (content (_safe_llm_invoke
                           (llm_invoke w t (fixer_prompt state)))).

(* ================================================================== *)
(** * The tools ([src/tools.py]) and the entry point ([main.py]) *)
(* ================================================================== *)

Module Tools.

(** A call that returns a value or raises [ValueError]. *)
Inductive Result (A : Type) :=
| Returned (value : A)
| Raised (message : string).

Arguments Returned {A} value.
Arguments Raised {A} message.

(** [s.startswith(pre)] *)
Fixpoint startswith (s pre : string) {struct pre} : bool :=
  match pre with
  | EmptyString => true
  | String a pre' =>
      match s with
      | String b s' => Ascii.eqb a b && startswith s' pre'
      | EmptyString => false
      end
  end.

(** [s.endswith(suf)], on the characters of the two strings. *)
Definition endswith (s suf : string) : bool :=
  startswith (string_of_list_ascii (rev (list_ascii_of_string s)))
             (string_of_list_ascii (rev (list_ascii_of_string suf))).

(** What the operating system answers to the tools: [os.path.abspath],
    reading a file ([inl] the content, [inr] the text of the exception),
    creating the parent directories and writing a file ([None], or the
    text of the exception), and running pylint on a path. *)
Record OS := mkOS {
  abspath : string -> string;
  open_read : string -> string + string;
  open_write : string -> string -> option string;
  pylint_process : string -> ProcOutcome
}.

(** [SwarmTools]: [self.target_dir] is the absolute target directory. *)
Record SwarmTools := mkTools { tools_target_dir : string }.

Definition init (os : OS) (target_dir : string) : SwarmTools :=
  {| tools_target_dir := abspath os target_dir |}.

Definition _is_safe_path (os : OS) (self : SwarmTools) (path : string)
  : bool :=
  let abs_path := abspath os path in
  startswith abs_path (tools_target_dir self).

Definition read_file (os : OS) (self : SwarmTools) (file_path : string)
  : Result string :=
  if negb (_is_safe_path os self file_path) then
    Raised ("Security Alert: Attempted to read outside target directory: "
            ++ file_path)
  else
    match open_read os file_path with
    | inl text => Returned text
    | inr e => Returned ("Error reading file " ++ file_path ++ ": " ++ e)
    end.

Definition write_file (os : OS) (self : SwarmTools)
    (file_path content : string) : Result string :=
  if negb (_is_safe_path os self file_path) then
    Raised ("Security Alert: Attempted to write outside target directory: "
            ++ file_path)
  else
    match open_write os file_path content with
    | None => Returned ("Successfully wrote to " ++ file_path)
    | Some e => Returned ("Error writing to " ++ file_path ++ ": " ++ e)
    end.

Definition run_pylint (os : OS) (self : SwarmTools) (file_path : string)
  : string :=
  if negb (_is_safe_path os self file_path) then
    "Security Alert: invalid path"
  else
    match pylint_process os file_path with
    | Completed _ out err =>
        "STDOUT:" ++ NL ++ out ++ NL ++ "STDERR:" ++ NL ++ err
    | ProcException e => "Error running pylint: " ++ e
    end.

(** A directory as [os.walk] sees it: its name, the names of its files,
    and its subdirectories, both in the order of the listing. *)
#[local] Unset Elimination Schemes.
Inductive Tree :=
| Dir (name : string) (files : list string) (subdirs : list Tree).
#[local] Set Elimination Schemes.

Definition dir_name (t : Tree) : string :=
  match t with Dir name _ _ => name end.

(** [d not in ["refactored", "tests"]] *)
Definition kept_dir (d : string) : bool :=
  negb (String.eqb d "refactored" || String.eqb d "tests").

(** [list_files]: [os.walk] from [root], top down, the pruned
    subdirectories in order, keeping the files that end in [".py"];
    [join] is [os.path.join].  The name of the top directory is not
    looked at. *)
Fixpoint walk (join : string -> string -> string) (root : string) (t : Tree)
  : list string :=
  match t with
  | Dir _ files subdirs =>
      (map (join root) (filter (fun f => endswith f ".py") files)
       ++ (fix below (l : list Tree) : list string :=
             match l with
             | [] => []
             | sub :: l' =>
                 if kept_dir (dir_name sub)
                 then walk join (join root (dir_name sub)) sub ++ below l'
                 else below l'
             end) subdirs)%list
  end.

Definition list_files (join : string -> string -> string)
    (self : SwarmTools) (t : Tree) : list string :=
  walk join (tools_target_dir self) t.

End Tools.

Module Main.

(** The parsed arguments ([--cooldown] is taken not negative). *)
Record Args := mkArgs {
  arg_target_dir : string;
  arg_cooldown : nat;
  arg_disable_llm : bool;
  arg_output_mode : OutputMode;
  arg_output_dir : string;
  arg_model : string;
  arg_max_files : Z
}.

(** [if max_files and max_files > 0: files = files[:max_files]] *)
Definition capped (files : list string) (max_files : Z) : list string :=
  if (negb (max_files =? 0) && (0 <? max_files))%Z
  then firstn (Z.to_nat max_files) files
  else files.

(** What [os.makedirs(out_root, exist_ok=True)] does, for
    [out_root = os.path.join(target_dir, output_dir)]: it raises; or it
    returns and [out_root] lies under the target directory (a relative
    [--output_dir]), which exists from then on; or it returns and
    [out_root] lies elsewhere (an absolute [--output_dir]), which leaves
    the target directory as it was. *)
Inductive Made :=
| MakedirsRaises (message : string)
| MadeUnderTarget
| MadeElsewhere.

(** What [main] does before the graph runs: an exception leaves it (exit
    status 1), it calls [sys.exit], or it gives the initial state to
    [app.invoke]. *)
Inductive Outcome :=
| Uncaught (message : string)
| Exit (code : Z)
| Invoke (initial_state : SwarmState).

Definition recursion_limit : nat := 200.

(** The answer of [os.path.exists(target_dir)] when [main] asks: copy mode
    has called [os.makedirs] before.  [present] tells whether the target
    directory exists when [main] starts. *)
Definition target_exists (args : Args) (present : bool) (made : Made)
  : bool :=
  match arg_output_mode args, made with
  | copy, MadeUnderTarget => true
  | _, _ => present
  end.

(** [listed] is the answer of [tools.list_files()]. *)
Definition main (args : Args) (present : bool) (made : Made)
    (listed : list string) : Outcome :=
  match arg_output_mode args, made with
  | copy, MakedirsRaises e => Uncaught e
  | _, _ =>
      if negb (target_exists args present made) then Exit 1
      else
        let files := capped listed (arg_max_files args) in
        match files with
        | [] => Exit 0
        | _ :: _ =>
            Invoke (initial_state (arg_target_dir args) files 10
                                  (arg_cooldown args) (arg_disable_llm args)
                                  (arg_output_mode args)
                                  (arg_output_dir args))
        end
  end.

End Main.

(** The nodes of [k] Fix/Judge cycles. *)
Fixpoint fix_judge (k : nat) : list Node :=
  match k with
  | 0 => []
  | S k' => fixer :: judge :: fix_judge k'
  end.

(** The nodes one file goes through when it takes [k] Fix/Judge cycles. *)
Definition file_nodes (k : nat) : list Node :=
  (manager :: auditor :: fix_judge k ++ [next_file_processor])%list.

(** [n] files of [k] Fix/Judge cycles each. *)
Fixpoint files_nodes (n k : nat) : list Node :=
  match n with
  | 0 => []
  | S n' => (file_nodes k ++ files_nodes n' k)%list
  end.




(** ** The vocabulary of the further properties *)


(** The model is enabled and has not failed, and files are overwritten. *)
Definition failing_invariant (c : Config) : Prop :=
  disable_llm (state c) = false
  /\ output_mode (state c) = overwrite
  /\ status (state c) <> LLM_FAILURE.


(** A listing of nine files. *)
Definition nine_files : list string :=
  ["a.py"; "b.py"; "c.py"; "d.py"; "e.py"; "f.py"; "g.py"; "h.py"; "i.py"].

(** After the first auditor the status is [LLM_FAILURE]. *)
Definition failed_invariant (c : Config) : Prop :=
  disable_llm (state c) = false
  /\ (status (state c) = LLM_FAILURE
      \/ at_node c = Some manager \/ at_node c = Some auditor
      \/ at_node c = None).

(** A request of the auditor. *)
Definition is_auditor_request (e : Effect) : bool :=
  match e with
  | LlmRequest (AuditorPrompt _ _ _) => true
  | _ => false
  end.

(** A world whose model raises at every call. *)
Definition always_failing_model : World :=
  {| read_file := read_file Scenario.failing_tests;
     run_pylint := run_pylint Scenario.failing_tests;
     pytest_process := pytest_process Scenario.failing_tests;
     llm_invoke := fun _ _ => LlmException "rate limit";
     os_path_relpath := os_path_relpath Scenario.failing_tests;
     os_path_join := os_path_join Scenario.failing_tests;
     is_safe_path := is_safe_path Scenario.failing_tests |}.

(** A path the walk from [root] finds in a directory: a file of the
    directory that ends in [".py"], or a path found in a subdirectory that
    is neither [refactored] nor [tests]. *)
Inductive listed_in (join : string -> string -> string)
  : string -> Tools.Tree -> string -> Prop :=
| listed_here root name files subdirs f :
    In f files -> Tools.endswith f ".py" = true ->
    listed_in join root (Tools.Dir name files subdirs) (join root f)
| listed_below root name files subdirs sub p :
    In sub subdirs -> Tools.kept_dir (Tools.dir_name sub) = true ->
    listed_in join (join root (Tools.dir_name sub)) sub p ->
    listed_in join root (Tools.Dir name files subdirs) p.

(** [os.path.join] of a directory that does not end with a slash and a
    name, on a POSIX system. *)
Definition posix_join (a b : string) : string := a ++ "/" ++ b.

(** No backquote in [s]. *)
Definition no_backtick (s : string) : bool :=
  forallb (fun c => negb (Ascii.eqb "`" c)) (list_ascii_of_string s).

(** The dictionary comprehension of [_func_blocks], from any dictionary
    to start with. *)
Definition build_dict (ms : list (Text.chars * Text.chars))
    (d : Fragment.dict) : Fragment.dict :=
  fold_left (fun d m => Fragment.dict_set (fst m) (Text.strip (snd m)) d)
            ms d.

(** [str.rstrip()] *)
Definition rstrip (s : Text.chars) : Text.chars :=
  rev (Text.drop_while Text.is_space (rev s)).

(** A block as the partition keeps it: it starts with [def] and
    [strip] leaves it as it is. *)
Definition kept_block (b : Text.chars) : Prop :=
  (exists r, b = (Text.lit "def" ++ r)%list) /\ Text.strip b = b.

(** The subdirectories of a walk, as a function of their list. *)
Definition walk_below (join : string -> string -> string) (root : string)
  : list Tools.Tree -> list string :=
  fix below (l : list Tools.Tree) : list string :=
    match l with
    | [] => []
    | sub :: l' =>
        if Tools.kept_dir (Tools.dir_name sub)
        then (Tools.walk join (join root (Tools.dir_name sub)) sub
              ++ below l')%list
        else below l'
    end.

(* ================================================================== *)
(** * How one step changes the state *)
(* ================================================================== *)

Arguments Score._extract_score : simpl never.
Arguments Fragment.content_to_write : simpl never.
Arguments extract_code : simpl never.
Arguments test_feedback_of : simpl never.
Arguments run_pytest : simpl never.
Arguments write_alert : simpl never.

Ltac split_ifs :=
  repeat match goal with
         | |- context [if ?b then _ else _] => destruct b eqn:?
         | |- context [match output_mode ?s with _ => _ end] =>
             destruct (output_mode s) eqn:?
         end.

Ltac node_cases :=
  unfold auditor_node, fixer_node, judge_node, fixer_unchanged,
         next_file_node, no_update; split_ifs; simpl.

Section Steps.

Variable w : World.

Lemma steps_end (n : nat) (c : Config) :
  at_node c = None -> steps w n c = c.
Proof.
  intros H. induction n as [|n IH]; [reflexivity|].
  simpl. unfold step. rewrite H. exact IH.
Qed.

Lemma steps_succ (n : nat) (c : Config) :
  steps w (S n) c = step w (steps w n c).
Proof.
  revert c. induction n as [|n IH]; intros c; [reflexivity|].
  change (steps w (S (S n)) c) with (steps w (S n) (step w c)).
  rewrite IH. reflexivity.
Qed.

Lemma steps_add (n m : nat) (c : Config) :
  steps w (n + m) c = steps w m (steps w n c).
Proof.
  revert c. induction n as [|n IH]; intros c; [reflexivity|].
  simpl. apply IH.
Qed.

Lemma trace_succ (n : nat) (c : Config) :
  trace w (S n) c = (trace w n c ++ [steps w n c])%list.
Proof.
  revert c. induction n as [|n IH]; intros c; [reflexivity|].
  change (trace w (S (S n)) c) with (c :: trace w (S n) (step w c)).
  rewrite IH. reflexivity.
Qed.

Lemma step_files (c : Config) : files (state (step w c)) = files (state c).
Proof.
  unfold step. destruct (at_node c) as [n|]; [|reflexivity].
  destruct (run_node w n (clock c) (state c)) as [u e].
  destruct (raised e); reflexivity.
Qed.

Lemma step_max_iterations (c : Config) :
  max_iterations (state (step w c)) = max_iterations (state c).
Proof.
  unfold step. destruct (at_node c) as [n|]; [|reflexivity].
  destruct (run_node w n (clock c) (state c)) as [u e].
  destruct (raised e); reflexivity.
Qed.

Lemma step_disable_llm (c : Config) :
  disable_llm (state (step w c)) = disable_llm (state c).
Proof.
  unfold step. destruct (at_node c) as [n|]; [|reflexivity].
  destruct (run_node w n (clock c) (state c)) as [u e].
  destruct (raised e); reflexivity.
Qed.

Lemma step_output_mode (c : Config) :
  output_mode (state (step w c)) = output_mode (state c).
Proof.
  unfold step. destruct (at_node c) as [n|]; [|reflexivity].
  destruct (run_node w n (clock c) (state c)) as [u e].
  destruct (raised e); reflexivity.
Qed.

(** Only the file transition moves the cursor. *)
Lemma step_index (c : Config) :
  current_file_index (state (step w c)) =
  match at_node c with
  | Some next_file_processor => current_file_index (state c) + 1
  | _ => current_file_index (state c)
  end.
Proof.
  unfold step. destruct (at_node c) as [[]|]; try reflexivity;
    simpl; node_cases; reflexivity.
Qed.

(** Only the judge and the file transition write the counter. *)
Lemma step_iteration (c : Config) :
  iteration_count (state (step w c)) =
  match at_node c with
  | Some judge => iteration_count (state c) + 1
  | Some next_file_processor => 0
  | _ => iteration_count (state c)
  end.
Proof.
  unfold step. destruct (at_node c) as [[]|]; try reflexivity;
    simpl; node_cases; reflexivity.
Qed.

(** The fixer raises exactly when it has an answer of the model to write
    and [write_file] refuses the destination. *)
Lemma fixer_node_raised (t : nat) (s : SwarmState) :
  raised (snd (fixer_node w t s))
  = negb (disable_llm s)
    && negb (Status_eqb (status s) LLM_FAILURE)
    && negb (failed (_safe_llm_invoke (llm_invoke w t (fixer_prompt s))))
    && negb (write_allowed w s).
Proof.
  unfold fixer_node, write_allowed.
  destruct (disable_llm s); [reflexivity|].
  destruct (Status_eqb (status s) LLM_FAILURE); [reflexivity|].
  destruct (failed _); [reflexivity|].
  destruct (output_mode s); [reflexivity|].
  destruct (is_safe_path w _); reflexivity.
Qed.

(** No other node raises. *)
Lemma run_node_raised (n : Node) (t : nat) (s : SwarmState) :
  raised (snd (run_node w n t s))
  = match n with
    | fixer => raised (snd (fixer_node w t s))
    | _ => false
    end.
Proof.
  destruct n; try reflexivity; simpl; node_cases; reflexivity.
Qed.

Lemma step_raised (c : Config) :
  at_node c = Some fixer ->
  raised (snd (run_node w fixer (clock c) (state c))) = fixer_raises w c.
Proof.
  intros E. simpl. rewrite fixer_node_raised.
  unfold fixer_raises, fixer_answered, fixer_asks. rewrite E. reflexivity.
Qed.

(** Where a step goes. *)
Lemma step_node (c : Config) :
  at_node (step w c) =
  match at_node c with
  | None => None
  | Some manager =>
      if current_file_index (state c) <? length (files (state c))
      then Some auditor else None
  | Some auditor => Some fixer
  | Some fixer => if fixer_raises w c then None else Some judge
  | Some judge =>
      match judge_router (state (step w c)) with
      | route_retry => Some fixer
      | route_next_file => Some next_file_processor
      end
  | Some next_file_processor => Some manager
  end.
Proof.
  destruct (at_node c) as [n|] eqn:E; unfold step; rewrite E; [|exact E].
  pose proof (run_node_raised n (clock c) (state c)) as Hr.
  destruct n.
  - simpl. unfold manager_router. simpl. destruct (_ <? _); reflexivity.
  - destruct (run_node w auditor (clock c) (state c)) as [u e].
    simpl in Hr. rewrite Hr. reflexivity.
  - rewrite <- (step_raised c E).
    destruct (run_node w fixer (clock c) (state c)) as [u e]. simpl.
    destruct (raised e); reflexivity.
  - destruct (run_node w judge (clock c) (state c)) as [u e].
    simpl in Hr. rewrite Hr. reflexivity.
  - reflexivity.
Qed.

(** A step that raises leaves the state as it is. *)
Lemma step_state_raised (c : Config) :
  at_node c = Some fixer -> fixer_raises w c = true ->
  state (step w c) = state c.
Proof.
  intros E Hr. rewrite <- (step_raised c E) in Hr. unfold step. rewrite E.
  destruct (run_node w fixer (clock c) (state c)) as [u e]. simpl in *.
  rewrite Hr. reflexivity.
Qed.

Lemma step_effects (c : Config) (n : Node) :
  at_node c = Some n ->
  effects (step w c)
  = (effects c ++ snd (run_node w n (clock c) (state c)))%list.
Proof.
  intros E. unfold step. rewrite E.
  destruct (run_node w n (clock c) (state c)) as [u e]. simpl.
  destruct (raised e); reflexivity.
Qed.

Lemma raised_app (a b : list Effect) : raised (a ++ b) = raised a || raised b.
Proof. unfold raised. apply existsb_app. Qed.

(** A run is ended by an exception exactly when a fixer raises. *)
Lemma step_aborted (c : Config) :
  aborted (step w c)
  = aborted c
    || match at_node c with Some fixer => fixer_raises w c | _ => false end.
Proof.
  unfold aborted. destruct (at_node c) as [n|] eqn:E.
  - rewrite (step_effects c n E), raised_app, run_node_raised.
    destruct n; try reflexivity.
    rewrite <- (step_raised c E). reflexivity.
  - unfold step. rewrite E, orb_false_r. reflexivity.
Qed.

End Steps.

(* ================================================================== *)
(** * Routing after the judge *)
(* ================================================================== *)

Lemma Status_eqb_eq (a b : Status) : Status_eqb a b = true <-> a = b.
Proof. destruct a, b; simpl; split; congruence. Qed.

Lemma judge_router_next_file (s : SwarmState) :
  judge_router s = route_next_file <->
  (disable_llm s = true \/ status s = LLM_FAILURE
   \/ last_success s = true \/ max_iterations s <= iteration_count s).
Proof.
  unfold judge_router. fold (last_success s).
  destruct (disable_llm s); [tauto|].
  destruct (Status_eqb (status s) LLM_FAILURE) eqn:Est.
  - apply Status_eqb_eq in Est. tauto.
  - assert (status s <> LLM_FAILURE)
      by (intros H; apply Status_eqb_eq in H; congruence).
    destruct (last_success s); simpl; [tauto|].
    destruct (max_iterations s <=? iteration_count s) eqn:Ele.
    + apply Nat.leb_le in Ele. tauto.
    + apply Nat.leb_gt in Ele. split; [discriminate|].
      intros [H1|[H1|[H1|H1]]]; try discriminate; try contradiction; lia.
Qed.

Lemma judge_router_retry (s : SwarmState) :
  judge_router s = route_retry <-> judge_router s <> route_next_file.
Proof. destruct (judge_router s); split; congruence. Qed.

Lemma judge_router_retry_lt (s : SwarmState) :
  judge_router s = route_retry -> iteration_count s < max_iterations s.
Proof.
  intros H. destruct (Nat.lt_ge_cases (iteration_count s) (max_iterations s))
    as [Hlt|Hge]; [exact Hlt|].
  assert (judge_router s = route_next_file)
    by (apply judge_router_next_file; tauto).
  congruence.
Qed.

Section RetryBound.

Variable w : World.
Variable c0 : Config.
Variable M : nat.
Hypothesis start_iteration : iteration_count (state c0) = 0.
Hypothesis start_max : max_iterations (state c0) = M.

Let R (i n : nat) : nat := retries_for w i (trace w n c0).

Lemma retries_succ (i n : nat) :
  R i (S n) =
  R i n + (if is_retry w (steps w n c0)
              && (current_file_index (state (steps w n c0)) =? i)
           then 1 else 0).
Proof.
  unfold R, retries_for. rewrite trace_succ, filter_app, length_app. simpl.
  destruct (is_retry w (steps w n c0) && _); reflexivity.
Qed.

Lemma steps_max_iterations (n : nat) :
  max_iterations (state (steps w n c0)) = M.
Proof.
  induction n as [|n IH]; [exact start_max|].
  rewrite steps_succ, step_max_iterations. exact IH.
Qed.

Lemma is_retry_spec (c : Config) :
  is_retry w c = true ->
  at_node c = Some judge /\ at_node (step w c) = Some fixer
  /\ iteration_count (state (step w c)) < max_iterations (state c).
Proof.
  unfold is_retry. intros H.
  destruct (at_node c) as [[]|] eqn:E; try discriminate.
  destruct (at_node (step w c)) as [[]|] eqn:E'; try discriminate.
  repeat split.
  rewrite step_node, E in E'.
  destruct (judge_router (state (step w c))) eqn:Er; [discriminate|].
  apply judge_router_retry_lt in Er.
  rewrite step_max_iterations in Er. exact Er.
Qed.

(** The counter of the current file counts its retries, files not yet
    reached have none, and no file has more than [M]. *)
Lemma retry_invariant (n : nat) :
  let c := steps w n c0 in
  (forall i, R i n <= M)
  /\ (forall i, current_file_index (state c) < i -> R i n = 0)
  /\ (at_node c <> None -> at_node c <> Some next_file_processor ->
      R (current_file_index (state c)) n = iteration_count (state c)).
Proof.
  induction n as [|n [IHa [IHb IHc]]].
  - simpl. unfold R, retries_for. simpl.
    repeat split; intros; lia.
  - cbv zeta in *. rewrite steps_succ.
    set (c := steps w n c0) in *.
    pose proof (steps_max_iterations n) as Hmax. fold c in Hmax.
    pose proof (step_index w c) as Hidx.
    pose proof (step_iteration w c) as Hit.
    pose proof (step_node w c) as Hnode.
    destruct (is_retry w c) eqn:Ery.
    + destruct (is_retry_spec c Ery) as [Ej [Ef Hlt]].
      rewrite Ej in *. rewrite Hmax in Hlt.
      assert (Hcur : R (current_file_index (state c)) n
                     = iteration_count (state c))
        by (apply IHc; congruence).
      repeat split.
      * intros i. rewrite retries_succ. fold c. rewrite Ery. simpl.
        destruct (Nat.eqb_spec (current_file_index (state c)) i) as [<-|Hne].
        -- rewrite Hcur. lia.
        -- specialize (IHa i). lia.
      * intros i Hi. rewrite retries_succ. fold c. rewrite Ery. simpl.
        rewrite Hidx in Hi.
        destruct (Nat.eqb_spec (current_file_index (state c)) i); [lia|].
        rewrite IHb; lia.
      * intros _ _. rewrite retries_succ. fold c. rewrite Ery. simpl.
        rewrite Hidx, Nat.eqb_refl, Hcur, Hit. reflexivity.
    + assert (Hsame : forall i, R i (S n) = R i n).
      { intros i. rewrite retries_succ. fold c. rewrite Ery. simpl. lia. }
      repeat split.
      * intros i. rewrite Hsame. apply IHa.
      * intros i Hi. rewrite Hsame. apply IHb.
        rewrite Hidx in Hi. destruct (at_node c) as [[]|]; lia.
      * intros Hn1 Hn2. rewrite Hsame.
        destruct (at_node c) as [[]|] eqn:E.
        -- rewrite Hidx, Hit. apply IHc; congruence.
        -- rewrite Hidx, Hit. apply IHc; congruence.
        -- rewrite Hidx, Hit. apply IHc; congruence.
        -- (* the judge advanced: the next node is the file transition *)
           unfold is_retry in Ery. rewrite E in Ery.
           rewrite Hnode in Hn2, Ery.
           destruct (judge_router (state (step w c)));
             [congruence|discriminate].
        -- rewrite Hidx, Hit. apply IHb. lia.
        -- rewrite Hnode in Hn1. congruence.
Qed.

Lemma retries_bounded (i n : nat) : retries_for w i (trace w n c0) <= M.
Proof. apply (retry_invariant n). Qed.

End RetryBound.

(** C1. The router after the judge returns [next_file] (ADVANCE) exactly
    when the model is disabled, or the status is [LLM_FAILURE], or the
    last test result succeeded, or the iteration counter has reached
    [max_iterations]; in every other case it returns [retry], which leads
    back to the fixer.  The counter the router reads is the one the judge
    has just incremented.  In a run from the initial state no file is
    retried more than [max_iterations] times. *)
Theorem judge_routing :
  (forall w t s,
     let s' := judged w t s in
     iteration_count s' = iteration_count s + 1
     /\ (judge_router s' = route_next_file <->
         (disable_llm s' = true \/ status s' = LLM_FAILURE
          \/ last_success s' = true
          \/ max_iterations s' <= iteration_count s'))
     /\ (judge_router s' = route_retry <->
         ~ (disable_llm s' = true \/ status s' = LLM_FAILURE
            \/ last_success s' = true
            \/ max_iterations s' <= iteration_count s'))
     /\ next_node judge s' =
        match judge_router s' with
        | route_next_file => Some next_file_processor
        | route_retry => Some fixer
        end)
  /\ (forall w dir fs max_iter cooldown no_llm om od n i,
        retries_for w i
          (trace w n (start (initial_state dir fs max_iter cooldown no_llm
                                           om od)))
        <= max_iter).
Proof.
  split.
  - intros w t s s'. split; [reflexivity|].
    split; [apply judge_router_next_file|].
    split.
    + rewrite judge_router_retry, judge_router_next_file. tauto.
    + simpl. destruct (judge_router s'); reflexivity.
  - intros. apply retries_bounded; reflexivity.
Qed.

(* ================================================================== *)
(** * The file transition *)
(* ================================================================== *)

(** C3, as stated, fails: after the judge of the first of two files has
    reported a failure, the file transition leaves that result in the
    state, and the first request of the fixer for the second file carries
    the failure text of the first. *)
Lemma advance_keeps_test_results :
  let c := steps Scenario.failing_tests 4 (start (Scenario.two_files 1)) in
  at_node c = Some next_file_processor
  /\ test_results (advanced (state c)) = Some Scenario.failure
  /\ ~ advance_resets (state c)
  /\ nth_error (effects (steps Scenario.failing_tests 8
                               (start (Scenario.two_files 1)))) 4
     = Some (LlmRequest
               (FixerPrompt (Some "sandbox/b.py") "def f(): return 1"
                  (test_feedback_of (Some Scenario.failure))
                  "def f(): pass" false)).
Proof.
  cbv zeta.
  assert (E : test_results
                (advanced (state (steps Scenario.failing_tests 4
                                        (start (Scenario.two_files 1)))))
              = Some Scenario.failure) by (vm_compute; reflexivity).
  split; [vm_compute; reflexivity|].
  split; [exact E|].
  split; [|vm_compute; reflexivity].
  intros [_ [_ [H _]]]. rewrite E in H. discriminate.
Qed.

(** C3, amended. The file transition adds one to the cursor, sets the
    counter to 0 and leaves the test result as it is; the current file
    becomes the path at the new index, or is absent when the new index is
    past the last file. *)
Theorem next_file_transition (s : SwarmState) :
  current_file_index (advanced s) = current_file_index s + 1
  /\ iteration_count (advanced s) = 0
  /\ test_results (advanced s) = test_results s
  /\ current_file_path (advanced s)
     = nth_error (files s) (current_file_index s + 1)
  /\ (current_file_path (advanced s) = None
      <-> length (files s) <= current_file_index s + 1).
Proof.
  assert (P : current_file_path (advanced s)
              = nth_error (files s) (current_file_index s + 1)).
  { simpl. destruct (Nat.ltb_spec (current_file_index s + 1)
                                  (length (files s))) as [Hlt|Hge];
      [reflexivity|].
    symmetry. apply nth_error_None. exact Hge. }
  split; [reflexivity|]. split; [reflexivity|].
  split; [simpl; destruct (test_results s); reflexivity|].
  split; [exact P|].
  rewrite P. apply nth_error_None.
Qed.

(* ================================================================== *)
(** * The judge in copy mode *)
(* ================================================================== *)

(** [run_pytest] sets [success] from the return code, so the recorded
    return code tells the outcome of the tests. *)
Lemma run_pytest_success (o : ProcOutcome) :
  success (run_pytest o) = (return_code (run_pytest o) =? 0)%Z.
Proof. destruct o; reflexivity. Qed.

(** C4. In copy mode the judge records [success = True] whatever the
    tests did, and the router then returns [next_file]; the recorded
    output and return code are the ones of the test run, and the return
    code tells its real outcome. *)
Theorem judge_copy_mode (w : World) (t : nat) (s : SwarmState) :
  output_mode s = copy ->
  let probe := run_pytest (pytest_process w t) in
  exists recorded,
    test_results (judged w t s) = Some recorded
    /\ success recorded = true
    /\ last_success (judged w t s) = true
    /\ judge_router (judged w t s) = route_next_file
    /\ output recorded = output probe
    /\ return_code recorded = return_code probe
    /\ success probe = (return_code recorded =? 0)%Z.
Proof.
  intros Hmode probe.
  assert (Hs : judged_success s probe = true)
    by (unfold judged_success; rewrite Hmode; reflexivity).
  assert (Hl : last_success (judged w t s) = true)
    by (unfold last_success; simpl; exact Hs).
  eexists. split; [reflexivity|]. simpl.
  split; [exact Hs|]. split; [exact Hl|].
  split; [apply judge_router_next_file; tauto|].
  split; [reflexivity|]. split; [reflexivity|].
  apply run_pytest_success.
Qed.

Lemma judge_copy_mode_witness :
  exists recorded,
    test_results (judged Scenario.failing_tests 3
                         (Scenario.one_file 10 false copy)) = Some recorded
    /\ success recorded = true
    /\ last_success (judged Scenario.failing_tests 3
                            (Scenario.one_file 10 false copy)) = true
    /\ judge_router (judged Scenario.failing_tests 3
                            (Scenario.one_file 10 false copy))
       = route_next_file
    /\ output recorded = output Scenario.failure
    /\ return_code recorded = 1%Z
    /\ false = (return_code recorded =? 0)%Z.
Proof.
  exact (judge_copy_mode Scenario.failing_tests 3
           (Scenario.one_file 10 false copy) eq_refl).
Defined.

(* ================================================================== *)
(** * The status after a failure of the model *)
(* ================================================================== *)

Lemma step_status_failure (w : World) (c : Config) :
  disable_llm (state c) = false ->
  status (state c) = LLM_FAILURE ->
  status (state (step w c)) = LLM_FAILURE.
Proof.
  intros Hd Hs. unfold step.
  destruct (at_node c) as [[]|]; try exact Hs; simpl.
  - unfold auditor_node. rewrite Hd.
    destruct (failed _); simpl; [reflexivity|exact Hs].
  - unfold fixer_node. rewrite Hd, Hs. simpl. exact Hs.
Qed.

Lemma steps_status_failure (w : World) (n : nat) (c : Config) :
  disable_llm (state c) = false ->
  status (state c) = LLM_FAILURE ->
  disable_llm (state (steps w n c)) = false
  /\ status (state (steps w n c)) = LLM_FAILURE.
Proof.
  intros Hd Hs. induction n as [|n [IHd IHs]]; [split; assumption|].
  rewrite steps_succ. split.
  - rewrite step_disable_llm. exact IHd.
  - apply step_status_failure; assumption.
Qed.

(** With the model disabled no node sets [LLM_FAILURE]. *)
Lemma step_status_disabled (w : World) (c : Config) :
  disable_llm (state c) = true ->
  status (state c) <> LLM_FAILURE ->
  status (state (step w c)) <> LLM_FAILURE.
Proof.
  intros Hd Hs. unfold step.
  destruct (at_node c) as [[]|]; try exact Hs; simpl.
  - unfold auditor_node. rewrite Hd. simpl. discriminate.
  - unfold fixer_node. rewrite Hd. simpl. discriminate.
Qed.

Lemma steps_status_disabled (w : World) (n : nat) (c : Config) :
  disable_llm (state c) = true ->
  status (state c) <> LLM_FAILURE ->
  disable_llm (state (steps w n c)) = true
  /\ status (state (steps w n c)) <> LLM_FAILURE.
Proof.
  intros Hd Hs. induction n as [|n [IHd IHs]]; [split; assumption|].
  rewrite steps_succ. split.
  - rewrite step_disable_llm. exact IHd.
  - apply step_status_disabled; assumption.
Qed.

(** In a run from the initial state the status [LLM_FAILURE] is only seen
    with the model enabled. *)
Lemma failure_means_enabled (w : World) dir fs max_iter cooldown no_llm om od
    (n : nat) :
  let c := steps w n (start (initial_state dir fs max_iter cooldown no_llm
                                           om od)) in
  status (state c) = LLM_FAILURE -> disable_llm (state c) = false.
Proof.
  cbv zeta. intros Hs. destruct no_llm.
  - exfalso. revert Hs. apply steps_status_disabled; [reflexivity|discriminate].
  - clear Hs. induction n as [|n IH]; [reflexivity|].
    rewrite steps_succ, step_disable_llm. exact IH.
Qed.

(** C10. In a run from the initial state, once the status is
    [LLM_FAILURE] it is [LLM_FAILURE] at every later point (an auditor
    whose call succeeds returns no status), and at every later point the
    fixer sends no request, writes nothing and returns the content it was
    given, and the judge's router advances. *)
Theorem llm_failure_persists :
  forall w dir fs max_iter cooldown no_llm om od n m,
    let c0 := start (initial_state dir fs max_iter cooldown no_llm om od) in
    status (state (steps w n c0)) = LLM_FAILURE ->
    let c' := steps w (n + m) c0 in
    status (state c') = LLM_FAILURE
    /\ status (merge (state c') (fst (auditor_node w (clock c') (state c'))))
       = LLM_FAILURE
    /\ snd (fixer_node w (clock c') (state c')) = []
    /\ current_file_content
         (merge (state c') (fst (fixer_node w (clock c') (state c'))))
       = current_file_content (state c')
    /\ judge_router (state c') = route_next_file.
Proof.
  intros w dir fs max_iter cooldown no_llm om od n m c0 Hs c'.
  pose proof (failure_means_enabled w dir fs max_iter cooldown no_llm om od n
                Hs) as Hd.
  fold c0 in Hd.
  destruct (steps_status_failure w m _ Hd Hs) as [Hd' Hs'].
  rewrite <- steps_add in Hd', Hs'. fold c' in Hd', Hs'.
  split; [exact Hs'|]. split.
  - unfold auditor_node. rewrite Hd'.
    destruct (failed _); simpl; [reflexivity|exact Hs'].
  - unfold fixer_node. rewrite Hd', Hs'. simpl.
    split; [reflexivity|]. split; [reflexivity|].
    apply judge_router_next_file. tauto.
Qed.

Lemma llm_failure_persists_witness :
  let c0 := start (Scenario.two_files 10) in
  let c' := steps Scenario.failing_once (2 + 5) c0 in
  status (state (steps Scenario.failing_once 2 c0)) = LLM_FAILURE
  /\ at_node c' = Some fixer
  /\ current_file_index (state c') = 1
  /\ status (state c') = LLM_FAILURE
  /\ snd (fixer_node Scenario.failing_once (clock c') (state c')) = [].
Proof.
  cbv zeta.
  pose proof (llm_failure_persists Scenario.failing_once "sandbox"
                ["sandbox/a.py"; "sandbox/b.py"] 10 0 false overwrite
                "refactored" 2 5 eq_refl) as H.
  cbv zeta in H. destruct H as [H1 [_ [H3 _]]].
  split; [reflexivity|]. split; [reflexivity|]. split; [reflexivity|].
  split; [exact H1|exact H3].
Defined.

(* ================================================================== *)
(** * Progress and termination of a run *)
(* ================================================================== *)

Ltac hide_later :=
  repeat match goal with
         | |- context [(?a - 1) * ?b] =>
             let x := fresh "later" in
             set (x := (a - 1) * b) in *; clearbody x
         end.

Ltac arith := hide_later; lia.

Section Progress.

Variable w : World.

Lemma step_cycles_cap (c : Config) :
  cycles_cap (state (step w c)) = cycles_cap (state c).
Proof. unfold cycles_cap. rewrite step_max_iterations. reflexivity. Qed.

Lemma step_files_left (c : Config) :
  files_left (state (step w c)) =
  match at_node c with
  | Some next_file_processor => files_left (state c) - 1
  | _ => files_left (state c)
  end.
Proof.
  unfold files_left. rewrite step_files, step_index.
  destruct (at_node c) as [[]|]; lia.
Qed.

Lemma times_pred (a b : nat) : 0 < a -> a * b = (a - 1) * b + b.
Proof. intros H. destruct a; [lia|]. simpl. rewrite Nat.sub_0_r. lia. Qed.

(** What the judge's router allows when it sends the run back. *)
Lemma step_judge_retry (c : Config) :
  at_node c = Some judge ->
  at_node (step w c) = Some fixer ->
  iteration_count (state c) + 1 < max_iterations (state c).
Proof.
  intros Ej Ef. rewrite step_node, Ej in Ef.
  destruct (judge_router (state (step w c))) eqn:Er; [discriminate|].
  apply judge_router_retry_lt in Er.
  rewrite step_iteration, step_max_iterations, Ej in Er. exact Er.
Qed.

Lemma step_judge_target (c : Config) :
  at_node c = Some judge ->
  at_node (step w c) = Some fixer
  \/ at_node (step w c) = Some next_file_processor.
Proof.
  intros Ej. rewrite step_node, Ej.
  destruct (judge_router _); [right|left]; reflexivity.
Qed.

Lemma step_well_formed (c : Config) :
  well_formed c -> well_formed (step w c).
Proof.
  unfold well_formed. cbv zeta. intros H.
  pose proof (step_index w c) as Hi. pose proof (step_iteration w c) as Hk.
  pose proof (step_node w c) as Hn.
  rewrite step_files, step_cycles_cap.
  destruct (at_node c) as [[]|] eqn:E.
  - rewrite Hn, Hi, Hk.
    destruct (Nat.ltb_spec (current_file_index (state c))
                           (length (files (state c)))); [tauto|lia].
  - rewrite Hn, Hi, Hk. exact H.
  - rewrite Hn, Hi, Hk. destruct (fixer_raises w c) eqn:Er; [|exact H].
    left. rewrite step_aborted, E, Er. apply orb_true_r.
  - destruct (step_judge_target c E) as [Ef|Ef].
    + pose proof (step_judge_retry c E Ef) as Hlt.
      rewrite Ef, Hi, Hk. unfold cycles_cap. lia.
    + rewrite Ef, Hi. tauto.
  - rewrite Hn, Hi, Hk. unfold cycles_cap. lia.
  - unfold step. rewrite E. rewrite E. exact H.
Qed.

Lemma steps_well_formed (n : nat) (c : Config) :
  well_formed c -> well_formed (steps w n c).
Proof.
  intros H. induction n as [|n IH]; [exact H|].
  rewrite steps_succ. apply step_well_formed, IH.
Qed.

(** Every node that runs uses up one unit of [nodes_left]. *)
Lemma step_nodes_left (c : Config) :
  well_formed c -> at_node c <> None ->
  nodes_left (step w c) + 1 <= nodes_left c.
Proof.
  unfold well_formed, nodes_left. cbv zeta. intros H Hne.
  pose proof (step_iteration w c) as Hk.
  pose proof (step_node w c) as Hn.
  pose proof (step_files_left c) as Hf.
  rewrite Hf, step_cycles_cap.
  assert (Hleft : current_file_index (state c) < length (files (state c)) ->
                  0 < files_left (state c)) by (unfold files_left; lia).
  set (K := cycles_cap (state c)) in *.
  assert (HK : 1 <= K) by (unfold K, cycles_cap; lia). clearbody K.
  destruct (at_node c) as [[]|] eqn:E; [| | | | |congruence].
  - rewrite Hn.
    destruct (Nat.ltb_spec (current_file_index (state c))
                           (length (files (state c)))); arith.
  - rewrite Hn, Hk. destruct H as [H1 H2].
    rewrite (times_pred (files_left (state c)) (2 * K + 3) (Hleft H1)). arith.
  - rewrite Hn, Hk. destruct (fixer_raises w c); arith.
  - destruct (step_judge_target c E) as [Ef|Ef]; rewrite Ef, ?Hk; arith.
  - rewrite Hn. arith.
Qed.


Lemma steps_reach_end (n : nat) (c : Config) :
  well_formed c -> nodes_left c <= n -> at_node (steps w n c) = None.
Proof.
  revert c. induction n as [|n IH]; intros c Hwf Hle;
    destruct (at_node c) as [x|] eqn:E.
  - pose proof (step_nodes_left c Hwf) as H. rewrite E in H.
    assert (Some x <> None) as Hx by discriminate. specialize (H Hx). lia.
  - exact E.
  - simpl. apply IH; [apply step_well_formed, Hwf|].
    pose proof (step_nodes_left c Hwf) as H. rewrite E in H.
    assert (Some x <> None) as Hx by discriminate. specialize (H Hx). lia.
  - rewrite steps_end; assumption.
Qed.

Lemma executed_succ (n : nat) (c : Config) :
  executed w (S n) c =
  (match at_node c with Some x => [x] | None => [] end
   ++ executed w n (step w c))%list.
Proof. reflexivity. Qed.

Lemma executed_add (n m : nat) (c : Config) :
  executed w (n + m) c
  = (executed w n c ++ executed w m (steps w n c))%list.
Proof.
  revert c. induction n as [|n IH]; intros c; [reflexivity|].
  change (S n + m) with (S (n + m)).
  rewrite !executed_succ, IH, app_assoc. reflexivity.
Qed.






Lemma step_never_raises (c : Config) :
  never_raises w (state c) -> never_raises w (state (step w c)).
Proof.
  unfold never_raises. rewrite step_output_mode, step_disable_llm. tauto.
Qed.

Lemma steps_never_raises (n : nat) (c : Config) :
  never_raises w (state c) -> never_raises w (state (steps w n c)).
Proof.
  intros H. induction n as [|n IH]; [exact H|].
  rewrite steps_succ. apply step_never_raises, IH.
Qed.

(** When no write can be refused the fixer does not raise. *)
Lemma never_raises_fixer (c : Config) :
  never_raises w (state c) -> fixer_raises w c = false.
Proof.
  unfold never_raises, fixer_raises, fixer_answered, fixer_asks,
    write_allowed.
  intros [H|[H|H]].
  - rewrite H. apply andb_false_r.
  - rewrite H. destruct (at_node c) as [[]|]; reflexivity.
  - destruct (output_mode (state c)); [apply andb_false_r|].
    rewrite H. apply andb_false_r.
Qed.

(** Then the fixer is followed by the judge. *)
Lemma step_node_fixer (c : Config) :
  never_raises w (state c) -> at_node c = Some fixer ->
  at_node (step w c) = Some judge.
Proof.
  intros Hs E. rewrite step_node, E, (never_raises_fixer c Hs). reflexivity.
Qed.

Lemma steps_not_aborted (n : nat) (c : Config) :
  never_raises w (state c) -> aborted c = false ->
  aborted (steps w n c) = false.
Proof.
  intros Hs Ha. induction n as [|n IH]; [exact Ha|].
  rewrite steps_succ, step_aborted, IH.
  destruct (at_node (steps w n c)) as [[]|]; try reflexivity.
  apply never_raises_fixer, steps_never_raises, Hs.
Qed.

(** A run that ended without an exception went through every file. *)
Lemma end_index (c : Config) :
  well_formed c -> at_node c = None -> aborted c = false ->
  current_file_index (state c) = length (files (state c)).
Proof.
  unfold well_formed. cbv zeta. intros H E Ha. rewrite E in H.
  destruct H as [H|H]; [congruence|exact H].
Qed.

Lemma steps_files (n : nat) (c : Config) :
  files (state (steps w n c)) = files (state c).
Proof.
  induction n as [|n IH]; [reflexivity|].
  rewrite steps_succ, step_files. exact IH.
Qed.

End Progress.

Lemma initial_well_formed dir fs max_iter cooldown no_llm om od :
  well_formed (start (initial_state dir fs max_iter cooldown no_llm om od)).
Proof.
  unfold well_formed, cycles_cap. simpl. destruct max_iter; lia.
Qed.

Lemma initial_nodes_left dir fs max_iter cooldown no_llm om od :
  nodes_left (start (initial_state dir fs max_iter cooldown no_llm om od))
  = length fs * (2 * Nat.max 1 max_iter + 3) + 1.
Proof.
  unfold nodes_left, files_left, cycles_cap.
  cbn [start at_node state initial_state files current_file_index
       max_iterations iteration_count].
  rewrite Nat.sub_0_r. reflexivity.
Qed.



(** [app.invoke] returns, with the cursor after the last file, when no
    write can be refused and the recursion limit is above the bound on the
    nodes of the run. *)
Lemma invoke_completes (w : World) dir fs max_iter cooldown no_llm om od
    (limit : nat) :
  let s0 := initial_state dir fs max_iter cooldown no_llm om od in
  never_raises w s0 ->
  length fs * (2 * Nat.max 1 max_iter + 3) + 1 < limit ->
  exists final,
    invoke w limit s0 = Some final
    /\ current_file_index final = length fs
    /\ files final = fs.
Proof.
  intros s0 Hsafe Hle. unfold invoke.
  pose proof (initial_well_formed dir fs max_iter cooldown no_llm om od)
    as Hwf. fold s0 in Hwf.
  set (n := limit - 1).
  assert (Hend : at_node (steps w n (start s0)) = None).
  { apply steps_reach_end; [exact Hwf|].
    unfold s0. rewrite initial_nodes_left. unfold n. lia. }
  assert (Ha : aborted (steps w n (start s0)) = false)
    by (apply steps_not_aborted; [exact Hsafe|reflexivity]).
  pose proof (end_index _ (steps_well_formed w n _ Hwf) Hend Ha) as Hi.
  rewrite Hend, Ha. eexists. split; [reflexivity|].
  rewrite Hi, steps_files. split; reflexivity.
Qed.



(* ================================================================== *)
(** * The records of a run *)
(* ================================================================== *)

Lemma step_results (w : World) (c : Config) :
  exists new,
    results (state (step w c)) = (results (state c) ++ new)%list
    /\ length new = (if fix_applies w c then 1 else 0)
    /\ writes (step w c) = writes c + length new
    /\ Forall (fun e => original_path e = current_file_path (state c)
                        /\ entry_status e = "UPDATED") new.
Proof.
  unfold step, fix_applies, fixer_answered, fixer_asks, write_allowed, writes.
  destruct (at_node c) as [[]|] eqn:E; simpl;
    try (exists []; rewrite ?app_nil_r; repeat split; auto; fail).
  - unfold auditor_node. split_ifs; simpl; exists [];
      rewrite ?app_nil_r, ?filter_app, ?length_app; simpl;
      repeat split; auto.
  - unfold fixer_node.
    destruct (disable_llm (state c)); simpl;
      [exists []; rewrite !app_nil_r; repeat split; auto|].
    destruct (Status_eqb (status (state c)) LLM_FAILURE); simpl;
      [exists []; rewrite !app_nil_r; repeat split; auto|].
    destruct (failed _); simpl.
    + exists []. rewrite app_nil_r, filter_app, length_app. simpl.
      repeat split; auto.
    + destruct (output_mode (state c)); simpl.
      * eexists; (split; [reflexivity|]).
        rewrite filter_app, length_app; simpl. repeat split; auto.
      * destruct (is_safe_path w _); simpl.
        -- eexists; (split; [reflexivity|]).
           rewrite filter_app, length_app; simpl. repeat split; auto.
        -- exists []. rewrite app_nil_r, filter_app, length_app. simpl.
           repeat split; auto.
Qed.

(** C7, as stated, fails: in the runs [main] starts (ten iterations per
    file, recursion limit 200), a file processed with the model disabled
    leaves no record, and a file whose tests always fail leaves ten. *)
Lemma records_per_file_counterexample :
  (exists final,
      invoke Scenario.failing_tests Main.recursion_limit
             (Scenario.one_file 10 true overwrite)
      = Some final
      /\ current_file_index final = 1
      /\ files final = ["sandbox/a.py"]
      /\ results final = []
      /\ ~ one_record_per_file final)
  /\ (exists final,
         invoke Scenario.failing_tests Main.recursion_limit
                (Scenario.one_file 10 false overwrite)
         = Some final
         /\ current_file_index final = 1
         /\ files final = ["sandbox/a.py"]
         /\ map original_path (results final)
            = repeat (Some "sandbox/a.py") 10
         /\ ~ one_record_per_file final).
Proof.
  split; eexists; (split; [vm_compute; reflexivity|]).
  - split; [reflexivity|]. split; [reflexivity|]. split; [reflexivity|].
    unfold one_record_per_file. simpl. discriminate.
  - split; [reflexivity|]. split; [reflexivity|]. split; [reflexivity|].
    unfold one_record_per_file. simpl. discriminate.
Qed.

(** C7, amended. [results] only grows: a step appends one record exactly
    when it is a fixer that got an answer from the model and whose write
    was accepted (the record names the current file and has status
    [UPDATED]), and appends nothing otherwise, in particular when the
    model is disabled or has failed and when [write_file] refuses the
    destination of copy mode; the records already there are kept as they
    are at every later point. *)
Theorem results_append_only (w : World) (c : Config) :
  (exists new,
      results (state (step w c)) = (results (state c) ++ new)%list
      /\ length new = (if fix_applies w c then 1 else 0)
      /\ writes (step w c) = writes c + length new
      /\ Forall (fun e => original_path e = current_file_path (state c)
                          /\ entry_status e = "UPDATED") new)
  /\ (forall n, exists later,
         results (state (steps w n c)) = (results (state c) ++ later)%list)
  /\ (fix_applies w c = true <->
      at_node c = Some fixer
      /\ disable_llm (state c) = false
      /\ status (state c) <> LLM_FAILURE
      /\ failed (_safe_llm_invoke
                   (llm_invoke w (clock c) (fixer_prompt (state c)))) = false
      /\ (output_mode (state c) = overwrite
          \/ is_safe_path w
               (os_path_join w
                  (os_path_join w (target_dir (state c))
                                (output_dir (state c)))
                  (os_path_relpath w (current_file_path (state c))
                                   (target_dir (state c)))) = true))
  /\ (fixer_raises w c = true ->
      at_node (step w c) = None
      /\ aborted (step w c) = true
      /\ results (state (step w c)) = results (state c)).
Proof.
  split; [apply step_results|].
  split.
  { intros n. induction n as [|n [later IH]].
    - exists []. rewrite app_nil_r. reflexivity.
    - rewrite steps_succ.
      destruct (step_results w (steps w n c)) as [new [Hnew _]].
      exists (later ++ new)%list. rewrite Hnew, IH, app_assoc. reflexivity. }
  split.
  { unfold fix_applies, fixer_answered, fixer_asks, write_allowed.
    destruct (at_node c) as [[]|]; simpl;
      try (split; [discriminate|intros [H _]; discriminate H]).
    destruct (disable_llm (state c)); simpl;
      [split; [discriminate|intros [_ [H _]]; discriminate H]|].
    destruct (Status_eqb (status (state c)) LLM_FAILURE) eqn:Es; simpl.
    { apply Status_eqb_eq in Es.
      split; [discriminate|intros [_ [_ [H _]]]; contradiction]. }
    assert (Hs : status (state c) <> LLM_FAILURE)
      by (intros H; apply Status_eqb_eq in H; congruence).
    destruct (failed _); simpl;
      [split; [discriminate|intros [_ [_ [_ [H _]]]]; discriminate H]|].
    destruct (output_mode (state c)).
    - split; [intros _|reflexivity]. repeat split; auto.
    - destruct (is_safe_path w _).
      + split; [intros _|reflexivity]. repeat split; auto.
      + split; [discriminate|].
        intros [_ [_ [_ [_ [H|H]]]]]; discriminate H. }
  intros Hr.
  assert (Ef : at_node c = Some fixer).
  { unfold fixer_raises, fixer_answered, fixer_asks in Hr.
    destruct (at_node c) as [[]|]; try discriminate Hr. reflexivity. }
  split; [rewrite step_node, Ef, Hr; reflexivity|].
  split; [rewrite step_aborted, Ef, Hr; apply orb_true_r|].
  rewrite (step_state_raised w c Ef Hr). reflexivity.
Qed.

(* ================================================================== *)
(** * A file whose tests always fail *)
(* ================================================================== *)

Lemma step_status_not_failure (w : World) (c : Config) :
  (forall t p, failed (_safe_llm_invoke (llm_invoke w t p)) = false) ->
  status (state c) <> LLM_FAILURE ->
  status (state (step w c)) <> LLM_FAILURE.
Proof.
  intros Hllm Hs. unfold step.
  destruct (at_node c) as [[]|]; try exact Hs; simpl.
  - unfold auditor_node. rewrite Hllm.
    destruct (disable_llm (state c)); simpl; [discriminate|exact Hs].
  - unfold fixer_node. rewrite Hllm.
    destruct (disable_llm (state c)); simpl; [discriminate|].
    destruct (Status_eqb (status (state c)) LLM_FAILURE); simpl;
      [exact Hs|].
    destruct (output_mode (state c)); [exact Hs|].
    destruct (is_safe_path w _); exact Hs.
Qed.

(** The flag the router reads after a judge is the one the judge set. *)
Lemma step_judge_success (w : World) (c : Config) :
  at_node c = Some judge ->
  last_success (state (step w c))
  = judged_success (state c) (run_pytest (pytest_process w (clock c))).
Proof. intros E. unfold step. rewrite E. reflexivity. Qed.

Section AlwaysFailing.

Variable w : World.
Hypothesis model_answers :
  forall t p, failed (_safe_llm_invoke (llm_invoke w t p)) = false.
Hypothesis tests_fail :
  forall t, success (run_pytest (pytest_process w t)) = false.

Variable c0 : Config.
Hypothesis enabled : disable_llm (state c0) = false.
Hypothesis overwriting : output_mode (state c0) = overwrite.
Hypothesis status_ok : status (state c0) <> LLM_FAILURE.

Lemma failing_run_invariant (n : nat) :
  disable_llm (state (steps w n c0)) = false
  /\ output_mode (state (steps w n c0)) = overwrite
  /\ status (state (steps w n c0)) <> LLM_FAILURE
  /\ max_iterations (state (steps w n c0)) = max_iterations (state c0).
Proof.
  induction n as [|n [H1 [H2 [H3 H4]]]]; [tauto|].
  rewrite steps_succ, step_disable_llm, step_output_mode, step_max_iterations.
  repeat split; try assumption.
  apply step_status_not_failure; assumption.
Qed.

(** With failing tests the judge advances only when the counter it has
    incremented reaches [max_iterations]. *)
Lemma failing_judge_step (n : nat) :
  at_node (steps w n c0) = Some judge ->
  at_node (steps w (S n) c0) =
  if max_iterations (state c0) <=? iteration_count (state (steps w n c0)) + 1
  then Some next_file_processor else Some fixer.
Proof.
  intros Ej.
  destruct (failing_run_invariant n) as [_ [Hm _]].
  destruct (failing_run_invariant (S n)) as [Hd [_ [Hs Hmax]]].
  pose proof (step_judge_success w _ Ej) as Hsucc.
  unfold judged_success in Hsucc. rewrite Hm, tests_fail in Hsucc.
  simpl in Hsucc.
  rewrite steps_succ in *. rewrite step_node, Ej.
  pose proof (step_iteration w (steps w n c0)) as Hk. rewrite Ej in Hk.
  destruct (Nat.leb_spec (max_iterations (state c0))
                         (iteration_count (state (steps w n c0)) + 1))
    as [Hle|Hgt].
  - assert (H : judge_router (state (step w (steps w n c0)))
                = route_next_file)
      by (apply judge_router_next_file; rewrite Hmax, Hk; tauto).
    rewrite H. reflexivity.
  - destruct (judge_router (state (step w (steps w n c0)))) eqn:Er;
      [|reflexivity].
    apply judge_router_next_file in Er.
    rewrite Hmax, Hk, Hsucc in Er.
    destruct Er as [Er|[Er|[Er|Er]]]; try congruence; lia.
Qed.

End AlwaysFailing.

(** C2, as stated, fails: with [max_iterations = 2], one file, a model
    that always answers and tests that always fail, the fixer runs twice,
    not three times, before the file transition. *)
Lemma three_fix_invocations_counterexample :
  let c0 := start (Scenario.one_file 2 false overwrite) in
  executed Scenario.failing_tests 8 c0
  = [manager; auditor; fixer; judge; fixer; judge; next_file_processor;
     manager]
  /\ at_node (steps Scenario.failing_tests 8 c0) = None
  /\ count_nodes (Node_eqb fixer) (executed Scenario.failing_tests 8 c0) = 2
  /\ count_nodes (Node_eqb fixer) (executed Scenario.failing_tests 8 c0) <> 3.
Proof.
  cbv zeta. repeat split; try (vm_compute; reflexivity).
  vm_compute. discriminate.
Qed.

(** C2, amended. With [max_iterations = 2], overwrite mode, a model that
    always answers and tests that fail at every judge, the first file
    takes exactly two Fix stages (the first and one retry) before the
    file transition, and the counter is 0 when the manager takes up the
    next index. *)
Theorem two_fix_invocations (w : World) (dir f : string) (rest : list string)
    (cooldown : nat) (od : string) :
  (forall t p, failed (_safe_llm_invoke (llm_invoke w t p)) = false) ->
  (forall t, success (run_pytest (pytest_process w t)) = false) ->
  let c0 := start (initial_state dir (f :: rest) 2 cooldown false overwrite od)
  in
  executed w 7 c0
  = [manager; auditor; fixer; judge; fixer; judge; next_file_processor]
  /\ count_nodes (Node_eqb fixer) (executed w 7 c0) = 2
  /\ at_node (steps w 7 c0) = Some manager
  /\ current_file_index (state (steps w 7 c0)) = 1
  /\ iteration_count (state (steps w 7 c0)) = 0.
Proof.
  intros Hllm Htests c0.
  assert (Hst : status (state c0) <> LLM_FAILURE) by discriminate.
  pose proof (failing_judge_step w Hllm Htests c0 eq_refl eq_refl Hst) as Hj.
  (* the points of the run, one after the other *)
  pose (c1 := step w c0). pose (c2 := step w c1). pose (c3 := step w c2).
  pose (c4 := step w c3). pose (c5 := step w c4). pose (c6 := step w c5).
  pose (c7 := step w c6).
  assert (Hov : forall n, never_raises w (state (steps w n c0)))
    by (intros n; apply steps_never_raises; left; reflexivity).
  assert (N1 : at_node c1 = Some auditor) by reflexivity.
  assert (N2 : at_node c2 = Some fixer)
    by (unfold c2; rewrite step_node, N1; reflexivity).
  assert (N3 : at_node c3 = Some judge)
    by (unfold c3; apply step_node_fixer; [exact (Hov 2)|exact N2]).
  assert (K1 : iteration_count (state c1) = 0) by reflexivity.
  assert (K2 : iteration_count (state c2) = 0)
    by (unfold c2; rewrite step_iteration, N1; exact K1).
  assert (K3 : iteration_count (state c3) = 0)
    by (unfold c3; rewrite step_iteration, N2; exact K2).
  assert (N4 : at_node c4 = Some fixer).
  { pose proof (Hj 3 N3) as H. change (steps w 3 c0) with c3 in H.
    change (steps w 4 c0) with c4 in H. rewrite K3 in H. exact H. }
  assert (K4 : iteration_count (state c4) = 1)
    by (unfold c4; rewrite step_iteration, N3, K3; reflexivity).
  assert (N5 : at_node c5 = Some judge)
    by (unfold c5; apply step_node_fixer; [exact (Hov 4)|exact N4]).
  assert (K5 : iteration_count (state c5) = 1)
    by (unfold c5; rewrite step_iteration, N4; exact K4).
  assert (N6 : at_node c6 = Some next_file_processor).
  { pose proof (Hj 5 N5) as H. change (steps w 5 c0) with c5 in H.
    change (steps w 6 c0) with c6 in H. rewrite K5 in H. exact H. }
  assert (N7 : at_node c7 = Some manager)
    by (unfold c7; rewrite step_node, N6; reflexivity).
  assert (K7 : iteration_count (state c7) = 0)
    by (unfold c7; rewrite step_iteration, N6; reflexivity).
  assert (I7 : current_file_index (state c7) = 1).
  { unfold c7. rewrite step_index, N6.
    unfold c6. rewrite step_index, N5.
    unfold c5. rewrite step_index, N4.
    unfold c4. rewrite step_index, N3.
    unfold c3. rewrite step_index, N2.
    unfold c2. rewrite step_index, N1. reflexivity. }
  assert (E : executed w 7 c0
              = [manager; auditor; fixer; judge; fixer; judge;
                 next_file_processor]).
  { unfold executed, trace.
    change (step w c0) with c1. change (step w c1) with c2.
    change (step w c2) with c3. change (step w c3) with c4.
    change (step w c4) with c5. change (step w c5) with c6.
    cbn [flat_map]. rewrite N1, N2, N3, N4, N5, N6. reflexivity. }
  split; [exact E|]. split; [rewrite E; reflexivity|].
  change (steps w 7 c0) with c7. tauto.
Qed.

Lemma two_fix_invocations_witness :
  let c0 := start (Scenario.one_file 2 false overwrite) in
  executed Scenario.failing_tests 7 c0
  = [manager; auditor; fixer; judge; fixer; judge; next_file_processor]
  /\ count_nodes (Node_eqb fixer) (executed Scenario.failing_tests 7 c0) = 2
  /\ at_node (steps Scenario.failing_tests 7 c0) = Some manager
  /\ current_file_index (state (steps Scenario.failing_tests 7 c0)) = 1
  /\ iteration_count (state (steps Scenario.failing_tests 7 c0)) = 0.
Proof.
  exact (two_fix_invocations Scenario.failing_tests "sandbox" "sandbox/a.py"
           [] 0 "refactored" (fun _ _ => eq_refl) (fun _ => eq_refl)).
Defined.

(* ================================================================== *)
(** * Runs with the model disabled *)
(* ================================================================== *)

Section Disabled.

Variable w : World.

Lemma step_effects_disabled (c : Config) :
  disable_llm (state c) = true -> effects (step w c) = effects c.
Proof.
  intros Hd. unfold step.
  destruct (at_node c) as [[]|]; try reflexivity; simpl;
    try (apply app_nil_r).
  - unfold auditor_node. rewrite Hd. simpl. apply app_nil_r.
  - unfold fixer_node. rewrite Hd. simpl. apply app_nil_r.
Qed.

Lemma step_node_disabled (c : Config) :
  disable_llm (state c) = true ->
  at_node c = Some judge ->
  at_node (step w c) = Some next_file_processor.
Proof.
  intros Hd Ej. rewrite step_node, Ej.
  assert (H : judge_router (state (step w c)) = route_next_file)
    by (apply judge_router_next_file; rewrite step_disable_llm; tauto).
  rewrite H. reflexivity.
Qed.

Variable c0 : Config.
Hypothesis disabled : disable_llm (state c0) = true.
Hypothesis no_effects : effects c0 = [].
Hypothesis counter_start : iteration_count (state c0) = counter_at c0.

Lemma disabled_invariant (n : nat) :
  let c := steps w n c0 in
  disable_llm (state c) = true
  /\ effects c = []
  /\ iteration_count (state c) = counter_at c
  /\ is_retry w c = false.
Proof.
  cbv zeta.
  assert (H : disable_llm (state (steps w n c0)) = true
              /\ effects (steps w n c0) = []
              /\ iteration_count (state (steps w n c0))
                 = counter_at (steps w n c0)).
  { induction n as [|n [Hd [He Hk]]]; [tauto|].
    rewrite steps_succ. set (c := steps w n c0) in *.
    split; [rewrite step_disable_llm; exact Hd|].
    split; [rewrite step_effects_disabled; assumption|].
    rewrite step_iteration. unfold counter_at in *.
    pose proof (step_node w c) as Hn.
    destruct (at_node c) as [[]|] eqn:E.
    - rewrite Hn. destruct (_ <? _); exact Hk.
    - rewrite Hn. exact Hk.
    - rewrite Hn. destruct (fixer_raises w c); exact Hk.
    - rewrite (step_node_disabled c Hd E), Hk. reflexivity.
    - rewrite Hn. reflexivity.
    - rewrite Hn. exact Hk. }
  destruct H as [Hd [He Hk]]. repeat split; try assumption.
  unfold is_retry.
  destruct (at_node (steps w n c0)) as [[]|] eqn:E; try reflexivity.
  rewrite (step_node_disabled _ Hd E). reflexivity.
Qed.

End Disabled.

Section DisabledCycles.

Variable w : World.

(** One file, from the manager to the manager. *)
Lemma disabled_cycle (c : Config) :
  disable_llm (state c) = true ->
  at_node c = Some manager ->
  current_file_index (state c) < length (files (state c)) ->
  executed w 5 c = one_cycle
  /\ at_node (steps w 5 c) = Some manager
  /\ current_file_index (state (steps w 5 c)) = current_file_index (state c) + 1
  /\ files (state (steps w 5 c)) = files (state c)
  /\ disable_llm (state (steps w 5 c)) = true.
Proof.
  intros Hd Em Hlt.
  pose (c1 := step w c). pose (c2 := step w c1). pose (c3 := step w c2).
  pose (c4 := step w c3). pose (c5 := step w c4).
  assert (N1 : at_node c1 = Some auditor).
  { unfold c1. rewrite step_node, Em.
    apply Nat.ltb_lt in Hlt. rewrite Hlt. reflexivity. }
  assert (N2 : at_node c2 = Some fixer)
    by (unfold c2; rewrite step_node, N1; reflexivity).
  assert (N3 : at_node c3 = Some judge).
  { unfold c3. apply step_node_fixer; [|exact N2].
    right. left. unfold c2, c1. rewrite !step_disable_llm. exact Hd. }
  assert (D3 : disable_llm (state c3) = true)
    by (unfold c3, c2, c1; rewrite !step_disable_llm; exact Hd).
  assert (N4 : at_node c4 = Some next_file_processor)
    by (apply step_node_disabled; assumption).
  assert (N5 : at_node c5 = Some manager)
    by (unfold c5; rewrite step_node, N4; reflexivity).
  change (steps w 5 c) with c5.
  split.
  { unfold executed, trace.
    change (step w c) with c1. change (step w c1) with c2.
    change (step w c2) with c3. change (step w c3) with c4.
    cbn [flat_map]. rewrite Em, N1, N2, N3, N4. reflexivity. }
  split; [exact N5|]. split.
  { unfold c5. rewrite step_index, N4.
    unfold c4. rewrite step_index, N3.
    unfold c3. rewrite step_index, N2.
    unfold c2. rewrite step_index, N1.
    unfold c1. rewrite step_index, Em. reflexivity. }
  split.
  - unfold c5, c4, c3, c2, c1. rewrite !step_files. reflexivity.
  - unfold c5, c4. rewrite !step_disable_llm. exact D3.
Qed.

(** All the files that are left, one cycle each, then the manager ends
    the run. *)
Lemma disabled_run (k : nat) (c : Config) :
  disable_llm (state c) = true ->
  at_node c = Some manager ->
  current_file_index (state c) + k = length (files (state c)) ->
  executed w (5 * k + 1) c = (cycles k ++ [manager])%list
  /\ at_node (steps w (5 * k + 1) c) = None.
Proof.
  revert c. induction k as [|k IH]; intros c Hd Em Hk.
  - change (5 * 0 + 1) with 1. unfold executed, trace. cbn [flat_map steps].
    rewrite Em. split; [reflexivity|].
    rewrite step_node, Em.
    assert (H : (current_file_index (state c) <? length (files (state c)))
                = false) by (apply Nat.ltb_ge; lia).
    rewrite H. reflexivity.
  - replace (5 * S k + 1) with (5 + (5 * k + 1)) by lia.
    destruct (disabled_cycle c Hd Em ltac:(lia)) as [E [N [I [F D]]]].
    rewrite executed_add, steps_add, E.
    destruct (IH (steps w 5 c) D N ltac:(rewrite I, F; lia)) as [E' N'].
    rewrite E', N'. split; [|reflexivity].
    simpl. reflexivity.
Qed.

End DisabledCycles.

(** C5, as stated, fails at the counter: with the model disabled the
    judge still adds one, so the counter is 1 when the router and the file
    transition read it. *)
Lemma counter_not_zero_when_disabled :
  let c := steps Scenario.failing_tests 4
                 (start (Scenario.one_file 10 true overwrite)) in
  disable_llm (state c) = true
  /\ at_node c = Some next_file_processor
  /\ iteration_count (state c) = 1
  /\ iteration_count (state c) <> 0.
Proof.
  cbv zeta. repeat split; try (vm_compute; reflexivity).
  vm_compute. discriminate.
Qed.

(** C5, amended. In a run with the model disabled no request is sent to
    the model (no stage has any effect on the outside), every file goes
    through manager, auditor, fixer, judge and the file transition once,
    the judge never sends the run back to the fixer, and the counter is 0
    at every point except between the judge and the file transition,
    where it is 1. *)
Theorem disabled_model_run :
  forall w dir fs max_iter cooldown om od,
    let c0 := start (initial_state dir fs max_iter cooldown true om od) in
    (forall n, effects (steps w n c0) = [])
    /\ (forall n, filter is_llm_request (effects (steps w n c0)) = [])
    /\ executed w (5 * length fs + 1) c0
       = (cycles (length fs) ++ [manager])%list
    /\ at_node (steps w (5 * length fs + 1) c0) = None
    /\ (forall n, is_retry w (steps w n c0) = false)
    /\ (forall n,
          iteration_count (state (steps w n c0))
          = match at_node (steps w n c0) with
            | Some next_file_processor => 1
            | _ => 0
            end).
Proof.
  intros w dir fs max_iter cooldown om od c0.
  pose proof (fun n => disabled_invariant w c0 eq_refl eq_refl eq_refl n)
    as Inv. cbv zeta in Inv.
  destruct (disabled_run w (length fs) c0 eq_refl eq_refl eq_refl) as [E N].
  split; [intros n; apply Inv|].
  split; [intros n; destruct (Inv n) as [_ [He _]]; rewrite He; reflexivity|].
  split; [exact E|]. split; [exact N|].
  split; intros n; apply Inv.
Qed.

(* ================================================================== *)
(** * What score extraction finds *)
(* ================================================================== *)

Module ScoreFacts.
Import Text Score.
Local Open Scope list_scope.

Lemma span_spec (p : ascii -> bool) (s a b : chars) :
  span p s = (a, b) ->
  s = (a ++ b)%list /\ forallb p a = true
  /\ match b with c :: _ => p c = false | [] => True end.
Proof.
  revert a b. induction s as [|c s IH]; intros a b H; simpl in H.
  - injection H as <- <-. repeat split.
  - destruct (p c) eqn:E.
    + destruct (span p s) as [a' b'] eqn:E'. injection H as <- <-.
      destruct (IH a' b' eq_refl) as [-> [H1 H2]].
      simpl. rewrite E, H1. repeat split. exact H2.
    + injection H as <- <-. simpl. repeat split. exact E.
Qed.

Lemma span_app (p : ascii -> bool) (a b : chars) :
  forallb p a = true ->
  match b with c :: _ => p c = false | [] => True end ->
  span p (a ++ b)%list = (a, b).
Proof.
  intros Ha Hb. induction a as [|c a IH]; simpl.
  - destruct b as [|c b]; [reflexivity|]. simpl. rewrite Hb. reflexivity.
  - simpl in Ha. apply andb_true_iff in Ha as [Hc Ha].
    rewrite Hc, (IH Ha). reflexivity.
Qed.

Lemma strip_prefix_spec (l s r : chars) :
  strip_prefix l s = Some r <-> s = (l ++ r)%list.
Proof.
  unfold strip_prefix. revert s.
  induction l as [|a l IH]; intros s; simpl.
  - split; [intros [= ->]; reflexivity|intros ->; reflexivity].
  - destruct s as [|c s]; [split; discriminate|].
    destruct (Ascii.eqb_spec a c) as [->|Hne].
    + rewrite IH. split; [intros ->; reflexivity|intros [= ->]; reflexivity].
    + split; [discriminate|intros [= E _]; congruence].
Qed.

Lemma strip_prefix_ci_spec (l s r : chars) :
  strip_prefix_ci l s = Some r <->
  exists kw, s = (kw ++ r)%list /\ ci_equal l kw.
Proof.
  unfold strip_prefix_ci, ci_equal. revert s.
  induction l as [|a l IH]; intros s; simpl.
  - split.
    + intros [= ->]. exists []. split; reflexivity.
    + intros [kw [-> H]]. destruct kw; [reflexivity|discriminate].
  - destruct s as [|c s].
    + split; [discriminate|].
      intros [kw [H1 H2]]. destruct kw; [discriminate|discriminate].
    + unfold eqb_ci at 1.
      destruct (Ascii.eqb_spec (lower a) (lower c)) as [E|Hne].
      * rewrite IH. split.
        -- intros [kw [-> H]]. exists (c :: kw).
           split; [reflexivity|]. simpl. rewrite E, H. reflexivity.
        -- intros [kw [H1 H2]]. destruct kw as [|k kw]; [discriminate|].
           injection H1 as <- ->. injection H2 as _ H2.
           exists kw. split; [reflexivity|exact H2].
      * split; [discriminate|].
        intros [kw [H1 H2]]. destruct kw as [|k kw]; [discriminate|].
        injection H1 as <- ->. injection H2 as H2 _. contradiction.
Qed.

Ltac by_cases_on_char c :=
  destruct c as [[|] [|] [|] [|] [|] [|] [|] [|]];
  try reflexivity; try discriminate.

Lemma numch_not_space (c : ascii) : is_numch c = true -> is_space c = false.
Proof. by_cases_on_char c. Qed.

(** A match at the front of [s] is an occurrence with nothing before. *)
Lemma match_at_spec (s num : chars) :
  match_at s = Some num <->
  exists kw ws post, occurrence s [] kw ws num post.
Proof.
  unfold match_at, occurrence. split.
  - destruct (strip_prefix_ci (lit "rated at") s) as [s1|] eqn:E1;
      [|discriminate].
    apply strip_prefix_ci_spec in E1 as [kw [-> Hkw]].
    destruct (span is_space s1) as [ws s2] eqn:E2.
    apply span_spec in E2 as [-> [Hws _]].
    destruct ws as [|w0 ws]; [discriminate|].
    destruct (span is_numch s2) as [n s3] eqn:E3.
    apply span_spec in E3 as [-> [Hn _]].
    destruct n as [|n0 n]; [discriminate|].
    destruct (strip_prefix (lit "/10") s3) as [post|] eqn:E4; [|discriminate].
    apply strip_prefix_spec in E4 as ->.
    intros [= <-]. exists kw, (w0 :: ws), post.
    repeat split; try assumption; try reflexivity; discriminate.
  - intros [kw [ws [post [-> [Hkw [Hws1 [Hws2 [Hn1 Hn2]]]]]]]].
    rewrite app_nil_l.
    assert (E1 : strip_prefix_ci (lit "rated at")
                   (kw ++ ws ++ num ++ lit "/10" ++ post)
                 = Some (ws ++ num ++ lit "/10" ++ post)%list)
      by (apply strip_prefix_ci_spec; exists kw; split; [reflexivity|exact Hkw]).
    rewrite E1.
    assert (E2 : span is_space (ws ++ num ++ lit "/10" ++ post)
                 = (ws, (num ++ lit "/10" ++ post)%list)).
    { apply span_app; [exact Hws2|].
      destruct num as [|n0 num]; [contradiction|]. simpl in *.
      apply andb_true_iff in Hn2 as [Hn2 _]. apply numch_not_space, Hn2. }
    rewrite E2. destruct ws as [|w0 ws]; [contradiction|].
    assert (E3 : span is_numch (num ++ lit "/10" ++ post)
                 = (num, (lit "/10" ++ post)%list))
      by (apply span_app; [exact Hn2|reflexivity]).
    rewrite E3. destruct num as [|n0 num]; [contradiction|].
    assert (E4 : strip_prefix (lit "/10") (lit "/10" ++ post) = Some post)
      by (apply strip_prefix_spec; reflexivity).
    rewrite E4. reflexivity.
Qed.

(** The search fails exactly on the texts without an occurrence. *)
Lemma search_none (s : chars) : search s = None <-> ~ has_occurrence s.
Proof.
  induction s as [|c s IH].
  - simpl. destruct (match_at []) as [g|] eqn:E.
    + split; [discriminate|]. intros H. exfalso. apply H.
      apply match_at_spec in E as [kw [ws [post H']]].
      exists [], kw, ws, g, post. exact H'.
    + split; [|reflexivity]. intros _ [pre [kw [ws [num [post H]]]]].
      destruct pre as [|p pre].
      * assert (match_at [] = Some num)
          by (apply match_at_spec; exists kw, ws, post; exact H).
        congruence.
      * destruct H as [H _]. discriminate.
  - simpl. destruct (match_at (c :: s)) as [g|] eqn:E.
    + split; [discriminate|]. intros H. exfalso. apply H.
      apply match_at_spec in E as [kw [ws [post H']]].
      exists [], kw, ws, g, post. exact H'.
    + rewrite IH. split.
      * intros Hno [pre [kw [ws [num [post H]]]]].
        destruct pre as [|p pre].
        -- assert (match_at (c :: s) = Some num)
             by (apply match_at_spec; exists kw, ws, post; exact H).
           congruence.
        -- apply Hno. destruct H as [H H'].
           injection H as _ ->.
           exists pre, kw, ws, num, post. split; [reflexivity|exact H'].
      * intros Hno [pre [kw [ws [num [post [H H']]]]]].
        apply Hno. exists (c :: pre), kw, ws, num, post.
        split; [rewrite H; reflexivity|exact H'].
Qed.

Lemma digit_val_nonneg (c : ascii) : (0 <= digit_val c)%Z.
Proof. unfold digit_val. lia. Qed.

Lemma digits_val_nonneg (ds : chars) : (0 <= digits_val ds)%Z.
Proof.
  unfold digits_val.
  assert (H : forall acc, (0 <= acc)%Z ->
                (0 <= fold_left (fun a c => (10 * a + digit_val c)%Z) ds acc)%Z).
  { induction ds as [|d ds IH]; intros acc Hacc; cbn [fold_left];
      [exact Hacc|].
    apply IH. pose proof (digit_val_nonneg d). lia. }
  apply H. lia.
Qed.

Lemma scaled_nonneg (m e : Z) : (0 <= m)%Z -> (0 <= scaled m e)%Q.
Proof.
  intros Hm. unfold scaled. destruct (0 <=? e)%Z eqn:E.
  - unfold Qle. simpl. apply Z.leb_le in E.
    pose proof (Z.pow_nonneg 2 e). nia.
  - set (d := Z.to_pos (2 ^ (- e))).
    apply Qle_trans with (y := Qmake m d).
    + unfold Qle. simpl. lia.
    + apply Qle_lteq. right. symmetry. exact (Qred_correct (Qmake m d)).
Qed.

(** Rounding a decimal that is not negative gives a float that is not
    negative. *)
Lemma round_binary64_nonneg (n : Z) (k : nat) :
  (0 <= n)%Z -> not_negative (round_binary64 n k).
Proof.
  intros Hn. unfold round_binary64.
  destruct (n =? 0)%Z; [unfold not_negative, Qle; simpl; lia|].
  cbv zeta.
  set (den := (10 ^ Z.of_nat k)%Z).
  set (e := Z.max _ (-1074)).
  set (num' := (n * 2 ^ Z.max 0 (- e))%Z).
  set (den' := (den * 2 ^ Z.max 0 e)%Z).
  assert (Hnum : (0 <= num')%Z).
  { unfold num'. pose proof (Z.pow_nonneg 2 (Z.max 0 (- e))). nia. }
  assert (Hden : (0 < den')%Z).
  { unfold den', den.
    assert (0 < 10 ^ Z.of_nat k)%Z by (apply Z.pow_pos_nonneg; lia).
    assert (0 < 2 ^ Z.max 0 e)%Z by (apply Z.pow_pos_nonneg; lia).
    nia. }
  assert (Hq : (0 <= num' / den')%Z) by (apply Z.div_pos; assumption).
  set (m := if (_ || _) then _ else (num' / den')%Z).
  assert (Hm : (0 <= m)%Z) by (unfold m; destruct (_ || _); lia).
  destruct (2 ^ 1024 <=? m * 2 ^ Z.max 0 e)%Z; [exact I|].
  unfold not_negative. apply scaled_nonneg. exact Hm.
Qed.

(** A number token that parses has a value that is not negative. *)
Lemma parse_float_nonneg (num : chars) (x : PyFloat) :
  parse_float num = Some x -> not_negative x.
Proof.
  unfold parse_float. destruct (span is_digit num) as [ip r].
  destruct r as [|c fp].
  - destruct ip; [discriminate|]. intros [= <-].
    apply round_binary64_nonneg, digits_val_nonneg.
  - destruct (_ && _); [|discriminate]. intros [= <-].
    apply round_binary64_nonneg, digits_val_nonneg.
Qed.

Lemma code_point (c : ascii) : (code c =? 46) = true -> c = "."%char.
Proof. by_cases_on_char c. Qed.

(** [float] succeeds exactly on the decimal numerals, with their value
    rounded. *)
Lemma parse_float_numeral (num : chars) (x : PyFloat) :
  parse_float num = Some x <->
  exists ip fp,
    numeral num ip fp
    /\ x = round_binary64 (digits_val (ip ++ fp)) (length fp).
Proof.
  unfold parse_float, numeral. split.
  - destruct (span is_digit num) as [ip r] eqn:E.
    apply span_spec in E as [-> [Hip _]].
    destruct r as [|c fp].
    + destruct ip as [|i ip]; [discriminate|]. intros [= <-].
      exists (i :: ip), []. rewrite !app_nil_r.
      repeat split; try assumption; try discriminate.
      left. split; reflexivity.
    + destruct ((code c =? 46) && forallb is_digit fp
                && negb (length ip + length fp =? 0)) eqn:Ec;
        [|discriminate].
      apply andb_true_iff in Ec as [Ec Hlen].
      apply andb_true_iff in Ec as [Hc Hfp].
      apply code_point in Hc as ->. intros [= <-].
      exists ip, fp. repeat split; try assumption.
      * intros H. apply (f_equal (@length _)) in H.
        rewrite length_app in H. simpl in H.
        apply negb_true_iff, Nat.eqb_neq in Hlen. contradiction.
      * right. reflexivity.
  - intros [ip [fp [[Hip [Hfp [Hne [[-> ->]| ->]]]] ->]]].
    + rewrite app_nil_r in *.
      assert (E : span is_digit ip = (ip, [])).
      { rewrite <- (app_nil_r ip) at 1.
        apply span_app; [exact Hip|exact I]. }
      rewrite E. destruct ip; [contradiction|reflexivity].
    + assert (E : span is_digit (ip ++ "."%char :: fp)
                  = (ip, "."%char :: fp))
        by (apply span_app; [exact Hip|reflexivity]).
      rewrite E, Hfp.
      assert (Hl : (length ip + length fp =? 0) = false).
      { apply Nat.eqb_neq. intros H.
        destruct ip; destruct fp; try discriminate. contradiction. }
      rewrite Hl. reflexivity.
Qed.

Lemma Qred_scaled (n c : Z) :
  (0 < c)%Z -> Qred (Qmake (n * c) (Z.to_pos c)) = inject_Z n.
Proof.
  intros Hc.
  assert (E : Qred (inject_Z n) = inject_Z n).
  { apply Qred_identity. simpl. apply Z.gcd_1_r. }
  rewrite <- E. apply Qred_complete.
  unfold Qeq, inject_Z. simpl. rewrite Z2Pos.id by exact Hc. lia.
Qed.

(** An integer below [2^53] is a binary64 value: it is not rounded. *)
Lemma round_binary64_integer (n : Z) :
  (0 <= n < 2 ^ 53)%Z -> round_binary64 n 0 = Finite (inject_Z n).
Proof.
  intros [H0 H53]. unfold round_binary64.
  destruct (Z.eqb_spec n 0) as [->|Hn]; [reflexivity|].
  cbv zeta. change (10 ^ Z.of_nat 0)%Z with 1%Z.
  change (Z.log2 1) with 0%Z. rewrite Z.sub_0_r.
  assert (Hpos : (0 < n)%Z) by lia.
  destruct (Z.log2_spec n Hpos) as [Hlo Hhi].
  pose proof (Z.log2_nonneg n) as Hd0.
  set (d := Z.log2 n) in *.
  assert (Hd : (d <= 52)%Z).
  { destruct (Z_le_gt_dec d 52) as [H|H]; [exact H|].
    assert (2 ^ 53 <= 2 ^ d)%Z by (apply Z.pow_le_mono_r; lia). lia. }
  rewrite (Z.max_r 0 d) by lia. rewrite (Z.max_l 0 (- d)) by lia.
  rewrite Z.pow_0_r, !Z.mul_1_l, !Z.mul_1_r.
  assert (Ht : (2 ^ d <=? n)%Z = true) by (apply Z.leb_le; exact Hlo).
  rewrite Ht.
  rewrite (Z.max_l (d - 52) (-1074)) by lia.
  rewrite (Z.max_l 0 (d - 52)) by lia.
  rewrite Z.pow_0_r.
  replace (Z.max 0 (- (d - 52))) with (52 - d)%Z by lia.
  set (c := (2 ^ (52 - d))%Z).
  assert (Hc : (0 < c)%Z) by (apply Z.pow_pos_nonneg; lia).
  rewrite Z.div_1_r, Z.mod_1_r. simpl (2 * 0)%Z.
  change ((1 <? 0)%Z || (0 =? 1)%Z && Z.odd (n * c)) with false.
  cbv iota.
  assert (Hm : (n * c < 2 ^ 53)%Z).
  { assert (E : (2 ^ (d + 1) * c = 2 ^ 53)%Z).
    { unfold c. rewrite <- Z.pow_add_r by lia. f_equal. lia. }
    nia. }
  assert (Ho : (2 ^ 1024 <=? n * c)%Z = false).
  { apply Z.leb_gt.
    assert (2 ^ 53 < 2 ^ 1024)%Z by (apply Z.pow_lt_mono_r; lia). lia. }
  rewrite Z.mul_1_r, Ho. f_equal. unfold scaled.
  destruct (Z.leb_spec 0 (d - 52)) as [He|He].
  - assert (d = 52)%Z by lia. subst c.
    replace (52 - d)%Z with 0%Z by lia.
    replace (d - 52)%Z with 0%Z by lia.
    rewrite !Z.pow_0_r, !Z.mul_1_r. reflexivity.
  - replace (- (d - 52))%Z with (52 - d)%Z by lia. fold c.
    apply Qred_scaled, Hc.
Qed.

Lemma digits_val_last (ds : chars) (d : ascii) :
  digits_val (ds ++ [d])
  = (10 * digits_val ds + Z.of_nat (code d - 48))%Z.
Proof. unfold digits_val. rewrite fold_left_app. reflexivity. Qed.

(** The sentinel is not the value of a token. *)
Lemma parse_float_not_sentinel (num : chars) :
  parse_float num <> Some unparsable.
Proof.
  intros H. apply parse_float_nonneg in H.
  unfold not_negative, unparsable, Qle in H. simpl in H. lia.
Qed.

Lemma app_same_length {A} (a a' b b' : list A) :
  length a = length a' -> a ++ b = a' ++ b' -> a = a' /\ b = b'.
Proof.
  revert a'. induction a as [|x a IH]; intros [|x' a'] Hl H;
    try discriminate.
  - split; [reflexivity|exact H].
  - injection H as -> H. injection Hl as Hl.
    destruct (IH a' Hl H) as [-> ->]. split; reflexivity.
Qed.

(** Two occurrences that start at the same place have the same token. *)
Lemma occurrence_token (s pre kw ws num post pre' kw' ws' num' post' : chars) :
  occurrence s pre kw ws num post ->
  occurrence s pre' kw' ws' num' post' ->
  length pre = length pre' -> num = num'.
Proof.
  intros [H1 H2] [H1' H2'] Hl.
  rewrite H1 in H1'. apply (app_same_length _ _ _ _ Hl) in H1' as [_ Hr].
  assert (E : match_at (kw ++ ws ++ num ++ lit "/10" ++ post) = Some num)
    by (apply match_at_spec; exists kw, ws, post; split;
        [reflexivity|exact H2]).
  assert (E' : match_at (kw ++ ws ++ num ++ lit "/10" ++ post) = Some num')
    by (apply match_at_spec; exists kw', ws', post'; split;
        [exact Hr|exact H2']).
  congruence.
Qed.

End ScoreFacts.

(** What the search returns is the number of the leftmost occurrence. *)
Lemma search_leftmost (s num : Text.chars) :
  Score.search s = Some num ->
  exists pre kw ws post,
    Score.occurrence s pre kw ws num post
    /\ forall pre' kw' ws' num' post',
         Score.occurrence s pre' kw' ws' num' post' ->
         length pre <= length pre'.
Proof.
  induction s as [|c s IH]; [discriminate|].
  cbn [Score.search].
  destruct (Score.match_at (c :: s)) as [g|] eqn:E.
  - intros [= ->].
    apply ScoreFacts.match_at_spec in E as [kw [ws [post H]]].
    exists [], kw, ws, post. split; [exact H|]. intros; simpl; lia.
  - intros H. destruct (IH H) as [pre [kw [ws [post [[H1 H2] Hmin]]]]].
    exists (c :: pre), kw, ws, post. split.
    + split; [rewrite H1; reflexivity|exact H2].
    + intros pre' kw' ws' num' post' Hocc.
      destruct pre' as [|c' pre'].
      * assert (Score.match_at (c :: s) = Some num')
          by (apply ScoreFacts.match_at_spec; exists kw', ws', post';
              exact Hocc).
        congruence.
      * destruct Hocc as [Hs Hrest]. injection Hs as _ Hs.
        assert (Ho : Score.occurrence s pre' kw' ws' num' post')
          by (split; assumption).
        specialize (Hmin _ _ _ _ _ Ho). simpl. lia.
Qed.

(** The leftmost occurrence decides the result. *)
Lemma extract_score_leftmost (text : string)
    (pre kw ws num post : Text.chars) :
  Score.occurrence (list_ascii_of_string text) pre kw ws num post ->
  leftmost (list_ascii_of_string text) pre ->
  Score._extract_score text = score_of_token num.
Proof.
  intros Hocc Hleft.
  unfold Score._extract_score, Score.extract_score_chars, score_of_token.
  set (s := list_ascii_of_string text) in *.
  destruct (Score.search s) as [num0|] eqn:E.
  - destruct (search_leftmost s num0 E)
      as [pre0 [kw0 [ws0 [post0 [Hocc0 Hmin0]]]]].
    assert (Hl : length pre = length pre0).
    { apply Nat.le_antisymm;
        [exact (Hleft _ _ _ _ _ Hocc0)|exact (Hmin0 _ _ _ _ _ Hocc)]. }
    rewrite (ScoreFacts.occurrence_token _ _ _ _ _ _ _ _ _ _ _ Hocc Hocc0 Hl).
    reflexivity.
  - apply ScoreFacts.search_none in E. exfalso. apply E.
    exists pre, kw, ws, num, post. exact Hocc.
Qed.

(** C6, as stated, fails.  The number before ["/10"] is not checked: a
    text rated at 99/10 yields 99, and a number of 400 nines yields [inf],
    which is no real number.  And only the leftmost occurrence is read: a
    text that contains ["rated at 7.50/10"] after another score yields the
    other score. *)
Lemma score_above_ten :
  (Score._extract_score "Your code has been rated at 99/10"
   = Score.Finite (inject_Z 99)
   /\ ~ score_in_range
         (Score._extract_score "Your code has been rated at 99/10"))
  /\ (Score._extract_score (nines_report 400) = Score.Infinity
      /\ ~ score_in_range (Score._extract_score (nines_report 400)))
  /\ Score._extract_score
       "Your code has been rated at 3/10 (previous run: rated at 7.50/10)"
     = Score.Finite (inject_Z 3).
Proof.
  assert (E : Score._extract_score "Your code has been rated at 99/10"
              = Score.Finite (inject_Z 99)) by (vm_compute; reflexivity).
  assert (E' : Score._extract_score (nines_report 400) = Score.Infinity)
    by (vm_compute; reflexivity).
  split; [|split].
  - split; [exact E|]. rewrite E.
    intros [H|[q [H [_ H']]]]; [discriminate H|].
    injection H as <-. unfold Qle in H'. simpl in H'. lia.
  - split; [exact E'|]. rewrite E'.
    intros [H|[q [H _]]]; discriminate H.
  - vm_compute. reflexivity.
Qed.

(** C6, amended. Score extraction searches the text for the leftmost
    occurrence of ["rated at"] (in any case), blanks, a number token over
    digits and points, and ["/10"].  When the text has no occurrence the
    result is -1; otherwise the token of the leftmost occurrence is parsed
    as [float] does and the result is the binary64 value nearest to it,
    [inf] for a token too large, or -1 when the token is not a number
    (it is one when it has digits, then maybe a point and digits, with
    one digit at least; an integer below [2^53] is not rounded).  The
    result is -1, or a finite value that is not negative, or [inf]; it is
    not bounded by 10.  A text whose leftmost occurrence has the token
    ["7.50"] yields 7.5, and a text without the pattern yields -1. *)
Theorem extract_score_spec :
  (forall text,
      let s := list_ascii_of_string text in
      match Score.search s with
      | Some num =>
          (exists pre kw ws post,
              Score.occurrence s pre kw ws num post /\ leftmost s pre)
          /\ Score._extract_score text = score_of_token num
      | None =>
          ~ Score.has_occurrence s
          /\ Score._extract_score text = Score.unparsable
      end)
  /\ (forall text pre kw ws num post,
        Score.occurrence (list_ascii_of_string text) pre kw ws num post ->
        leftmost (list_ascii_of_string text) pre ->
        Score._extract_score text = score_of_token num)
  /\ (forall text,
        ~ Score.has_occurrence (list_ascii_of_string text) ->
        Score._extract_score text = Score.unparsable)
  /\ (forall num,
        match Score.parse_float num with
        | Some x => not_negative x /\ x <> Score.unparsable
        | None => score_of_token num = Score.unparsable
        end)
  /\ (forall num x,
        Score.parse_float num = Some x <->
        exists ip fp,
          numeral num ip fp
          /\ x = Score.round_binary64 (Score.digits_val (ip ++ fp)%list)
                                      (length fp))
  /\ (Score.digits_val [] = 0%Z
      /\ forall ds d,
           Score.digits_val (ds ++ [d])%list
           = (10 * Score.digits_val ds + Z.of_nat (Text.code d - 48))%Z)
  /\ (forall n,
        (0 <= n < 2 ^ 53)%Z ->
        Score.round_binary64 n 0 = Score.Finite (inject_Z n))
  /\ (forall text,
        Score._extract_score text = Score.unparsable
        \/ Score._extract_score text = Score.Infinity
        \/ exists q, Score._extract_score text = Score.Finite q
                     /\ (0 <= q)%Q)
  /\ (score_of_token (Text.lit "7.50") = Score.Finite (Qmake 15 2)
      /\ (Qmake 15 2 == 7.5)%Q
      /\ forall text pre kw ws post,
           Score.occurrence (list_ascii_of_string text) pre kw ws
                            (Text.lit "7.50") post ->
           leftmost (list_ascii_of_string text) pre ->
           Score._extract_score text = Score.Finite (Qmake 15 2))
  /\ Score._extract_score
       ("************* Module a" ++ NL
        ++ "a.py:1:0: C0114: Missing module docstring" ++ NL
        ++ "Your code has been rated at 7.50/10 (previous run: 7.00/10)")
     = Score.Finite (Qmake 15 2)
  /\ Score._extract_score "Your code has been RATED AT  10/10"
     = Score.Finite (inject_Z 10)
  /\ Score._extract_score "Your code has been rated at 0.1/10"
     = Score.Finite (Qmake 3602879701896397 36028797018963968)
  /\ Score._extract_score (nines_report 20)
     = Score.Finite (inject_Z (10 ^ 20))
  /\ Score._extract_score "Your code has been rated at 1.2.3/10"
     = Score.unparsable
  /\ Score._extract_score "Your code has been rated at ./10"
     = Score.unparsable
  /\ Score._extract_score "************* Module a" = Score.unparsable.
Proof.
  assert (L : forall text pre kw ws num post,
             Score.occurrence (list_ascii_of_string text) pre kw ws num post ->
             leftmost (list_ascii_of_string text) pre ->
             Score._extract_score text = score_of_token num)
    by (intros; eapply extract_score_leftmost; eassumption).
  assert (N : forall num,
             match Score.parse_float num with
             | Some x => not_negative x /\ x <> Score.unparsable
             | None => score_of_token num = Score.unparsable
             end).
  { intros num. unfold score_of_token.
    destruct (Score.parse_float num) as [x|] eqn:E; [|reflexivity].
    split; [exact (ScoreFacts.parse_float_nonneg num x E)|].
    intros ->. exact (ScoreFacts.parse_float_not_sentinel num E). }
  assert (S75 : score_of_token (Text.lit "7.50") = Score.Finite (Qmake 15 2))
    by (vm_compute; reflexivity).
  split.
  { intros text s. unfold Score._extract_score, Score.extract_score_chars.
    fold s. destruct (Score.search s) as [num|] eqn:E.
    - split; [|reflexivity].
      destruct (search_leftmost s num E) as [pre [kw [ws [post [H1 H2]]]]].
      exists pre, kw, ws, post. split; [exact H1|exact H2].
    - split; [apply ScoreFacts.search_none; exact E|reflexivity]. }
  split; [exact L|].
  split.
  { intros text Hno.
    unfold Score._extract_score, Score.extract_score_chars.
    apply ScoreFacts.search_none in Hno. rewrite Hno. reflexivity. }
  split; [exact N|].
  split; [apply ScoreFacts.parse_float_numeral|].
  split; [split; [reflexivity|apply ScoreFacts.digits_val_last]|].
  split; [apply ScoreFacts.round_binary64_integer|].
  split.
  { intros text. unfold Score._extract_score, Score.extract_score_chars.
    destruct (Score.search (list_ascii_of_string text)) as [num|];
      [|left; reflexivity].
    pose proof (N num) as Hn. unfold score_of_token in Hn.
    destruct (Score.parse_float num) as [[q|]|]; [| |left; reflexivity].
    - right. right. exists q. split; [reflexivity|apply Hn].
    - right. left. reflexivity. }
  split.
  { split; [exact S75|]. split; [reflexivity|].
    intros text pre kw ws post Hocc Hleft.
    rewrite (L _ _ _ _ _ _ Hocc Hleft). exact S75. }
  repeat split; vm_compute; reflexivity.
Qed.

(* ================================================================== *)
(** * What copy mode writes *)
(* ================================================================== *)

Module FragmentFacts.
Import Text Fragment.
Local Open Scope list_scope.

Lemma drop_while_last (p : ascii -> bool) (l : chars) (x : ascii) :
  p x = false -> exists l', drop_while p (l ++ [x]) = l' ++ [x].
Proof.
  intros Hx. induction l as [|c l [l' IH]]; simpl.
  - rewrite Hx. exists []. reflexivity.
  - destruct (p c); [exists l'; exact IH|].
    exists (c :: l). reflexivity.
Qed.

(** [strip] keeps a first character that is not a blank. *)
Lemma strip_keeps_head (x : ascii) (r : chars) :
  is_space x = false -> exists r', strip (x :: r) = x :: r'.
Proof.
  intros Hx. unfold strip. simpl drop_while at 2. rewrite Hx.
  change (rev (x :: r)) with (rev r ++ [x]).
  destruct (drop_while_last is_space (rev r) x Hx) as [l' ->].
  rewrite rev_app_distr. simpl. exists (rev l'). reflexivity.
Qed.

Lemma strip_starts_def (b : chars) : starts_def b -> starts_def (strip b).
Proof.
  intros [r ->]. destruct (strip_keeps_head "d" r eq_refl) as [r' H].
  exists r'. exact H.
Qed.

Lemma match_block_starts_def (s name block : chars) :
  match_block s = Some (name, block) -> starts_def block.
Proof.
  unfold match_block.
  destruct (strip_prefix (lit "def") s) as [s1|]; [|discriminate].
  destruct (span is_space s1) as [ws s2]. destruct ws; [discriminate|].
  destruct (span is_word s2) as [nm s3]. destruct nm; [discriminate|].
  destruct (span is_space s3) as [ws' s4].
  destruct (strip_prefix (lit "(") s4) as [s5|]; [|discriminate].
  destruct (span _ s5) as [args s6].
  destruct (strip_prefix (lit "):") s6) as [s7|]; [|discriminate].
  intros [= _ <-]. eexists. reflexivity.
Qed.

Lemma finditer_starts_def (s : chars) :
  forall bol skip,
    Forall (fun m => starts_def (snd m)) (finditer bol skip s).
Proof.
  induction s as [|c s IH]; intros bol skip; simpl; [constructor|].
  destruct skip as [|k]; [|apply IH].
  destruct bol; [|apply IH].
  destruct (match_block (c :: s)) as [[name block]|] eqn:E; [|apply IH].
  constructor; [|apply IH].
  apply (match_block_starts_def _ _ _ E).
Qed.

Lemma dict_set_starts_def (k v : chars) (d : dict) :
  starts_def v -> all_start_def d -> all_start_def (dict_set k v d).
Proof.
  intros Hv Hd. induction Hd as [|[k' v'] d Hx Hd IH]; simpl.
  - repeat constructor. exact Hv.
  - destruct (chars_eqb k k'); constructor; simpl; assumption.
Qed.

(** Every block of a partition starts with [def]. *)
Lemma func_blocks_start_def (src : chars) : all_start_def (_func_blocks src).
Proof.
  unfold _func_blocks.
  assert (H : forall ms d,
             Forall (fun m => starts_def (snd m)) ms -> all_start_def d ->
             all_start_def
               (fold_left (fun d m => dict_set (fst m) (strip (snd m)) d)
                          ms d)).
  { induction ms as [|m ms IH]; intros d Hms Hd; simpl; [exact Hd|].
    inversion Hms; subst. apply IH; [assumption|].
    apply dict_set_starts_def; [apply strip_starts_def|]; assumption. }
  apply H; [apply finditer_starts_def|constructor].
Qed.

Lemma join_nonempty (b : chars) (bs : list chars) :
  b <> [] -> join sep (b :: bs) <> [].
Proof.
  intros Hb. simpl. destruct bs; [exact Hb|].
  destruct b; [contradiction|discriminate].
Qed.

Lemma starts_def_nonempty (b : chars) : starts_def b -> b <> [].
Proof. intros [r ->]. discriminate. Qed.

Lemma changed_blocks_start_def (orig_map new_map : dict) :
  all_start_def new_map ->
  Forall starts_def (changed_blocks orig_map new_map).
Proof.
  intros H. unfold changed_blocks.
  induction H as [|e d He Hd IH]; simpl; [constructor|].
  destruct (differs orig_map (fst e) (snd e)); simpl; [|exact IH].
  constructor; [apply strip_starts_def, He|exact IH].
Qed.

Lemma inter_start_def (orig_map new_map : dict) :
  all_start_def new_map -> Forall starts_def (inter orig_map new_map).
Proof.
  intros H. unfold inter.
  induction H as [|e d He Hd IH]; simpl; [constructor|].
  destruct (dict_has (fst e) orig_map); simpl; [|exact IH].
  constructor; [apply strip_starts_def, He|exact IH].
Qed.

Lemma content_of_maps_cases (orig_map new_map : dict) :
  all_start_def new_map ->
  content_of_maps orig_map new_map
  = match changed_blocks orig_map new_map with
    | [] => fallback orig_map new_map
    | _ :: _ => join sep (changed_blocks orig_map new_map)
    end.
Proof.
  intros H. unfold content_of_maps, fallback.
  pose proof (changed_blocks_start_def orig_map new_map H) as Hc.
  destruct (changed_blocks orig_map new_map) as [|b bs] eqn:E.
  - simpl. destruct (inter orig_map new_map); [|reflexivity].
    destruct new_map as [|[k v] d]; reflexivity.
  - inversion Hc; subst.
    pose proof (join_nonempty b bs (starts_def_nonempty b H2)) as Hj.
    destruct (join sep (b :: bs)); [contradiction|reflexivity].
Qed.

Lemma content_of_maps_nonempty (orig_map new_map : dict) :
  all_start_def new_map ->
  new_map <> [] -> content_of_maps orig_map new_map <> [].
Proof.
  intros H Hne. rewrite (content_of_maps_cases _ _ H).
  pose proof (changed_blocks_start_def orig_map new_map H) as Hc.
  pose proof (inter_start_def orig_map new_map H) as Hi.
  destruct (changed_blocks orig_map new_map) as [|b bs].
  - unfold fallback. destruct (inter orig_map new_map) as [|b bs].
    + destruct new_map as [|[k v] d]; [contradiction|].
      inversion H; subst. apply starts_def_nonempty, strip_starts_def.
      assumption.
    + inversion Hi; subst. apply starts_def_nonempty. assumption.
  - inversion Hc; subst. apply join_nonempty, starts_def_nonempty.
    assumption.
Qed.

(** The changed blocks are the blocks of the new partition whose name the
    original partition has too, with a different normal form. *)
Lemma changed_blocks_spec (orig_map new_map : dict) (b : chars) :
  In b (changed_blocks orig_map new_map) <->
  exists name block o,
    In (name, block) new_map
    /\ dict_get name orig_map = Some o
    /\ _norm block <> _norm o
    /\ b = strip block.
Proof.
  unfold changed_blocks. rewrite in_map_iff. split.
  - intros [[name block] [<- Hin]]. apply filter_In in Hin as [Hin Hd].
    unfold differs in Hd. simpl in Hd.
    destruct (dict_get name orig_map) as [o|] eqn:Eo; [|discriminate].
    exists name, block, o. repeat split; try assumption.
    intros Heq. unfold chars_eqb in Hd.
    destruct (list_eq_dec ascii_dec (_norm block) (_norm o));
      [discriminate|contradiction].
  - intros [name [block [o [Hin [Ho [Hn ->]]]]]].
    exists (name, block). split; [reflexivity|].
    apply filter_In. split; [exact Hin|].
    unfold differs. simpl. rewrite Ho. unfold chars_eqb.
    destruct (list_eq_dec ascii_dec (_norm block) (_norm o));
      [contradiction|reflexivity].
Qed.

End FragmentFacts.

(* ================================================================== *)
(** * Invariants of a run from the initial state *)
(* ================================================================== *)

Section RunInvariants.

Variable w : World.

Lemma step_target_dir (c : Config) :
  target_dir (state (step w c)) = target_dir (state c).
Proof.
  unfold step. destruct (at_node c) as [n|]; [|reflexivity].
  destruct (run_node w n (clock c) (state c)) as [u e].
  destruct (raised e); reflexivity.
Qed.

Lemma step_output_dir (c : Config) :
  output_dir (state (step w c)) = output_dir (state c).
Proof.
  unfold step. destruct (at_node c) as [n|]; [|reflexivity].
  destruct (run_node w n (clock c) (state c)) as [u e].
  destruct (raised e); reflexivity.
Qed.

(** Only the file transition writes the current path. *)
Lemma step_path (c : Config) :
  current_file_path (state (step w c)) =
  match at_node c with
  | Some next_file_processor =>
      nth_error (files (state c)) (current_file_index (state c) + 1)
  | _ => current_file_path (state c)
  end.
Proof.
  unfold step. destruct (at_node c) as [[]|]; try reflexivity;
    simpl; node_cases; try reflexivity.
  symmetry. apply nth_error_None. apply Nat.ltb_ge. assumption.
Qed.

Variables (dir : string) (fs : list string) (max_iter cooldown : nat).
Variables (no_llm : bool) (om : OutputMode) (od : string).

Let c0 : Config :=
  start (initial_state dir fs max_iter cooldown no_llm om od).

Lemma run_constants (n : nat) :
  files (state (steps w n c0)) = fs
  /\ target_dir (state (steps w n c0)) = dir
  /\ output_dir (state (steps w n c0)) = od
  /\ output_mode (state (steps w n c0)) = om
  /\ disable_llm (state (steps w n c0)) = no_llm
  /\ max_iterations (state (steps w n c0)) = max_iter.
Proof.
  induction n as [|n IH]; [repeat split|].
  rewrite steps_succ, step_files, step_target_dir, step_output_dir,
    step_output_mode, step_disable_llm, step_max_iterations.
  exact IH.
Qed.

Lemma run_path (n : nat) :
  current_file_path (state (steps w n c0))
  = nth_error fs (current_file_index (state (steps w n c0))).
Proof.
  induction n as [|n IH]; [reflexivity|].
  destruct (run_constants n) as [Hf _].
  rewrite steps_succ, step_path, step_index, Hf.
  destruct (at_node (steps w n c0)) as [[]|]; try exact IH; reflexivity.
Qed.

Lemma run_current_file (n : nat) :
  match at_node (steps w n c0) with
  | Some manager | None => True
  | Some _ =>
      exists f, current_file_path (state (steps w n c0)) = Some f /\ In f fs
  end.
Proof.
  pose proof (steps_well_formed w n c0
                (initial_well_formed dir fs max_iter cooldown no_llm om od))
    as Hwf.
  unfold well_formed in Hwf. cbv zeta in Hwf.
  destruct (run_constants n) as [Hf _]. rewrite Hf in Hwf.
  pose proof (run_path n) as Hp.
  assert (H : current_file_index (state (steps w n c0)) < length fs ->
              exists f, current_file_path (state (steps w n c0)) = Some f
                        /\ In f fs).
  { intros Hlt. rewrite Hp.
    destruct (nth_error fs _) as [f|] eqn:E.
    - exists f. split; [reflexivity|]. eapply nth_error_In, E.
    - apply nth_error_None in E. lia. }
  destruct (at_node (steps w n c0)) as [[]|]; try exact I; apply H; tauto.
Qed.



End RunInvariants.

(** X1. At every point of a run from the initial state the current path
    is the entry of [files] at the cursor ([None] once the cursor is past
    the last file), and whenever the auditor, the fixer, the judge or the
    file transition is about to run it is one of the files. *)
Theorem path_follows_cursor :
  forall w dir fs max_iter cooldown no_llm om od n,
    let c := steps w n (start (initial_state dir fs max_iter cooldown no_llm
                                             om od)) in
    files (state c) = fs
    /\ current_file_path (state c)
       = nth_error fs (current_file_index (state c))
    /\ match at_node c with
       | Some manager | None => True
       | Some _ => exists f, current_file_path (state c) = Some f /\ In f fs
       end.
Proof.
  intros. split; [apply run_constants|].
  split; [apply run_path|apply run_current_file].
Qed.


(* ================================================================== *)
(** * Runs in which the judge always advances *)
(* ================================================================== *)

Section Advancing.

Variable w : World.
Variable P : Config -> Prop.
Hypothesis P_step : forall c, P c -> P (step w c).
Hypothesis P_fixer :
  forall c, P c -> at_node c = Some fixer -> at_node (step w c) = Some judge.
Hypothesis P_judge :
  forall c, P c -> at_node c = Some judge ->
            at_node (step w c) = Some next_file_processor.

Lemma advancing_never_retries (c : Config) : P c -> is_retry w c = false.
Proof.
  intros H. unfold is_retry.
  destruct (at_node c) as [[]|] eqn:E; try reflexivity.
  rewrite (P_judge c H E). reflexivity.
Qed.

Lemma advancing_steps (n : nat) (c : Config) : P c -> P (steps w n c).
Proof.
  intros H. induction n as [|n IH]; [exact H|].
  rewrite steps_succ. apply P_step, IH.
Qed.

Lemma advancing_cycle (c : Config) :
  P c ->
  at_node c = Some manager ->
  current_file_index (state c) < length (files (state c)) ->
  executed w 5 c = one_cycle
  /\ at_node (steps w 5 c) = Some manager
  /\ current_file_index (state (steps w 5 c)) = current_file_index (state c) + 1
  /\ files (state (steps w 5 c)) = files (state c).
Proof.
  intros HP Em Hlt.
  pose (c1 := step w c). pose (c2 := step w c1). pose (c3 := step w c2).
  pose (c4 := step w c3). pose (c5 := step w c4).
  assert (N1 : at_node c1 = Some auditor).
  { unfold c1. rewrite step_node, Em.
    apply Nat.ltb_lt in Hlt. rewrite Hlt. reflexivity. }
  assert (N2 : at_node c2 = Some fixer)
    by (unfold c2; rewrite step_node, N1; reflexivity).
  assert (N3 : at_node c3 = Some judge)
    by (apply P_fixer; [apply (advancing_steps 2 c HP)|exact N2]).
  assert (P3 : P c3) by (apply (advancing_steps 3 c HP)).
  assert (N4 : at_node c4 = Some next_file_processor)
    by (apply P_judge; assumption).
  assert (N5 : at_node c5 = Some manager)
    by (unfold c5; rewrite step_node, N4; reflexivity).
  change (steps w 5 c) with c5.
  split.
  { unfold executed, trace.
    change (step w c) with c1. change (step w c1) with c2.
    change (step w c2) with c3. change (step w c3) with c4.
    cbn [flat_map]. rewrite Em, N1, N2, N3, N4. reflexivity. }
  split; [exact N5|]. split.
  { unfold c5. rewrite step_index, N4.
    unfold c4. rewrite step_index, N3.
    unfold c3. rewrite step_index, N2.
    unfold c2. rewrite step_index, N1.
    unfold c1. rewrite step_index, Em. reflexivity. }
  unfold c5, c4, c3, c2, c1. rewrite !step_files. reflexivity.
Qed.

Lemma advancing_run (k : nat) (c : Config) :
  P c ->
  at_node c = Some manager ->
  current_file_index (state c) + k = length (files (state c)) ->
  executed w (5 * k + 1) c = (cycles k ++ [manager])%list
  /\ at_node (steps w (5 * k + 1) c) = None.
Proof.
  revert c. induction k as [|k IH]; intros c HP Em Hk.
  - change (5 * 0 + 1) with 1. unfold executed, trace. cbn [flat_map steps].
    rewrite Em. split; [reflexivity|].
    rewrite step_node, Em.
    assert (H : (current_file_index (state c) <? length (files (state c)))
                = false) by (apply Nat.ltb_ge; lia).
    rewrite H. reflexivity.
  - replace (5 * S k + 1) with (5 + (5 * k + 1)) by lia.
    destruct (advancing_cycle c HP Em ltac:(lia)) as [E [N [I F]]].
    rewrite executed_add, steps_add, E.
    destruct (IH (steps w 5 c) (advancing_steps 5 c HP) N
                 ltac:(rewrite I, F; lia)) as [E' N'].
    rewrite E', N'. split; reflexivity.
Qed.

End Advancing.








(* ================================================================== *)
(** * Runs whose tests always fail: the bounds are reached *)
(* ================================================================== *)

Lemma executed_end (w : World) (n : nat) (c : Config) :
  at_node c = None -> executed w n c = [].
Proof.
  intros H. revert c H. induction n as [|n IH]; intros c H; [reflexivity|].
  rewrite executed_succ, H. simpl. apply IH. unfold step. rewrite H. exact H.
Qed.

Lemma executed_length (w : World) (n : nat) (c : Config) :
  length (executed w n c) <= n.
Proof.
  revert c. induction n as [|n IH]; intros c; [apply Nat.le_refl|].
  rewrite executed_succ, length_app. specialize (IH (step w c)).
  destruct (at_node c); simpl; lia.
Qed.

(** Once [END] is reached no more node runs. *)
Lemma executed_after_end (w : World) (m r : nat) (c : Config) :
  at_node (steps w m c) = None -> length (executed w (m + r) c) <= m.
Proof.
  intros H. rewrite executed_add, length_app, (executed_end w r _ H).
  simpl. pose proof (executed_length w m c). lia.
Qed.

Lemma count_fix_judge (k : nat) :
  count_nodes is_stage (fix_judge k) = 2 * k
  /\ count_nodes (Node_eqb fixer) (fix_judge k) = k
  /\ length (fix_judge k) = 2 * k.
Proof.
  unfold count_nodes. induction k as [|k [IH1 [IH2 IH3]]]; [repeat split|].
  simpl. rewrite IH1, IH2, IH3. repeat split; lia.
Qed.

Lemma count_files_nodes (n k : nat) :
  count_nodes is_stage (files_nodes n k) = n * (2 * k + 1)
  /\ count_nodes (Node_eqb fixer) (files_nodes n k) = n * k
  /\ length (files_nodes n k) = n * (2 * k + 3).
Proof.
  destruct (count_fix_judge k) as [F1 [F2 F3]].
  unfold count_nodes in *.
  induction n as [|n [IH1 [IH2 IH3]]]; [repeat split|].
  cbn [files_nodes]. unfold file_nodes.
  rewrite !filter_app, !length_app. cbn [filter is_stage Node_eqb length].
  rewrite !filter_app, !length_app, IH1, IH2, IH3, F1, F2, F3.
  cbn [filter is_stage Node_eqb length app]. repeat split; lia.
Qed.

Section FailingRuns.

Variable w : World.
Hypothesis model_answers :
  forall t p, failed (_safe_llm_invoke (llm_invoke w t p)) = false.
Hypothesis tests_fail :
  forall t, success (run_pytest (pytest_process w t)) = false.

Lemma failing_invariant_step (c : Config) :
  failing_invariant c -> failing_invariant (step w c).
Proof.
  intros [H1 [H2 H3]]. unfold failing_invariant.
  rewrite step_disable_llm, step_output_mode.
  repeat split; try assumption.
  apply step_status_not_failure; assumption.
Qed.

Lemma failing_invariant_steps (n : nat) (c : Config) :
  failing_invariant c -> failing_invariant (steps w n c).
Proof.
  intros H. induction n as [|n IH]; [exact H|].
  rewrite steps_succ. apply failing_invariant_step, IH.
Qed.

Lemma failing_judge (c : Config) :
  failing_invariant c ->
  at_node c = Some judge ->
  at_node (step w c) =
  if max_iterations (state c) <=? iteration_count (state c) + 1
  then Some next_file_processor else Some fixer.
Proof.
  intros [H1 [H2 H3]] Ej.
  exact (failing_judge_step w model_answers tests_fail c H1 H2 H3 0 Ej).
Qed.

Lemma failing_fixer (c : Config) :
  failing_invariant c -> at_node c = Some fixer ->
  at_node (step w c) = Some judge.
Proof.
  intros [_ [H _]] Ef. apply step_node_fixer; [left; exact H|exact Ef].
Qed.

(** From the fixer, with [j] cycles left before the cap. *)
Lemma failing_cycles (j : nat) :
  forall c,
    failing_invariant c ->
    at_node c = Some fixer ->
    iteration_count (state c) + S j = cycles_cap (state c) ->
    executed w (2 * S j) c = fix_judge (S j)
    /\ at_node (steps w (2 * S j) c) = Some next_file_processor
    /\ current_file_index (state (steps w (2 * S j) c))
       = current_file_index (state c)
    /\ files (state (steps w (2 * S j) c)) = files (state c)
    /\ max_iterations (state (steps w (2 * S j) c))
       = max_iterations (state c).
Proof.
  induction j as [|j IH]; intros c HF Ef Hj.
  - pose (c1 := step w c). pose (c2 := step w c1).
    assert (N1 : at_node c1 = Some judge)
      by (apply failing_fixer; assumption).
    assert (K1 : iteration_count (state c1) = iteration_count (state c))
      by (unfold c1; rewrite step_iteration, Ef; reflexivity).
    assert (M1 : max_iterations (state c1) = max_iterations (state c))
      by (apply step_max_iterations).
    assert (N2 : at_node c2 = Some next_file_processor).
    { unfold c2. rewrite (failing_judge c1 (failing_invariant_step c HF) N1).
      rewrite M1, K1.
      assert (H : (max_iterations (state c)
                   <=? iteration_count (state c) + 1) = true)
        by (apply Nat.leb_le; unfold cycles_cap in Hj; lia).
      rewrite H. reflexivity. }
    change (2 * 1) with 2. change (steps w 2 c) with c2. split.
    { unfold executed, trace. change (step w c) with c1.
      cbn [flat_map]. rewrite Ef, N1. reflexivity. }
    split; [exact N2|]. split.
    { unfold c2. rewrite step_index, N1. unfold c1.
      rewrite step_index, Ef. reflexivity. }
    split.
    + unfold c2, c1. rewrite !step_files. reflexivity.
    + unfold c2, c1. rewrite !step_max_iterations. reflexivity.
  - pose (c1 := step w c). pose (c2 := step w c1).
    assert (N1 : at_node c1 = Some judge)
      by (apply failing_fixer; assumption).
    assert (K1 : iteration_count (state c1) = iteration_count (state c))
      by (unfold c1; rewrite step_iteration, Ef; reflexivity).
    assert (M1 : max_iterations (state c1) = max_iterations (state c))
      by (apply step_max_iterations).
    assert (M2 : max_iterations (state c2) = max_iterations (state c))
      by (unfold c2; rewrite step_max_iterations; exact M1).
    assert (N2 : at_node c2 = Some fixer).
    { unfold c2. rewrite (failing_judge c1 (failing_invariant_step c HF) N1).
      rewrite M1, K1.
      assert (H : (max_iterations (state c)
                   <=? iteration_count (state c) + 1) = false)
        by (apply Nat.leb_gt; unfold cycles_cap in Hj; lia).
      rewrite H. reflexivity. }
    assert (K2 : iteration_count (state c2) = iteration_count (state c) + 1)
      by (unfold c2; rewrite step_iteration, N1, K1; reflexivity).
    assert (F2 : failing_invariant c2)
      by (apply (failing_invariant_steps 2 c HF)).
    assert (Hj2 : iteration_count (state c2) + S j = cycles_cap (state c2))
      by (unfold cycles_cap in *; rewrite K2, M2; lia).
    destruct (IH c2 F2 N2 Hj2) as [E [N [I [F M]]]].
    replace (2 * S (S j)) with (2 + 2 * S j) by lia.
    rewrite executed_add, steps_add. change (steps w 2 c) with c2.
    rewrite E, N, I, F, M. split.
    { unfold executed, trace. change (step w c) with c1.
      cbn [flat_map]. rewrite Ef, N1. reflexivity. }
    split; [reflexivity|]. split.
    { unfold c2. rewrite step_index, N1. unfold c1.
      rewrite step_index, Ef. reflexivity. }
    split.
    + unfold c2, c1. rewrite !step_files. reflexivity.
    + exact M2.
Qed.

(** One file: the auditor, then as many Fix/Judge cycles as the cap. *)
Lemma failing_file (c : Config) :
  failing_invariant c ->
  at_node c = Some manager ->
  current_file_index (state c) < length (files (state c)) ->
  iteration_count (state c) = 0 ->
  let k := cycles_cap (state c) in
  let c' := steps w (2 * k + 3) c in
  executed w (2 * k + 3) c = file_nodes k
  /\ at_node c' = Some manager
  /\ current_file_index (state c') = current_file_index (state c) + 1
  /\ iteration_count (state c') = 0
  /\ files (state c') = files (state c)
  /\ max_iterations (state c') = max_iterations (state c).
Proof.
  intros HF Em Hlt Hk k c'.
  pose (c1 := step w c). pose (c2 := step w c1).
  assert (N1 : at_node c1 = Some auditor).
  { unfold c1. rewrite step_node, Em.
    apply Nat.ltb_lt in Hlt. rewrite Hlt. reflexivity. }
  assert (N2 : at_node c2 = Some fixer)
    by (unfold c2; rewrite step_node, N1; reflexivity).
  assert (K2 : iteration_count (state c2) = 0).
  { unfold c2. rewrite step_iteration, N1. unfold c1.
    rewrite step_iteration, Em. exact Hk. }
  assert (M2 : max_iterations (state c2) = max_iterations (state c))
    by (unfold c2, c1; rewrite !step_max_iterations; reflexivity).
  assert (I2 : current_file_index (state c2) = current_file_index (state c)).
  { unfold c2. rewrite step_index, N1. unfold c1.
    rewrite step_index, Em. reflexivity. }
  assert (F2 : files (state c2) = files (state c))
    by (unfold c2, c1; rewrite !step_files; reflexivity).
  assert (Hk1 : 1 <= k) by (unfold k, cycles_cap; lia).
  destruct k as [|j] eqn:Ek; [lia|].
  assert (Hj : iteration_count (state c2) + S j = cycles_cap (state c2)).
  { rewrite K2. unfold cycles_cap. rewrite M2.
    fold (cycles_cap (state c)). rewrite <- Ek. reflexivity. }
  destruct (failing_cycles j c2 (failing_invariant_steps 2 c HF) N2 Hj)
    as [E [N [I [F M]]]].
  unfold c'. replace (2 * S j + 3) with (2 + (2 * S j + 1)) by lia.
  rewrite executed_add, !steps_add. change (steps w 2 c) with c2.
  rewrite executed_add, E.
  set (c3 := steps w (2 * S j) c2) in *.
  assert (N4 : at_node (step w c3) = Some manager)
    by (rewrite step_node, N; reflexivity).
  split.
  { unfold file_nodes. unfold executed at 1. unfold trace.
    change (step w c) with c1. cbn [flat_map]. rewrite Em, N1.
    unfold executed, trace. cbn [flat_map]. rewrite N. reflexivity. }
  change (steps w 1 c3) with (step w c3).
  split; [exact N4|]. split; [rewrite step_index, N, I, I2; reflexivity|].
  split; [rewrite step_iteration, N; reflexivity|].
  split; [rewrite step_files, F, F2; reflexivity|].
  rewrite step_max_iterations, M, M2. reflexivity.
Qed.

(** All the files that are left. *)
Lemma failing_run (n : nat) :
  forall c,
    failing_invariant c ->
    at_node c = Some manager ->
    current_file_index (state c) + n = length (files (state c)) ->
    iteration_count (state c) = 0 ->
    let k := cycles_cap (state c) in
    executed w (n * (2 * k + 3) + 1) c
    = (files_nodes n k ++ [manager])%list
    /\ at_node (steps w (n * (2 * k + 3) + 1) c) = None.
Proof.
  induction n as [|n IH]; intros c HF Em Hn Hk k.
  - change (0 * (2 * k + 3) + 1) with 1.
    unfold executed, trace. cbn [flat_map steps].
    rewrite Em. split; [reflexivity|].
    rewrite step_node, Em.
    assert (H : (current_file_index (state c) <? length (files (state c)))
                = false) by (apply Nat.ltb_ge; lia).
    rewrite H. reflexivity.
  - destruct (failing_file c HF Em ltac:(lia) Hk) as [E [N [I [K [F M]]]]].
    fold k in E, N, I, K, F, M.
    replace (S n * (2 * k + 3) + 1)
      with ((2 * k + 3) + (n * (2 * k + 3) + 1)) by lia.
    rewrite executed_add, E.
    rewrite (steps_add w (2 * k + 3) (n * (2 * k + 3) + 1) c).
    set (c' := steps w (2 * k + 3) c) in *.
    assert (Hk' : cycles_cap (state c') = k)
      by (unfold k, cycles_cap; rewrite M; reflexivity).
    destruct (IH c' (failing_invariant_steps _ c HF) N
                 ltac:(rewrite I, F; lia) K) as [E' N'].
    rewrite Hk' in E', N'. rewrite E', N'.
    split; [|reflexivity].
    cbn [files_nodes]. rewrite <- app_assoc. reflexivity.
Qed.

End FailingRuns.

(** The exact shape and length of a run whose tests always fail. *)
Lemma failing_run_counts (w : World) (dir : string) (fs : list string)
    (max_iter cooldown : nat) (od : string) :
  (forall t p, failed (_safe_llm_invoke (llm_invoke w t p)) = false) ->
  (forall t, success (run_pytest (pytest_process w t)) = false) ->
  let s0 := initial_state dir fs max_iter cooldown false overwrite od in
  let k := Nat.max 1 max_iter in
  let total := length fs * (2 * k + 3) + 1 in
  executed w total (start s0) = (files_nodes (length fs) k ++ [manager])%list
  /\ count_nodes is_stage (executed w total (start s0))
     = length fs * (2 * k + 1)
  /\ count_nodes (Node_eqb fixer) (executed w total (start s0))
     = length fs * k
  /\ (forall limit, invoke w limit s0 = None <-> limit <= total).
Proof.
  intros Hllm Htests s0 k total.
  assert (HF : failing_invariant (start s0))
    by (repeat split; discriminate).
  destruct (failing_run w Hllm Htests (length fs) (start s0) HF
              eq_refl eq_refl eq_refl) as [E N].
  change (cycles_cap (state (start s0))) with k in E, N.
  fold total in E, N.
  destruct (count_files_nodes (length fs) k) as [C1 [C2 C3]].
  split; [exact E|]. rewrite E. unfold count_nodes in *.
  rewrite !filter_app, !length_app, C1, C2. simpl.
  split; [lia|]. split; [lia|].
  intros limit. unfold invoke. split.
  - intros H. destruct (Nat.le_gt_cases limit total) as [Hle|Hgt];
      [exact Hle|].
    replace (limit - 1) with (total + (limit - 1 - total)) in H by lia.
    rewrite steps_add, steps_end in H by exact N.
    rewrite N in H.
    rewrite (steps_not_aborted w total (start s0)) in H;
      [discriminate|left; reflexivity|reflexivity].
  - intros Hle.
    destruct (at_node (steps w (limit - 1) (start s0))) eqn:Eend;
      [reflexivity|].
    pose proof (executed_after_end w (limit - 1) (total - (limit - 1))
                  (start s0) Eend) as Hlen.
    replace (limit - 1 + (total - (limit - 1))) with total in Hlen
      by (unfold total; lia).
    rewrite E, length_app, C3 in Hlen. simpl in Hlen. unfold total in Hle.
    lia.
Qed.

(** X4. With overwrite mode, a model that always answers and tests that
    fail at every judge, each file takes exactly [max(1, max_iterations)]
    Fix/Judge cycles: the run is, file after file, manager, auditor, the
    cycles and the file transition, then the manager that ends it.  It
    runs exactly [len(files) * (2 * max(1, max_iterations) + 1)] stages
    and exactly [len(files) * (2 * max(1, max_iterations) + 3) + 1] nodes,
    and [app.invoke] raises exactly when the recursion limit is not above
    that number of nodes. *)
Theorem failing_run_exact (w : World) (dir : string) (fs : list string)
    (max_iter cooldown : nat) (od : string) :
  (forall t p, failed (_safe_llm_invoke (llm_invoke w t p)) = false) ->
  (forall t, success (run_pytest (pytest_process w t)) = false) ->
  let s0 := initial_state dir fs max_iter cooldown false overwrite od in
  let k := Nat.max 1 max_iter in
  let total := length fs * (2 * k + 3) + 1 in
  executed w total (start s0) = (files_nodes (length fs) k ++ [manager])%list
  /\ count_nodes is_stage (executed w total (start s0))
     = length fs * (2 * k + 1)
  /\ count_nodes (Node_eqb fixer) (executed w total (start s0))
     = length fs * k
  /\ (forall limit, invoke w limit s0 = None <-> limit <= total)
  /\ (exists final,
         invoke w (total + 1) s0 = Some final
         /\ current_file_index final = length fs).
Proof.
  intros Hllm Htests s0 k total.
  destruct (failing_run_counts w dir fs max_iter cooldown od Hllm Htests)
    as [H1 [H2 [H3 H4]]].
  split; [exact H1|]. split; [exact H2|]. split; [exact H3|].
  split; [exact H4|].
  destruct (invoke_completes w dir fs max_iter cooldown false overwrite od
              (total + 1)) as [final [Hf [Hi _]]].
  - left. reflexivity.
  - unfold total, k. lia.
  - exists final. split; [exact Hf|exact Hi].
Qed.

Lemma failing_run_exact_witness :
  let s0 := Scenario.one_file 10 false overwrite in
  executed Scenario.failing_tests 24 (start s0)
  = (files_nodes 1 10 ++ [manager])%list
  /\ count_nodes is_stage (executed Scenario.failing_tests 24 (start s0)) = 21
  /\ count_nodes (Node_eqb fixer)
       (executed Scenario.failing_tests 24 (start s0)) = 10
  /\ (forall limit,
        invoke Scenario.failing_tests limit s0 = None <-> limit <= 24)
  /\ (exists final,
         invoke Scenario.failing_tests 25 s0 = Some final
         /\ current_file_index final = 1).
Proof.
  exact (failing_run_exact Scenario.failing_tests "sandbox" ["sandbox/a.py"]
           10 0 "refactored" (fun _ _ => eq_refl) (fun _ => eq_refl)).
Defined.

(* ================================================================== *)
(** * The entry point *)
(* ================================================================== *)




(** What [main] gives to [app.invoke]. *)
Lemma main_invoke (args : Main.Args) (present : bool) (made : Main.Made)
    (listed : list string) (s0 : SwarmState) :
  Main.main args present made listed = Main.Invoke s0 ->
  s0 = initial_state (Main.arg_target_dir args)
                     (Main.capped listed (Main.arg_max_files args)) 10
                     (Main.arg_cooldown args) (Main.arg_disable_llm args)
                     (Main.arg_output_mode args) (Main.arg_output_dir args)
  /\ Main.target_exists args present made = true
  /\ Main.capped listed (Main.arg_max_files args) <> [].
Proof.
  unfold Main.main. intros H.
  assert (H' : (if negb (Main.target_exists args present made)
                then Main.Exit 1
                else
                  match Main.capped listed (Main.arg_max_files args) with
                  | [] => Main.Exit 0
                  | _ :: _ =>
                      Main.Invoke
                        (initial_state (Main.arg_target_dir args)
                           (Main.capped listed (Main.arg_max_files args)) 10
                           (Main.arg_cooldown args)
                           (Main.arg_disable_llm args)
                           (Main.arg_output_mode args)
                           (Main.arg_output_dir args))
                  end) = Main.Invoke s0).
  { destruct (Main.arg_output_mode args); [exact H|].
    destruct made; [discriminate H|exact H|exact H]. }
  clear H. destruct (Main.target_exists args present made);
    [|discriminate H'].
  simpl in H'.
  destruct (Main.capped listed (Main.arg_max_files args)) as [|f rest];
    [discriminate H'|].
  injection H' as <-. repeat split. discriminate.
Qed.




(** X7. The limit is reached: with 9 files or more after the cap,
    overwrite mode, a model that always answers and tests that fail at
    every judge, [main]'s run does not reach [END] within its recursion
    limit of 200 nodes. *)
Theorem main_run_exceeds_limit (w : World) (args : Main.Args)
    (present : bool) (made : Main.Made) (listed : list string)
    (s0 : SwarmState) :
  (forall t p, failed (_safe_llm_invoke (llm_invoke w t p)) = false) ->
  (forall t, success (run_pytest (pytest_process w t)) = false) ->
  Main.arg_disable_llm args = false ->
  Main.arg_output_mode args = overwrite ->
  Main.main args present made listed = Main.Invoke s0 ->
  9 <= length (files s0) ->
  invoke w Main.recursion_limit s0 = None.
Proof.
  intros Hllm Htests Hd Hm Hmain.
  destruct (main_invoke args present made listed s0 Hmain) as [-> _].
  rewrite Hd, Hm. intros Hlen. cbn [files initial_state] in Hlen.
  apply (failing_run_counts w _ _ 10 _ _ Hllm Htests).
  unfold Main.recursion_limit. change (2 * Nat.max 1 10 + 3) with 23. lia.
Qed.

Lemma main_run_exceeds_limit_witness :
  invoke Scenario.failing_tests Main.recursion_limit
         (initial_state "sandbox" nine_files 10 0 false overwrite
                        "refactored")
  = None.
Proof.
  apply (main_run_exceeds_limit Scenario.failing_tests
           {| Main.arg_target_dir := "sandbox";
              Main.arg_cooldown := 0;
              Main.arg_disable_llm := false;
              Main.arg_output_mode := overwrite;
              Main.arg_output_dir := "refactored";
              Main.arg_model := "llama-3.1-8b-instant";
              Main.arg_max_files := 0 |}
           true Main.MadeElsewhere
           nine_files _ (fun _ _ => eq_refl) (fun _ => eq_refl)
           eq_refl eq_refl eq_refl).
  simpl. lia.
Defined.

(* ================================================================== *)
(** * The code taken from the answer of the model *)
(* ================================================================== *)

Module CodeFacts.
Import Text.
Local Open Scope list_scope.

(** [find_lit] returns the first occurrence. *)
Lemma find_lit_some (l s pre rest : chars) :
  find_lit l s = Some (pre, rest) ->
  s = pre ++ l ++ rest
  /\ forall pre' rest', s = pre' ++ l ++ rest' -> length pre <= length pre'.
Proof.
  revert pre rest. induction s as [|c s IH]; intros pre rest; simpl.
  - destruct (strip_prefix l []) as [r|] eqn:E; [|discriminate].
    intros [= <- <-]. apply ScoreFacts.strip_prefix_spec in E.
    split; [exact E|]. intros; simpl; lia.
  - destruct (strip_prefix l (c :: s)) as [r|] eqn:E.
    + intros [= <- <-]. apply ScoreFacts.strip_prefix_spec in E.
      split; [exact E|]. intros; simpl; lia.
    + destruct (find_lit l s) as [[p r]|] eqn:F; [|discriminate].
      intros [= <- <-]. destruct (IH p r eq_refl) as [-> Hmin].
      split; [reflexivity|]. intros pre' rest' H.
      destruct pre' as [|c' pre'].
      * assert (strip_prefix l (c :: p ++ l ++ r) = Some rest')
          by (apply ScoreFacts.strip_prefix_spec; exact H).
        congruence.
      * injection H as _ H. specialize (Hmin _ _ H). simpl. lia.
Qed.

Lemma find_lit_none (l s : chars) :
  find_lit l s = None -> forall pre rest, s <> pre ++ l ++ rest.
Proof.
  induction s as [|c s IH]; simpl.
  - destruct (strip_prefix l []) as [r|] eqn:E; [discriminate|].
    intros _ pre rest H. destruct pre as [|c' pre]; [|discriminate].
    assert (strip_prefix l [] = Some rest)
      by (apply ScoreFacts.strip_prefix_spec; exact H).
    congruence.
  - destruct (strip_prefix l (c :: s)) as [r|] eqn:E; [discriminate|].
    destruct (find_lit l s) as [[p r]|] eqn:F; [discriminate|].
    intros _ pre rest H. destruct pre as [|c' pre].
    + assert (strip_prefix l (c :: s) = Some rest)
        by (apply ScoreFacts.strip_prefix_spec; exact H).
      congruence.
    + injection H as _ H. exact (IH eq_refl _ _ H).
Qed.

(** Of two ends of the same text, the shorter is an end of the longer. *)
Lemma suffix_of_suffix (a b c d : chars) :
  a ++ b = c ++ d -> length a <= length c -> exists x, b = x ++ d.
Proof.
  revert c. induction a as [|x a IH]; intros c H Hlen.
  - exists c. exact H.
  - destruct c as [|y c]; [simpl in Hlen; lia|].
    injection H as _ H. apply (IH c H). simpl in Hlen. lia.
Qed.

(** The first character of [l] is not in [pre]: the first occurrence of
    [l] in [pre ++ l ++ rest] is the one after [pre]. *)
Lemma find_lit_after (a : ascii) (l pre rest : chars) :
  forallb (fun c => negb (Ascii.eqb a c)) pre = true ->
  find_lit (a :: l) (pre ++ (a :: l) ++ rest) = Some (pre, rest).
Proof.
  intros H. induction pre as [|c pre IH].
  - change ([] ++ (a :: l) ++ rest) with (a :: (l ++ rest)).
    assert (E : strip_prefix (a :: l) (a :: (l ++ rest)) = Some rest)
      by (apply ScoreFacts.strip_prefix_spec; reflexivity).
    cbn [find_lit]. rewrite E. reflexivity.
  - simpl in H. apply andb_true_iff in H as [Hc H].
    change ((c :: pre) ++ (a :: l) ++ rest)
      with (c :: (pre ++ (a :: l) ++ rest)).
    cbn [find_lit]. unfold strip_prefix at 1. cbn [strip_prefix_with].
    apply negb_true_iff in Hc. rewrite Hc. rewrite (IH H). reflexivity.
Qed.

Lemma chars_of_append (a b : string) :
  list_ascii_of_string (a ++ b)%string
  = list_ascii_of_string a ++ list_ascii_of_string b.
Proof. induction a as [|c a IH]; simpl; [|rewrite IH]; reflexivity. Qed.

End CodeFacts.

(** X8. [extract_code] returns the whole answer when it has no block that
    opens with the python fence and closes with a fence.  Otherwise it
    returns the text between the first opening fence and the first
    closing fence after it; that text has no fence inside. *)
Theorem extract_code_spec (response : string) :
  let r := Text.lit response in
  let opener := Text.lit fence_open in
  let closer := Text.lit fence_close in
  (extract_code response = response
   /\ forall pre code post,
        r <> (pre ++ opener ++ code ++ closer ++ post)%list)
  \/ (exists pre code post,
         r = (pre ++ opener ++ code ++ closer ++ post)%list
         /\ extract_code response = string_of_list_ascii code
         /\ (forall pre' rest',
                r = (pre' ++ opener ++ rest')%list ->
                length pre <= length pre')
         /\ (forall a b, code <> (a ++ closer ++ b)%list)).
Proof.
  intros r opener closer. unfold extract_code.
  fold r opener closer.
  destruct (Text.find_lit opener r) as [[pre after]|] eqn:E1.
  - destruct (CodeFacts.find_lit_some _ _ _ _ E1) as [Hr Hmin].
    destruct (Text.find_lit closer after) as [[code post]|] eqn:E2.
    + destruct (CodeFacts.find_lit_some _ _ _ _ E2) as [Ha Hmin2].
      right. exists pre, code, post.
      split; [rewrite Hr, Ha; reflexivity|]. split; [reflexivity|].
      split; [exact Hmin|].
      intros a b Hc. subst code.
      specialize (Hmin2 a (b ++ closer ++ post)%list).
      rewrite Ha in Hmin2. rewrite <- !app_assoc in Hmin2.
      specialize (Hmin2 eq_refl). rewrite !length_app in Hmin2.
      unfold closer in Hmin2. simpl in Hmin2. lia.
    + left. split; [reflexivity|]. intros pre' code post H.
      pose proof (Hmin pre' (code ++ closer ++ post)%list H) as Hle.
      rewrite Hr in H.
      assert (H' : ((pre ++ opener) ++ after
                    = (pre' ++ opener) ++ code ++ closer ++ post)%list)
        by (rewrite <- !app_assoc; exact H).
      apply CodeFacts.suffix_of_suffix in H'
        as [x Hx]; [|rewrite !length_app; lia].
      apply (CodeFacts.find_lit_none _ _ E2 (x ++ code)%list post).
      rewrite Hx, <- app_assoc. reflexivity.
  - left. split; [reflexivity|]. intros pre code post H.
    apply (CodeFacts.find_lit_none _ _ E1 pre (code ++ closer ++ post)%list).
    exact H.
Qed.

(** X9. Round trip: an answer that wraps a code without backquotes in a
    python fence, after a text without backquotes and before anything,
    gives back exactly that code. *)
Theorem extract_code_fenced (pre code post : string) :
  no_backtick pre = true ->
  no_backtick code = true ->
  extract_code (pre ++ fence_open ++ code ++ fence_close ++ post) = code.
Proof.
  unfold no_backtick. intros Hpre Hcode. unfold extract_code.
  unfold Text.lit. rewrite !CodeFacts.chars_of_append.
  change (list_ascii_of_string fence_open)
    with ("`"%char :: Text.lit ("``python" ++ NL)).
  rewrite (CodeFacts.find_lit_after "`" _ _ _ Hpre).
  change (list_ascii_of_string fence_close)
    with ("`"%char :: Text.lit "``").
  rewrite (CodeFacts.find_lit_after "`" _ _ _ Hcode).
  apply string_of_list_ascii_of_string.
Qed.

Lemma extract_code_fenced_witness :
  extract_code ("Here is the code:" ++ NL ++ fence_open
                ++ "def f(): return 1" ++ NL ++ fence_close ++ " Done.")
  = "def f(): return 1" ++ NL.
Proof.
  exact (extract_code_fenced ("Here is the code:" ++ NL)
           ("def f(): return 1" ++ NL) " Done." eq_refl eq_refl).
Defined.

(* ================================================================== *)
(** * The first score of a report *)
(* ================================================================== *)

(** X10. Score extraction reads the leftmost occurrence of the pattern
    only, and -1 is returned exactly when the text has no occurrence or
    the number token of that leftmost occurrence is not a number (a later
    well-formed score is not looked for). *)
Theorem extract_score_first (text : string) :
  let s := list_ascii_of_string text in
  match Score.search s with
  | Some num =>
      (exists pre kw ws post,
          Score.occurrence s pre kw ws num post
          /\ forall pre' kw' ws' num' post',
               Score.occurrence s pre' kw' ws' num' post' ->
               length pre <= length pre')
      /\ (Score._extract_score text = Score.unparsable
          <-> Score.parse_float num = None)
  | None =>
      ~ Score.has_occurrence s
      /\ Score._extract_score text = Score.unparsable
  end
  /\ Score._extract_score
       ("rated at 1.2.3/10, then rated at 5.00/10")
     = Score.unparsable.
Proof.
  intros s. split; [|vm_compute; reflexivity].
  unfold Score._extract_score, Score.extract_score_chars. fold s.
  destruct (Score.search s) as [num|] eqn:E.
  - split; [apply search_leftmost; exact E|].
    destruct (Score.parse_float num) as [q|] eqn:Ep; [|tauto].
    split; [|discriminate]. intros ->.
    exfalso. exact (ScoreFacts.parse_float_not_sentinel num Ep).
  - split; [apply ScoreFacts.search_none; exact E|reflexivity].
Qed.

(* ================================================================== *)
(** * The partition into function blocks *)
(* ================================================================== *)

Module BlockFacts.
Import Text Fragment.
Local Open Scope list_scope.

Lemma chars_eqb_eq (a b : chars) : chars_eqb a b = true <-> a = b.
Proof.
  unfold chars_eqb. destruct (list_eq_dec ascii_dec a b); split;
    congruence.
Qed.

Lemma chars_eqb_refl (a : chars) : chars_eqb a a = true.
Proof. apply chars_eqb_eq. reflexivity. Qed.

Lemma dict_get_set (k k' v : chars) (d : dict) :
  dict_get k (dict_set k' v d)
  = if chars_eqb k k' then Some v else dict_get k d.
Proof.
  induction d as [|[k0 v0] d IH]; simpl.
  - destruct (chars_eqb k k'); reflexivity.
  - destruct (chars_eqb k' k0) eqn:E0; simpl.
    + apply chars_eqb_eq in E0 as <-.
      destruct (chars_eqb k k'); reflexivity.
    + destruct (chars_eqb k k0) eqn:E1; [|exact IH].
      apply chars_eqb_eq in E1 as <-.
      destruct (chars_eqb k k') eqn:E2; [|reflexivity].
      apply chars_eqb_eq in E2 as <-. rewrite chars_eqb_refl in E0.
      discriminate.
Qed.

Lemma dict_set_keys (k v : chars) (d : dict) :
  map fst (dict_set k v d)
  = if dict_has k d then map fst d else map fst d ++ [k].
Proof.
  unfold dict_has. induction d as [|[k0 v0] d IH]; simpl; [reflexivity|].
  destruct (chars_eqb k k0) eqn:E; simpl.
  - apply chars_eqb_eq in E as <-. reflexivity.
  - rewrite IH. destruct (dict_get k d); reflexivity.
Qed.

Lemma dict_get_none (k : chars) (d : dict) :
  dict_get k d = None -> ~ In k (map fst d).
Proof.
  induction d as [|[k0 v0] d IH]; simpl; [tauto|].
  destruct (chars_eqb k k0) eqn:E; [discriminate|].
  intros H [H1|H1]; [|exact (IH H H1)].
  subst k0. rewrite chars_eqb_refl in E. discriminate.
Qed.

Lemma dict_set_nodup (k v : chars) (d : dict) :
  NoDup (map fst d) -> NoDup (map fst (dict_set k v d)).
Proof.
  intros H. rewrite dict_set_keys. unfold dict_has.
  destruct (dict_get k d) eqn:E; [exact H|].
  apply NoDup_app; [exact H|repeat constructor; simpl; tauto|].
  intros x Hx [<-|[]]. exact (dict_get_none _ _ E Hx).
Qed.

Lemma dict_get_in (k v : chars) (d : dict) :
  NoDup (map fst d) -> In (k, v) d -> dict_get k d = Some v.
Proof.
  induction d as [|[k0 v0] d IH]; simpl; [tauto|].
  intros Hnd [H|H].
  - injection H as -> ->. rewrite chars_eqb_refl. reflexivity.
  - inversion Hnd; subst.
    destruct (chars_eqb k k0) eqn:E; [|apply IH; assumption].
    apply chars_eqb_eq in E as <-. exfalso. apply H2.
    apply (in_map fst) in H. exact H.
Qed.

Lemma dict_get_some_in (k v : chars) (d : dict) :
  dict_get k d = Some v -> In (k, v) d.
Proof.
  induction d as [|[k0 v0] d IH]; simpl; [discriminate|].
  destruct (chars_eqb k k0) eqn:E.
  - apply chars_eqb_eq in E as <-. intros [= ->]. left. reflexivity.
  - intros H. right. exact (IH H).
Qed.

Lemma find_append {A} (p : A -> bool) (a b : list A) :
  find p (a ++ b)
  = match find p a with Some x => Some x | None => find p b end.
Proof.
  induction a as [|x a IH]; simpl; [reflexivity|].
  destruct (p x); [reflexivity|exact IH].
Qed.

Lemma build_get (k : chars) (ms : list (chars * chars)) :
  forall d,
    dict_get k (build_dict ms d)
    = match find (fun m => chars_eqb k (fst m)) (rev ms) with
      | Some m => Some (strip (snd m))
      | None => dict_get k d
      end.
Proof.
  unfold build_dict. induction ms as [|m ms IH]; intros d; [reflexivity|].
  cbn [fold_left rev]. rewrite IH, find_append.
  destruct (find _ (rev ms)); [reflexivity|].
  simpl. rewrite dict_get_set.
  destruct (chars_eqb k (fst m)); reflexivity.
Qed.

Lemma build_nodup (ms : list (chars * chars)) :
  forall d, NoDup (map fst d) -> NoDup (map fst (build_dict ms d)).
Proof.
  unfold build_dict. induction ms as [|m ms IH]; intros d H; [exact H|].
  cbn [fold_left]. apply IH, dict_set_nodup, H.
Qed.

Lemma drop_while_app_last (p : ascii -> bool) (l : chars) (x : ascii) :
  p x = false -> drop_while p (l ++ [x]) = drop_while p l ++ [x].
Proof.
  intros Hx. induction l as [|c l IH]; simpl.
  - rewrite Hx. reflexivity.
  - destruct (p c); [exact IH|reflexivity].
Qed.

Lemma rstrip_cons (x : ascii) (r : chars) :
  is_space x = false -> rstrip (x :: r) = x :: rstrip r.
Proof.
  intros Hx. unfold rstrip. cbn [rev].
  rewrite (drop_while_app_last _ _ _ Hx), rev_app_distr. reflexivity.
Qed.

Lemma strip_cons (x : ascii) (r : chars) :
  is_space x = false -> strip (x :: r) = x :: rstrip r.
Proof.
  intros Hx. unfold strip. cbn [drop_while]. rewrite Hx.
  exact (rstrip_cons x r Hx).
Qed.

Lemma drop_while_idempotent (p : ascii -> bool) (s : chars) :
  drop_while p (drop_while p s) = drop_while p s.
Proof.
  induction s as [|c s IH]; simpl; [reflexivity|].
  destruct (p c) eqn:E; [exact IH|]. simpl. rewrite E. reflexivity.
Qed.

Lemma rstrip_idempotent (s : chars) : rstrip (rstrip s) = rstrip s.
Proof.
  unfold rstrip. rewrite rev_involutive, drop_while_idempotent. reflexivity.
Qed.

Lemma strip_def (r : chars) : kept_block (strip (lit "def" ++ r)).
Proof.
  change (lit "def" ++ r) with ("d"%char :: "e"%char :: "f"%char :: r).
  rewrite (strip_cons "d" _ eq_refl), (rstrip_cons "e" _ eq_refl),
    (rstrip_cons "f" _ eq_refl).
  split; [exists (rstrip r); reflexivity|].
  rewrite (strip_cons "d" _ eq_refl), (rstrip_cons "e" _ eq_refl),
    (rstrip_cons "f" _ eq_refl), rstrip_idempotent.
  reflexivity.
Qed.

Lemma match_block_def (s name block : chars) :
  match_block s = Some (name, block) -> exists r, block = lit "def" ++ r.
Proof.
  unfold match_block.
  destruct (strip_prefix (lit "def") s) as [s1|]; [|discriminate].
  destruct (span is_space s1) as [ws s2]. destruct ws; [discriminate|].
  destruct (span is_word s2) as [nm s3]. destruct nm; [discriminate|].
  destruct (span is_space s3) as [ws' s4].
  destruct (strip_prefix (lit "(") s4) as [s5|]; [|discriminate].
  destruct (span _ s5) as [args s6].
  destruct (strip_prefix (lit "):") s6) as [s7|]; [|discriminate].
  intros [= _ <-]. eexists. reflexivity.
Qed.

Lemma finditer_def (s : chars) :
  forall bol skip,
    Forall (fun m => exists r, snd m = lit "def" ++ r) (finditer bol skip s).
Proof.
  induction s as [|c s IH]; intros bol skip; simpl; [constructor|].
  destruct skip as [|k]; [|apply IH].
  destruct bol; [|apply IH].
  destruct (match_block (c :: s)) as [[name block]|] eqn:E; [|apply IH].
  constructor; [|apply IH].
  apply (match_block_def _ _ _ E).
Qed.

Lemma dict_set_kept (k v : chars) (d : dict) :
  kept_block v -> Forall (fun e => kept_block (snd e)) d ->
  Forall (fun e => kept_block (snd e)) (dict_set k v d).
Proof.
  intros Hv Hd. induction Hd as [|[k' v'] d Hx Hd IH]; simpl.
  - constructor; [exact Hv|constructor].
  - destruct (chars_eqb k k'); constructor; simpl; assumption.
Qed.

Lemma func_blocks_kept (src : chars) :
  Forall (fun e => kept_block (snd e)) (_func_blocks src).
Proof.
  unfold _func_blocks.
  assert (H : forall ms d,
             Forall (fun m => exists r, snd m = lit "def" ++ r) ms ->
             Forall (fun e => kept_block (snd e)) d ->
             Forall (fun e => kept_block (snd e))
               (fold_left (fun d m => dict_set (fst m) (strip (snd m)) d)
                          ms d)).
  { induction ms as [|[k v] ms IH]; intros d Hms Hd; cbn [fold_left];
      [exact Hd|].
    inversion Hms as [|? ? [r Hr] Hms']; subst. apply IH; [assumption|].
    apply dict_set_kept; [|assumption]. simpl in Hr. cbn [snd].
    rewrite Hr. apply strip_def. }
  apply H; [apply finditer_def|constructor].
Qed.

Lemma func_blocks_nodup (src : chars) : NoDup (map fst (_func_blocks src)).
Proof. apply (build_nodup _ []). constructor. Qed.

Lemma join_starts (b : chars) (bs : list chars) :
  exists r, join sep (b :: bs) = b ++ r.
Proof.
  simpl. destruct bs as [|b' bs].
  - exists []. rewrite app_nil_r. reflexivity.
  - eexists. reflexivity.
Qed.

End BlockFacts.

(* ================================================================== *)
(** * The fragment of copy mode and the blocks of the specification *)
(* ================================================================== *)

Module ExtentFacts.
Import Text Fragment FragmentSpec.
Local Open Scope list_scope.


Lemma word_not_space (c : ascii) : is_word c = true -> is_space c = false.
Proof. ScoreFacts.by_cases_on_char c. Qed.

Lemma space_not_word (c : ascii) : is_space c = true -> is_word c = false.
Proof. ScoreFacts.by_cases_on_char c. Qed.

Lemma head_not (p : ascii -> bool) (q : ascii -> bool) (a b : chars) :
  (forall c, q c = true -> p c = false) ->
  forallb q a = true ->
  match b with c :: _ => p c = false | [] => True end ->
  match a ++ b with c :: _ => p c = false | [] => True end.
Proof.
  intros Hpq Ha Hb. destruct a as [|x a]; [exact Hb|].
  simpl in *. apply andb_true_iff in Ha as [Hx _]. apply Hpq, Hx.
Qed.

(** The lookahead of the pattern recognises the texts that start a
    header. *)
Lemma looks_like_def_spec (s : chars) :
  looks_like_def s = true <-> header_start s.
Proof.
  unfold looks_like_def, header_start, blanks, identifier. split.
  - destruct (strip_prefix (lit "def") s) as [s1|] eqn:E1; [|discriminate].
    apply ScoreFacts.strip_prefix_spec in E1 as ->.
    destruct (span is_space s1) as [ws s2] eqn:E2.
    apply ScoreFacts.span_spec in E2 as [-> [Hws _]].
    destruct ws as [|w0 ws]; [discriminate|].
    destruct (span is_word s2) as [name s3] eqn:E3.
    apply ScoreFacts.span_spec in E3 as [-> [Hname _]].
    destruct name as [|n0 name]; [discriminate|].
    destruct (span is_space s3) as [ws' s4] eqn:E4.
    apply ScoreFacts.span_spec in E4 as [-> [Hws' _]].
    destruct (strip_prefix (lit "(") s4) as [rest|] eqn:E5; [|discriminate].
    apply ScoreFacts.strip_prefix_spec in E5 as ->.
    intros _. exists (w0 :: ws), (n0 :: name), ws', rest.
    repeat split; try assumption; discriminate.
  - intros [ws [name [ws' [rest [-> [Hws0 [Hws [[Hn0 Hn] Hws']]]]]]]].
    assert (E1 : strip_prefix (lit "def")
                   (lit "def" ++ ws ++ name ++ ws' ++ lit "(" ++ rest)
                 = Some (ws ++ name ++ ws' ++ lit "(" ++ rest))
      by (apply ScoreFacts.strip_prefix_spec; reflexivity).
    rewrite E1.
    assert (E2 : span is_space (ws ++ name ++ ws' ++ lit "(" ++ rest)
                 = (ws, name ++ ws' ++ lit "(" ++ rest)).
    { apply ScoreFacts.span_app; [exact Hws|].
      destruct name as [|n0 name]; [contradiction|]. simpl in *.
      apply andb_true_iff in Hn as [Hn _]. apply word_not_space, Hn. }
    rewrite E2. destruct ws as [|w0 ws]; [contradiction|].
    assert (E3 : span is_word (name ++ ws' ++ lit "(" ++ rest)
                 = (name, ws' ++ lit "(" ++ rest)).
    { apply ScoreFacts.span_app; [exact Hn|].
      apply (head_not is_word is_space); [apply space_not_word|exact Hws'|].
      reflexivity. }
    rewrite E3. destruct name as [|n0 name]; [contradiction|].
    assert (E4 : span is_space (ws' ++ lit "(" ++ rest)
                 = (ws', lit "(" ++ rest))
      by (apply ScoreFacts.span_app; [exact Hws'|reflexivity]).
    rewrite E4.
    assert (E5 : strip_prefix (lit "(") (lit "(" ++ rest) = Some rest)
      by (apply ScoreFacts.strip_prefix_spec; reflexivity).
    rewrite E5. reflexivity.
Qed.

Lemma bol_after_nil (bol : bool) : bol_after bol [] = bol.
Proof. reflexivity. Qed.

Lemma bol_after_cons (bol : bool) (c : ascii) (a : chars) :
  bol_after bol (c :: a) = bol_after (Ascii.eqb c nl) a.
Proof.
  unfold bol_after. simpl. destruct (rev a) as [|x r]; reflexivity.
Qed.

Lemma bol_after_last (bol : bool) (a : chars) (c : ascii) :
  bol_after bol (a ++ [c]) = Ascii.eqb c nl.
Proof. unfold bol_after. rewrite rev_app_distr. reflexivity. Qed.

Lemma bol_after_true (bol : bool) (a : chars) :
  a <> [] -> bol_after bol a = true -> exists p, a = p ++ [nl].
Proof.
  intros Ha. destruct (exists_last Ha) as [p [c ->]].
  rewrite bol_after_last. intros H. apply Ascii.eqb_eq in H as ->.
  exists p. reflexivity.
Qed.

Lemma bol_after_false (a : chars) :
  bol_after false a = true -> exists p, a = p ++ [nl].
Proof.
  destruct a as [|c a]; [discriminate|].
  apply bol_after_true. discriminate.
Qed.

(** The lazy body stops at the first beginning of a line that starts a
    header, or at the end of the text. *)
Lemma take_body_spec (s : chars) :
  forall bol,
  exists rest,
    s = take_body bol s ++ rest
    /\ (rest = []
        \/ (bol_after bol (take_body bol s) = true
            /\ looks_like_def rest = true))
    /\ (forall a b,
           take_body bol s = a ++ b -> b <> [] -> bol_after bol a = true ->
           looks_like_def (b ++ rest) = false).
Proof.
  induction s as [|c s IH]; intros bol.
  - exists []. split; [reflexivity|]. split; [left; reflexivity|].
    intros a b H Hb. destruct a; destruct b; try discriminate.
    contradiction.
  - cbn [take_body].
    destruct (bol && looks_like_def (c :: s)) eqn:E.
    + apply andb_true_iff in E as [-> E].
      exists (c :: s). split; [reflexivity|].
      split; [right; split; [reflexivity|exact E]|].
      intros a b H Hb. destruct a; destruct b; try discriminate.
      contradiction.
    + destruct (IH (Ascii.eqb c nl)) as [rest [H1 [H2 H3]]].
      exists rest. split; [simpl; rewrite <- H1; reflexivity|]. split.
      * destruct H2 as [H2|[H2 H2']]; [left; exact H2|right].
        rewrite bol_after_cons. split; assumption.
      * intros a b H Hb Ha. destruct a as [|x a].
        -- simpl in H. subst b. simpl. rewrite <- H1.
           rewrite bol_after_nil in Ha. subst bol. exact E.
        -- injection H as <- H. rewrite bol_after_cons in Ha.
           exact (H3 a b H Hb Ha).
Qed.

(** A match of the pattern is a header followed by its lazy body. *)
Lemma match_block_header (s name block : chars) :
  match_block s = Some (name, block) ->
  exists h s7,
    s = h ++ s7 /\ header h name /\ block = h ++ take_body false s7.
Proof.
  unfold match_block, header, blanks, identifier.
  destruct (strip_prefix (lit "def") s) as [s1|] eqn:E1; [|discriminate].
  apply ScoreFacts.strip_prefix_spec in E1 as ->.
  destruct (span is_space s1) as [ws s2] eqn:E2.
  apply ScoreFacts.span_spec in E2 as [-> [Hws _]].
  destruct ws as [|w0 ws]; [discriminate|].
  destruct (span is_word s2) as [nm s3] eqn:E3.
  apply ScoreFacts.span_spec in E3 as [-> [Hname _]].
  destruct nm as [|n0 nm]; [discriminate|].
  destruct (span is_space s3) as [ws' s4] eqn:E4.
  apply ScoreFacts.span_spec in E4 as [-> [Hws' _]].
  destruct (strip_prefix (lit "(") s4) as [s5|] eqn:E5; [|discriminate].
  apply ScoreFacts.strip_prefix_spec in E5 as ->.
  destruct (span (fun c => negb (Ascii.eqb c ")")) s5) as [args s6] eqn:E6.
  apply ScoreFacts.span_spec in E6 as [-> [Hargs _]].
  destruct (strip_prefix (lit "):") s6) as [s7|] eqn:E7; [|discriminate].
  apply ScoreFacts.strip_prefix_spec in E7 as ->.
  intros [= <- <-].
  exists (lit "def" ++ (w0 :: ws) ++ (n0 :: nm) ++ ws' ++ lit "(" ++ args
          ++ lit "):"), s7.
  split; [rewrite <- !app_assoc; reflexivity|]. split.
  - exists (w0 :: ws), ws', args.
    repeat split; try assumption; discriminate.
  - rewrite <- !app_assoc. reflexivity.
Qed.

(** The extent of a match: it ends at the end of the text or before a
    line that starts a header, and no line inside it starts one. *)
Lemma match_block_extent (s name block : chars) :
  match_block s = Some (name, block) -> block_here s name block.
Proof.
  intros H. apply match_block_header in H as [h [s7 [-> [Hh ->]]]].
  destruct (take_body_spec s7 false) as [rest [H1 [H2 H3]]].
  exists h, (take_body false s7), rest.
  split; [rewrite <- app_assoc, <- H1; reflexivity|].
  split; [reflexivity|]. split; [exact Hh|]. split.
  - destruct H2 as [H2|[H2 H2']]; [left; exact H2|right].
    split; [apply bol_after_false, H2|apply looks_like_def_spec, H2'].
  - intros a b Hb Hne Hs. apply looks_like_def_spec in Hs.
    rewrite (H3 (a ++ [nl]) b) in Hs; [discriminate| |exact Hne|].
    + rewrite <- app_assoc. exact Hb.
    + apply bol_after_last.
Qed.

(** The lazy body is the only text with that extent. *)
Lemma take_body_unique (body : chars) :
  forall bol rest,
    (rest = [] \/ (bol_after bol body = true /\ looks_like_def rest = true)) ->
    (forall a b, body = a ++ b -> b <> [] -> bol_after bol a = true ->
                 looks_like_def (b ++ rest) = false) ->
    take_body bol (body ++ rest) = body.
Proof.
  induction body as [|c body IH]; intros bol rest Hstop Hmin.
  - rewrite app_nil_l. destruct Hstop as [->|[Hb Hl]]; [reflexivity|].
    rewrite bol_after_nil in Hb. subst bol.
    destruct rest as [|c rest]; [reflexivity|].
    cbn [take_body]. rewrite Hl. reflexivity.
  - change ((c :: body) ++ rest) with (c :: body ++ rest).
    cbn [take_body].
    assert (E : bol && looks_like_def (c :: body ++ rest) = false).
    { destruct bol; [|reflexivity]. simpl.
      apply (Hmin [] (c :: body)); [reflexivity|discriminate|reflexivity]. }
    rewrite E. f_equal. apply IH.
    + rewrite bol_after_cons in Hstop. exact Hstop.
    + intros a b Hab Hb Ha. apply (Hmin (c :: a) b).
      * rewrite Hab. reflexivity.
      * exact Hb.
      * rewrite bol_after_cons. exact Ha.
Qed.

(** The pattern matches at the front of a text exactly when a block
    begins there, and the match is that block. *)
Lemma match_block_iff (s name block : chars) :
  match_block s = Some (name, block) <-> block_here s name block.
Proof.
  split; [apply match_block_extent|].
  intros [h [body [rest [-> [-> [Hh [Hstop Hmin]]]]]]].
  destruct Hh as [ws [ws' [args [-> [Hws0 [Hws [[Hn0 Hn] [Hws' Hargs]]]]]]]].
  unfold blanks in *. unfold match_block.
  rewrite <- !app_assoc.
  assert (E1 : strip_prefix (lit "def")
                 (lit "def" ++ ws ++ name ++ ws' ++ lit "(" ++ args
                  ++ lit "):" ++ body ++ rest)
               = Some (ws ++ name ++ ws' ++ lit "(" ++ args
                       ++ lit "):" ++ body ++ rest))
    by (apply ScoreFacts.strip_prefix_spec; reflexivity).
  rewrite E1.
  assert (E2 : span is_space (ws ++ name ++ ws' ++ lit "(" ++ args
                              ++ lit "):" ++ body ++ rest)
               = (ws, name ++ ws' ++ lit "(" ++ args ++ lit "):"
                      ++ body ++ rest)).
  { apply ScoreFacts.span_app; [exact Hws|].
    destruct name as [|n0 name]; [contradiction|]. simpl in *.
    apply andb_true_iff in Hn as [Hn _]. apply word_not_space, Hn. }
  rewrite E2. destruct ws as [|w0 ws]; [contradiction|].
  assert (E3 : span is_word (name ++ ws' ++ lit "(" ++ args ++ lit "):"
                             ++ body ++ rest)
               = (name, ws' ++ lit "(" ++ args ++ lit "):" ++ body ++ rest)).
  { apply ScoreFacts.span_app; [exact Hn|].
    apply (head_not is_word is_space); [apply space_not_word|exact Hws'|].
    reflexivity. }
  rewrite E3. destruct name as [|n0 name]; [contradiction|].
  assert (E4 : span is_space (ws' ++ lit "(" ++ args ++ lit "):"
                              ++ body ++ rest)
               = (ws', lit "(" ++ args ++ lit "):" ++ body ++ rest))
    by (apply ScoreFacts.span_app; [exact Hws'|reflexivity]).
  rewrite E4.
  assert (E5 : strip_prefix (lit "(") (lit "(" ++ args ++ lit "):"
                                       ++ body ++ rest)
               = Some (args ++ lit "):" ++ body ++ rest))
    by (apply ScoreFacts.strip_prefix_spec; reflexivity).
  rewrite E5.
  assert (E6 : span (fun c => negb (Ascii.eqb c ")"))
                    (args ++ lit "):" ++ body ++ rest)
               = (args, lit "):" ++ body ++ rest))
    by (apply ScoreFacts.span_app; [exact Hargs|reflexivity]).
  rewrite E6.
  assert (E7 : strip_prefix (lit "):") (lit "):" ++ body ++ rest)
               = Some (body ++ rest))
    by (apply ScoreFacts.strip_prefix_spec; reflexivity).
  rewrite E7.
  rewrite (take_body_unique body false rest).
  - reflexivity.
  - destruct Hstop as [H|[[p Hp] Hs]]; [left; exact H|right].
    split; [rewrite Hp; apply bol_after_last|apply looks_like_def_spec, Hs].
  - intros a b Hab Hb Ha. apply bol_after_false in Ha as [p ->].
    destruct (looks_like_def (b ++ rest)) eqn:El; [|reflexivity].
    exfalso. apply looks_like_def_spec in El.
    apply (Hmin p b); [rewrite Hab, <- app_assoc; reflexivity|exact Hb
                      |exact El].
Qed.

Lemma header_nonempty (h name : chars) : header h name -> h <> [].
Proof. intros [ws [ws' [args [-> _]]]]. discriminate. Qed.

(** Passing over [k] characters. *)
Lemma finditer_skip (s : chars) :
  forall bol k,
    finditer bol k s
    = finditer (bol_after bol (firstn k s)) 0 (skipn k s).
Proof.
  induction s as [|c s IH]; intros bol k.
  - destruct k; reflexivity.
  - destruct k as [|k]; [reflexivity|].
    cbn [finditer firstn skipn]. rewrite IH, bol_after_cons. reflexivity.
Qed.

(** After a match the search goes on behind it. *)
Lemma finditer_match (name block rest : chars) :
  match_block (block ++ rest) = Some (name, block) ->
  finditer true 0 (block ++ rest)
  = (name, block) :: finditer (bol_after true block) 0 rest.
Proof.
  intros H. pose proof H as H'.
  apply match_block_header in H' as [h [s7 [_ [Hh Hb]]]].
  destruct block as [|c block].
  { apply header_nonempty in Hh. destruct h; [contradiction|discriminate]. }
  change ((c :: block) ++ rest) with (c :: block ++ rest) in *.
  cbn [finditer]. rewrite H. f_equal.
  replace (length (c :: block) - 1) with (length block) by (simpl; lia).
  rewrite finditer_skip.
  rewrite firstn_app, Nat.sub_diag, firstn_all, firstn_O, app_nil_r.
  rewrite skipn_app, Nat.sub_diag, skipn_all, skipn_O.
  rewrite bol_after_cons. reflexivity.
Qed.

Lemma match_block_prefix (s name block : chars) :
  match_block s = Some (name, block) ->
  exists rest, s = block ++ rest /\ block <> [].
Proof.
  intros H. destruct (match_block_extent s name block H)
    as [h [body [rest [H1 [H2 [H3 _]]]]]].
  exists rest. split; [exact H1|]. subst block.
  apply header_nonempty in H3. destruct h; [contradiction|discriminate].
Qed.

Lemma line_start_app (pre a : chars) :
  a <> [] -> bol_after true a = true -> line_start (pre ++ a).
Proof.
  intros Ha H. destruct (bol_after_true true a Ha H) as [p ->].
  right. exists (pre ++ p). rewrite app_assoc. reflexivity.
Qed.

(** Every match the iteration returns is found at the beginning of a
    line of the text. *)
Lemma finditer_sound (n : nat) :
  forall s pre bol,
    length s <= n ->
    (bol = true -> line_start pre) ->
    forall name block,
      In (name, block) (finditer bol 0 s) ->
      exists a rest,
        s = a ++ block ++ rest
        /\ line_start (pre ++ a)
        /\ match_block (block ++ rest) = Some (name, block).
Proof.
  induction n as [|n IH]; intros s pre bol Hlen Hbol name block Hin.
  - destruct s; [contradiction|simpl in Hlen; lia].
  - destruct s as [|c s]; [contradiction|].
    destruct (if bol then match_block (c :: s) else None)
      as [[nm blk]|] eqn:E.
    + destruct bol; [|discriminate].
      destruct (match_block_prefix _ _ _ E) as [rest0 [Hs Hne]].
      rewrite Hs in E, Hin. rewrite (finditer_match nm blk rest0 E) in Hin.
      destruct Hin as [Hin|Hin].
      * injection Hin as -> ->. exists [], rest0.
        split; [exact Hs|]. split; [rewrite app_nil_r; auto|exact E].
      * assert (Hl : length rest0 <= n).
        { apply (f_equal (@length _)) in Hs. rewrite length_app in Hs.
          simpl in Hs, Hlen. destruct blk; [contradiction|].
          simpl in Hs. lia. }
        destruct (IH rest0 (pre ++ blk) (bol_after true blk) Hl
                     (line_start_app pre blk Hne) name block Hin)
          as [a [rest [H1 [H2 H3]]]].
        exists (blk ++ a), rest. split; [|split; [|exact H3]].
        -- rewrite Hs, H1, <- app_assoc. reflexivity.
        -- rewrite app_assoc. exact H2.
    + assert (Hf : finditer bol 0 (c :: s) = finditer (Ascii.eqb c nl) 0 s).
      { cbn [finditer]. rewrite E. reflexivity. }
      rewrite Hf in Hin.
      assert (Hb : Ascii.eqb c nl = true -> line_start (pre ++ [c])).
      { intros Hc. apply Ascii.eqb_eq in Hc as ->. right. exists pre.
        reflexivity. }
      simpl in Hlen.
      destruct (IH s (pre ++ [c]) (Ascii.eqb c nl) ltac:(lia) Hb
                   name block Hin) as [a [rest [H1 [H2 H3]]]].
      exists (c :: a), rest. split; [|split; [|exact H3]].
      * rewrite H1. reflexivity.
      * rewrite <- app_assoc in H2. exact H2.
Qed.

Lemma dict_set_in (k v k' v' : chars) (d : dict) :
  In (k, v) (dict_set k' v' d) -> (k = k' /\ v = v') \/ In (k, v) d.
Proof.
  induction d as [|[k0 v0] d IH]; simpl.
  - intros [[= <- <-]|[]]. left. split; reflexivity.
  - destruct (chars_eqb k' k0).
    + intros [[= <- <-]|H]; [left; split; reflexivity|right; right; exact H].
    + intros [H|H]; [right; left; exact H|].
      destruct (IH H) as [H'|H']; [left; exact H'|right; right; exact H'].
Qed.

Lemma build_dict_in (ms : list (chars * chars)) :
  forall d k v,
    In (k, v) (build_dict ms d) ->
    In (k, v) d \/ exists block, In (k, block) ms /\ v = strip block.
Proof.
  unfold build_dict.
  induction ms as [|[k0 b0] ms IH]; intros d k v H; [left; exact H|].
  cbn [fold_left fst snd] in H.
  destruct (IH _ _ _ H) as [H'|[block [H1 H2]]].
  - apply dict_set_in in H' as [[-> ->]|H']; [|left; exact H'].
    right. exists b0. split; [left; reflexivity|reflexivity].
  - right. exists block. split; [right; exact H1|exact H2].
Qed.

(** The blocks of the partition are function-level blocks of the source,
    without the blanks around them. *)
Lemma func_blocks_extent (src name b : chars) :
  In (name, b) (_func_blocks src) ->
  exists pre block, block_at src pre name block /\ b = strip block.
Proof.
  intros H.
  change (_func_blocks src) with (build_dict (finditer true 0 src) []) in H.
  apply build_dict_in in H as [[]|[block [Hin ->]]].
  destruct (finditer_sound (length src) src [] true (Nat.le_refl _)
              (fun _ => or_introl eq_refl) name block Hin)
    as [a [rest [H1 [H2 H3]]]].
  exists a, block. split; [|reflexivity].
  exists rest. split; [exact H1|]. split; [exact H2|].
  apply match_block_extent, H3.
Qed.

Lemma match_block_none (s : chars) :
  match_block s = None -> forall name block, ~ block_here s name block.
Proof.
  intros H name block Hb. apply match_block_iff in Hb. congruence.
Qed.

(** The beginning of a line, as the iteration tracks it. *)
Lemma line_start_bol (bol : bool) (pre a : chars) :
  (bol = true <-> line_start pre) ->
  (bol_after bol a = true <-> line_start (pre ++ a)).
Proof.
  intros H. destruct a as [|x a] using rev_ind.
  - rewrite bol_after_nil, app_nil_r. exact H.
  - rewrite bol_after_last. split.
    + intros Hc. apply Ascii.eqb_eq in Hc as ->. right.
      exists (pre ++ a). rewrite app_assoc. reflexivity.
    + intros [Hc|[p Hp]].
      * destruct pre; destruct a; discriminate.
      * rewrite app_assoc in Hp. apply app_inj_tail in Hp as [_ ->].
        apply Ascii.eqb_refl.
Qed.

(** When the iteration finds nothing, no block begins at a beginning of a
    line. *)
Lemma finditer_nil (s : chars) :
  forall bol,
    finditer bol 0 s = [] ->
    forall a b, s = a ++ b -> bol_after bol a = true -> match_block b = None.
Proof.
  induction s as [|c s IH]; intros bol H a b Hs Ha.
  - destruct a; destruct b; try discriminate. reflexivity.
  - cbn [finditer] in H.
    destruct (if bol then match_block (c :: s) else None)
      as [[nm blk]|] eqn:E; [discriminate|].
    destruct a as [|x a].
    + simpl in Hs. subst b. rewrite bol_after_nil in Ha. subst bol.
      exact E.
    + injection Hs as <- Hs. rewrite bol_after_cons in Ha.
      exact (IH _ H a b Hs Ha).
Qed.

(** The first match is the leftmost one, and the iteration goes on
    behind it. *)
Lemma finditer_cons (s : chars) :
  forall bol name block ms,
    finditer bol 0 s = (name, block) :: ms ->
    exists a rest,
      s = a ++ block ++ rest
      /\ (forall a1 a2, a = a1 ++ a2 -> a2 <> [] ->
                        bol_after bol a1 = true ->
                        match_block (a2 ++ block ++ rest) = None)
      /\ bol_after bol a = true
      /\ match_block (block ++ rest) = Some (name, block)
      /\ ms = finditer (bol_after true block) 0 rest.
Proof.
  induction s as [|c s IH]; intros bol name block ms H; [discriminate|].
  destruct (if bol then match_block (c :: s) else None)
    as [[nm blk]|] eqn:E.
  - destruct bol; [|discriminate].
    destruct (match_block_prefix _ _ _ E) as [rest0 [Hs Hne]].
    rewrite Hs in E, H. rewrite (finditer_match nm blk rest0 E) in H.
    injection H as -> -> <-.
    exists [], rest0. split; [exact Hs|]. split.
    { intros a1 a2 Ha Ha2. destruct a1; destruct a2; try discriminate.
      contradiction. }
    split; [reflexivity|]. split; [exact E|reflexivity].
  - assert (Hf : finditer bol 0 (c :: s) = finditer (Ascii.eqb c nl) 0 s).
    { cbn [finditer]. rewrite E. reflexivity. }
    rewrite Hf in H.
    destruct (IH _ _ _ _ H) as [a [rest [H1 [H2 [H3 [H4 H5]]]]]].
    exists (c :: a), rest. split; [rewrite H1; reflexivity|]. split.
    { intros a1 a2 Ha Ha2 Hb. destruct a1 as [|x a1].
      - simpl in Ha. subst a2. rewrite bol_after_nil in Hb. subst bol.
        simpl. rewrite <- H1. exact E.
      - injection Ha as <- Ha. rewrite bol_after_cons in Hb.
        exact (H2 a1 a2 Ha Ha2 Hb). }
    split; [rewrite bol_after_cons; exact H3|].
    split; [exact H4|exact H5].
Qed.

(** The iteration returns the function-level blocks of the text, from
    left to right. *)
Lemma finditer_blocks (n : nat) :
  forall s pre bol,
    length s <= n ->
    (bol = true <-> line_start pre) ->
    blocks_of pre s (finditer bol 0 s).
Proof.
  induction n as [|n IH]; intros s pre bol Hlen Hbol.
  - destruct s; [|simpl in Hlen; lia].
    apply blocks_none. intros a b name block Hs _.
    destruct a; destruct b; try discriminate.
    apply match_block_none. reflexivity.
  - destruct (finditer bol 0 s) as [|[name block] ms] eqn:E.
    + apply blocks_none. intros a b name block Hs Hl.
      apply match_block_none.
      apply (finditer_nil s bol E a b Hs).
      apply (line_start_bol bol pre a Hbol), Hl.
    + destruct (finditer_cons s bol name block ms E)
        as [a [rest [H1 [H2 [H3 [H4 H5]]]]]].
      subst s ms.
      destruct (match_block_prefix _ _ _ H4) as [rest0 [Hs Hne]].
      apply app_inv_head in Hs. subst rest0.
      apply blocks_first.
      * intros a1 a2 nm b Ha Ha2 Hl. apply match_block_none.
        apply (H2 a1 a2 Ha Ha2).
        apply (line_start_bol bol pre a1 Hbol), Hl.
      * apply (line_start_bol bol pre a Hbol), H3.
      * apply match_block_extent, H4.
      * apply IH.
        -- rewrite !length_app in Hlen. destruct block; [contradiction|].
           simpl in Hlen. lia.
        -- rewrite app_assoc.
           apply (line_start_bol true (pre ++ a) block).
           split; [intros _|reflexivity].
           apply (line_start_bol bol pre a Hbol), H3.
Qed.

Lemma find_last {A} (p : A -> bool) (l : list A) (m : A) :
  find p (rev l) = Some m <->
  exists before after,
    l = before ++ m :: after /\ p m = true
    /\ forall e, In e after -> p e = false.
Proof.
  induction l as [|x l IH] using rev_ind.
  - split; [discriminate|]. intros [b [a [H _]]].
    destruct b; discriminate.
  - rewrite rev_app_distr. simpl. destruct (p x) eqn:E.
    + split.
      * intros [= <-]. exists l, []. repeat split; [exact E|].
        intros e [].
      * intros [b [a [H [Hm Ha]]]].
        destruct a as [|y a] using rev_ind.
        -- apply app_inj_tail in H as [_ ->]. reflexivity.
        -- clear IHa. rewrite app_comm_cons, app_assoc in H.
           apply app_inj_tail in H as [_ <-].
           rewrite (Ha x) in E; [discriminate|].
           apply in_or_app. right. left. reflexivity.
    + rewrite IH. split.
      * intros [b [a [-> [Hm Ha]]]]. exists b, (a ++ [x]).
        split; [rewrite <- app_assoc; reflexivity|]. split; [exact Hm|].
        intros e He. apply in_app_or in He as [He|[<-|[]]];
          [apply Ha, He|exact E].
      * intros [b [a [H [Hm Ha]]]].
        destruct a as [|y a] using rev_ind.
        -- apply app_inj_tail in H as [_ ->]. congruence.
        -- clear IHa. rewrite app_comm_cons, app_assoc in H.
           apply app_inj_tail in H as [-> <-].
           exists b, a. split; [reflexivity|]. split; [exact Hm|].
           intros e He. apply Ha, in_or_app. left. exact He.
Qed.

(** The partition keeps, for each name, the last block with that name. *)
Lemma func_blocks_in (src name b : chars) :
  In (name, b) (_func_blocks src) <->
  exists block,
    last_named (finditer true 0 src) name block /\ b = strip block.
Proof.
  pose proof (BlockFacts.func_blocks_nodup src) as Hnd.
  pose proof (BlockFacts.build_get name (finditer true 0 src) []) as Hget.
  change (build_dict (finditer true 0 src) []) with (_func_blocks src)
    in Hget.
  split.
  - intros Hin. apply (BlockFacts.dict_get_in _ _ _ Hnd) in Hin.
    rewrite Hin in Hget.
    destruct (find _ (rev (finditer true 0 src))) as [[k v]|] eqn:E;
      [|discriminate].
    injection Hget as ->.
    apply find_last in E as [before [after [H1 [H2 H3]]]].
    apply BlockFacts.chars_eqb_eq in H2. simpl in H2. subst k.
    exists v. split; [|reflexivity].
    exists before, after. split; [exact H1|].
    intros e He Hn. specialize (H3 e He). rewrite Hn in H3.
    rewrite BlockFacts.chars_eqb_refl in H3. discriminate.
  - intros [block [[before [after [H1 H2]]] ->]].
    apply BlockFacts.dict_get_some_in. rewrite Hget.
    assert (E : find (fun m => chars_eqb name (fst m))
                     (rev (finditer true 0 src)) = Some (name, block)).
    { apply find_last. exists before, after. split; [exact H1|].
      split; [apply BlockFacts.chars_eqb_refl|].
      intros e He. destruct (chars_eqb name (fst e)) eqn:Ee; [|reflexivity].
      apply BlockFacts.chars_eqb_eq in Ee. exfalso.
      apply (H2 e He). symmetry. exact Ee. }
    rewrite E. reflexivity.
Qed.

Lemma drop_while_spec (p : ascii -> bool) (s : chars) :
  exists l,
    s = l ++ drop_while p s /\ forallb p l = true
    /\ match drop_while p s with c :: _ => p c = false | [] => True end.
Proof.
  induction s as [|c s [l [H1 [H2 H3]]]].
  - exists []. repeat split.
  - simpl. destruct (p c) eqn:E.
    + exists (c :: l). simpl. rewrite E, H2, <- H1. repeat split. exact H3.
    + exists []. simpl. rewrite E. repeat split.
Qed.

Lemma forallb_rev (p : ascii -> bool) (l : chars) :
  forallb p (rev l) = forallb p l.
Proof.
  induction l as [|c l IH]; [reflexivity|].
  simpl. rewrite forallb_app, IH. simpl. rewrite andb_true_r.
  apply andb_comm.
Qed.

(** [strip] takes the blanks off both ends, and nothing else. *)
Lemma strip_spec (s : chars) :
  exists l r,
    s = l ++ strip s ++ r
    /\ blanks l /\ blanks r
    /\ (forall c t, strip s = c :: t -> is_space c = false)
    /\ (forall t c, strip s = t ++ [c] -> is_space c = false).
Proof.
  unfold strip, blanks.
  destruct (drop_while_spec is_space s) as [l [H1 [H2 H3]]].
  set (s1 := drop_while is_space s) in *.
  destruct (drop_while_spec is_space (rev s1)) as [r [H4 [H5 H6]]].
  set (s2 := drop_while is_space (rev s1)) in *.
  assert (E : s1 = rev s2 ++ rev r).
  { rewrite <- rev_app_distr, <- H4, rev_involutive. reflexivity. }
  exists l, (rev r). split; [rewrite <- E; exact H1|].
  split; [exact H2|]. split; [rewrite forallb_rev; exact H5|]. split.
  - intros c t Hc. rewrite E, Hc in H3. exact H3.
  - intros t c Hc. apply (f_equal (@rev _)) in Hc.
    rewrite rev_involutive, rev_app_distr in Hc. simpl in Hc.
    rewrite Hc in H6. exact H6.
Qed.

Lemma norm_app (a b : chars) : _norm (a ++ b) = _norm a ++ _norm b.
Proof. apply filter_app. Qed.

Lemma norm_one (c : ascii) : _norm [c] = if is_space c then [] else [c].
Proof. unfold _norm. simpl. destruct (is_space c); reflexivity. Qed.

(** The blanks: the characters [\s] matches below 256. *)
Lemma is_space_table (c : ascii) :
  is_space c = true
  <-> In (code c) [9; 10; 11; 12; 13; 28; 29; 30; 31; 32; 133; 160].
Proof.
  assert (E : is_space c
              = existsb (Nat.eqb (code c))
                  [9; 10; 11; 12; 13; 28; 29; 30; 31; 32; 133; 160])
    by (ScoreFacts.by_cases_on_char c).
  rewrite E, existsb_exists. split.
  - intros [x [Hx Hc]]. apply Nat.eqb_eq in Hc. rewrite Hc. exact Hx.
  - intros H. exists (code c). split; [exact H|apply Nat.eqb_refl].
Qed.

(** The characters of a name: the characters [\w] matches below 256. *)
Lemma is_word_table (c : ascii) :
  is_word c = true
  <-> (48 <= code c <= 57 \/ 65 <= code c <= 90 \/ code c = 95
       \/ 97 <= code c <= 122 \/ code c = 170 \/ 178 <= code c <= 179
       \/ code c = 181 \/ 185 <= code c <= 186 \/ 188 <= code c <= 190
       \/ 192 <= code c <= 214 \/ 216 <= code c <= 246
       \/ 248 <= code c <= 255).
Proof.
  unfold is_word, between. cbv zeta.
  rewrite !orb_true_iff, !andb_true_iff, !Nat.leb_le, !Nat.eqb_eq.
  tauto.
Qed.

Lemma dict_has_in (k : chars) (d : dict) :
  dict_has k d = true <-> exists o, In (k, o) d.
Proof.
  unfold dict_has. split.
  - destruct (dict_get k d) as [o|] eqn:E; [|discriminate].
    intros _. exists o. apply BlockFacts.dict_get_some_in, E.
  - intros [o H]. destruct (dict_get k d) eqn:E; [reflexivity|].
    exfalso. apply (BlockFacts.dict_get_none _ _ E).
    apply (in_map fst) in H. exact H.
Qed.

(** The fallback: the first block of the new partition whose name the
    original has; the first block of the new partition when there is
    none. *)
Lemma fallback_common (orig_map new_map pre post : dict) (name b : chars) :
  new_map = pre ++ (name, b) :: post ->
  (forall e, In e pre -> ~ exists o, In (fst e, o) orig_map) ->
  (exists o, In (name, o) orig_map) ->
  fallback orig_map new_map = strip b.
Proof.
  intros -> Hpre Hn. unfold fallback, inter.
  rewrite filter_app.
  assert (E : filter (fun e => dict_has (fst e) orig_map) pre = []).
  { clear Hn. induction pre as [|e pre IH]; [reflexivity|]. simpl.
    destruct (dict_has (fst e) orig_map) eqn:Ee.
    - exfalso. apply (Hpre e (or_introl eq_refl)). apply dict_has_in, Ee.
    - apply IH. intros x Hx. apply Hpre. right. exact Hx. }
  rewrite E. simpl. apply dict_has_in in Hn. rewrite Hn. reflexivity.
Qed.

Lemma fallback_first (orig_map new_map post : dict) (name b : chars) :
  (forall e, In e new_map -> ~ exists o, In (fst e, o) orig_map) ->
  new_map = (name, b) :: post ->
  fallback orig_map new_map = strip b.
Proof.
  intros Hno ->. unfold fallback, inter.
  assert (E : forall l, incl l ((name, b) :: post) ->
                filter (fun e => dict_has (fst e) orig_map) l = []).
  { induction l as [|e l IH]; intros Hl; [reflexivity|]. simpl.
    destruct (dict_has (fst e) orig_map) eqn:Ee.
    - exfalso. apply (Hno e (Hl e (or_introl eq_refl))).
      apply dict_has_in, Ee.
    - apply IH. intros x Hx. apply Hl. right. exact Hx. }
  rewrite (E _ (incl_refl _)). reflexivity.
Qed.

(** The changed blocks, by the entries of the two partitions. *)
Lemma changed_blocks_in (orig_map new_map : dict) (b : chars) :
  NoDup (map fst orig_map) ->
  Forall (fun e => kept_block (snd e)) new_map ->
  (In b (changed_blocks orig_map new_map) <->
   exists name o,
     In (name, b) new_map /\ In (name, o) orig_map /\ _norm b <> _norm o).
Proof.
  intros Hnd Hk. rewrite FragmentFacts.changed_blocks_spec.
  rewrite Forall_forall in Hk. split.
  - intros [name [block [o [H1 [H2 [H3 ->]]]]]].
    destruct (Hk _ H1) as [_ Hs]. simpl in Hs. rewrite Hs.
    exists name, o. split; [exact H1|].
    split; [apply BlockFacts.dict_get_some_in, H2|exact H3].
  - intros [name [o [H1 [H2 H3]]]].
    destruct (Hk _ H1) as [_ Hs]. simpl in Hs.
    exists name, b, o. split; [exact H1|].
    split; [apply BlockFacts.dict_get_in; assumption|].
    split; [exact H3|symmetry; exact Hs].
Qed.

End ExtentFacts.
(** C9. In copy mode a fixer that has an answer of the model writes
    [content_to_write] of the original content and the new code to the
    destination, when [write_file] accepts it (and raises otherwise).
    Both texts are partitioned into function-level blocks: a block begins
    with a header [def name(...):] at the beginning of a line and extends
    to the next line that starts a header, or to the end of the text; the
    blocks are taken from left to right, and the partition keeps, for each
    name, the last block with that name, without the blanks around it.
    The changed blocks are exactly the blocks of the new partition whose
    name is also in the original partition and whose text without
    whitespace differs from the original's.  When there is one, the text
    written is these blocks separated by a blank line; otherwise it is
    the first block of the new partition whose name the original has, or
    the first block of the new partition when no name is common.
    Whenever the new partition has a block the text written is not empty.
    For the original [def f(): pass] and a new content with
    [def f(): return 1] and [def g(): pass], only the block of [f] is
    written. *)
Theorem copy_mode_fragment :
  (forall w t state,
      output_mode state = copy ->
      disable_llm state = false ->
      status state <> LLM_FAILURE ->
      failed (_safe_llm_invoke (llm_invoke w t (fixer_prompt state)))
      = false ->
      let dest :=
        os_path_join w (os_path_join w (target_dir state) (output_dir state))
                     (os_path_relpath w (current_file_path state)
                                      (target_dir state)) in
      snd (fixer_node w t state)
      = [LlmRequest (fixer_prompt state);
         if is_safe_path w dest
         then FileWritten (Some dest)
                (Fragment.content_to_write (current_file_content state)
                                           (fixer_new_code w t state))
         else ErrorRaised (write_alert dest)])
  /\ (forall src,
        FragmentSpec.blocks_of [] src (Fragment.finditer true 0 src))
  /\ (forall src name b,
        In (name, b) (Fragment._func_blocks src) <->
        exists block,
          FragmentSpec.last_named (Fragment.finditer true 0 src) name block
          /\ b = Text.strip block)
  /\ (forall src name b,
        In (name, b) (Fragment._func_blocks src) ->
        exists pre block,
          FragmentSpec.block_at src pre name block /\ b = Text.strip block)
  /\ (forall s,
        exists l r,
          s = (l ++ Text.strip s ++ r)%list
          /\ FragmentSpec.blanks l /\ FragmentSpec.blanks r
          /\ (forall c t, Text.strip s = c :: t -> Text.is_space c = false)
          /\ (forall t c, Text.strip s = (t ++ [c])%list ->
                          Text.is_space c = false))
  /\ (forall a b,
        Fragment._norm (a ++ b)%list
        = (Fragment._norm a ++ Fragment._norm b)%list)
  /\ (forall c,
        Fragment._norm [c] = if Text.is_space c then [] else [c])
  /\ (forall c,
        Text.is_space c = true
        <-> In (Text.code c) [9; 10; 11; 12; 13; 28; 29; 30; 31; 32; 133; 160])
  /\ (forall c,
        Text.is_word c = true
        <-> (48 <= Text.code c <= 57 \/ 65 <= Text.code c <= 90
             \/ Text.code c = 95 \/ 97 <= Text.code c <= 122
             \/ Text.code c = 170 \/ 178 <= Text.code c <= 179
             \/ Text.code c = 181 \/ 185 <= Text.code c <= 186
             \/ 188 <= Text.code c <= 190 \/ 192 <= Text.code c <= 214
             \/ 216 <= Text.code c <= 246 \/ 248 <= Text.code c <= 255))
  /\ (forall code_content new_code,
        let orig_map := Fragment._func_blocks (Text.lit code_content) in
        let new_map := Fragment._func_blocks (Text.lit new_code) in
        let changed := Fragment.changed_blocks orig_map new_map in
        let written :=
          Text.lit (Fragment.content_to_write code_content new_code) in
        (forall b,
            In b changed <->
            exists name o,
              In (name, b) new_map /\ In (name, o) orig_map
              /\ Fragment._norm b <> Fragment._norm o)
        /\ (changed <> [] -> written = Text.join [Text.nl; Text.nl] changed)
        /\ (changed = [] ->
            forall pre name b post,
              new_map = (pre ++ (name, b) :: post)%list ->
              (forall e, In e pre -> ~ exists o, In (fst e, o) orig_map) ->
              (exists o, In (name, o) orig_map) ->
              written = b)
        /\ (changed = [] ->
            (forall e, In e new_map -> ~ exists o, In (fst e, o) orig_map) ->
            forall name b post, new_map = (name, b) :: post -> written = b)
        /\ (new_map <> [] -> written <> [])
        /\ (new_map = [] -> written = []))
  /\ (forall b b' bs,
        Text.join [Text.nl; Text.nl] [b] = b
        /\ Text.join [Text.nl; Text.nl] (b :: b' :: bs)
           = (b ++ [Text.nl; Text.nl]
              ++ Text.join [Text.nl; Text.nl] (b' :: bs))%list)
  /\ Fragment.content_to_write
       "def f(): pass"
       ("def f(): return 1" ++ NL ++ NL ++ "def g(): pass" ++ NL)
     = "def f(): return 1"
  /\ Fragment.content_to_write
       ("def f(): pass" ++ NL ++ NL ++ "def g(): pass" ++ NL)
       ("def f(): return 1" ++ NL ++ NL ++ "def g(): pass" ++ NL)
     = "def f(): return 1"
  /\ Fragment.content_to_write
       ("import os" ++ NL ++ NL
        ++ "def f(x):" ++ NL ++ "    y = x" ++ NL ++ "    return y" ++ NL
        ++ NL ++ "def g():" ++ NL ++ "    return 0" ++ NL)
       ("def f(x):" ++ NL ++ "    y = x + 1" ++ NL ++ "    return y" ++ NL
        ++ NL ++ "def g():" ++ NL ++ "    return 0" ++ NL)
     = "def f(x):" ++ NL ++ "    y = x + 1" ++ NL ++ "    return y"
  /\ Fragment.content_to_write
       ("def f(): pass" ++ NL ++ NL ++ "def g(): pass" ++ NL)
       ("def f():     pass" ++ NL ++ NL ++ NL ++ "def g(): return 1" ++ NL)
     = "def g(): return 1"
  /\ Fragment.content_to_write
       ("def f(): pass" ++ NL ++ "def g(): pass" ++ NL)
       ("def f(): return 1" ++ NL ++ "def h(): pass" ++ NL
        ++ "def g(): return 2" ++ NL)
     = "def f(): return 1" ++ NL ++ NL ++ "def g(): return 2"
  /\ Fragment.content_to_write
       ("def g(): pass" ++ NL)
       ("def h(): pass" ++ NL ++ NL ++ "def g(): pass" ++ NL)
     = "def g(): pass"
  /\ Fragment.content_to_write
       ("def a(): pass" ++ NL)
       ("x = 1" ++ NL ++ "def h(): pass" ++ NL ++ "def k(): pass" ++ NL)
     = "def h(): pass"
  /\ Fragment.content_to_write "def a(): pass" "x = 1" = "".
Proof.
  split.
  { intros w t state Hm Hd Hs Hf dest. unfold fixer_node, fixer_new_code.
    rewrite Hm, Hd, Hf.
    destruct (Status_eqb (status state) LLM_FAILURE) eqn:E;
      [apply Status_eqb_eq in E; contradiction|].
    fold dest. destruct (is_safe_path w dest); reflexivity. }
  split.
  { intros src. apply (ExtentFacts.finditer_blocks (length src));
      [apply Nat.le_refl|].
    split; [intros _; left; reflexivity|reflexivity]. }
  split; [apply ExtentFacts.func_blocks_in|].
  split; [apply ExtentFacts.func_blocks_extent|].
  split; [apply ExtentFacts.strip_spec|].
  split; [apply ExtentFacts.norm_app|].
  split; [apply ExtentFacts.norm_one|].
  split; [apply ExtentFacts.is_space_table|].
  split; [apply ExtentFacts.is_word_table|].
  split.
  { intros code_content new_code. cbv zeta.
    change (Fragment.content_to_write code_content new_code)
      with (string_of_list_ascii
              (Fragment.content_of_maps
                 (Fragment._func_blocks (Text.lit code_content))
                 (Fragment._func_blocks (Text.lit new_code)))).
    pose proof (BlockFacts.func_blocks_kept (Text.lit new_code)) as Hk.
    pose proof (BlockFacts.func_blocks_nodup (Text.lit code_content)) as Hnd.
    pose proof (FragmentFacts.func_blocks_start_def (Text.lit new_code))
      as Hsd.
    set (orig_map := Fragment._func_blocks (Text.lit code_content)) in *.
    set (new_map := Fragment._func_blocks (Text.lit new_code)) in *.
    clearbody orig_map new_map.
    assert (Hw : Text.lit (string_of_list_ascii
                             (Fragment.content_of_maps orig_map new_map))
                 = Fragment.content_of_maps orig_map new_map)
      by apply list_ascii_of_string_of_list_ascii.
    rewrite Hw.
    pose proof (FragmentFacts.content_of_maps_nonempty orig_map new_map Hsd)
      as Hne.
    rewrite (FragmentFacts.content_of_maps_cases _ _ Hsd) in *.
    assert (Hstrip : forall name b, In (name, b) new_map -> Text.strip b = b).
    { intros name b Hin. rewrite Forall_forall in Hk.
      destruct (Hk _ Hin) as [_ H]. exact H. }
    split; [intros b; apply ExtentFacts.changed_blocks_in; assumption|].
    split.
    { intros Hc.
      destruct (Fragment.changed_blocks orig_map new_map);
        [contradiction|reflexivity]. }
    split.
    { intros Hc pre name b post Hn Hpre Hcommon. rewrite Hc.
      rewrite (ExtentFacts.fallback_common orig_map new_map pre post name b
                 Hn Hpre Hcommon).
      apply (Hstrip name). rewrite Hn. apply in_or_app. right. left.
      reflexivity. }
    split.
    { intros Hc Hno name b post Hn. rewrite Hc.
      rewrite (ExtentFacts.fallback_first orig_map new_map post name b
                 Hno Hn).
      apply (Hstrip name). rewrite Hn. left. reflexivity. }
    split; [exact Hne|].
    intros ->. reflexivity. }
  split; [intros b b' bs; split; reflexivity|].
  repeat split; vm_compute; reflexivity.
Qed.

(** X11. A function name that the source defines more than once is kept
    once in the partition, with the block of its last definition; names
    are unique in the partition, and every block starts with [def] and
    has no blank at either end. *)
Theorem func_blocks_lookup (src name : Text.chars) :
  Fragment.dict_get name (Fragment._func_blocks src)
  = option_map (fun m => Text.strip (snd m))
      (find (fun m => Text.chars_eqb name (fst m))
            (rev (Fragment.finditer true 0 src)))
  /\ NoDup (map fst (Fragment._func_blocks src))
  /\ Forall (fun e => kept_block (snd e))
            (Fragment._func_blocks src).
Proof.
  split; [|split; [apply BlockFacts.func_blocks_nodup
                  |apply BlockFacts.func_blocks_kept]].
  change (Fragment._func_blocks src)
    with (build_dict (Fragment.finditer true 0 src) []).
  rewrite (BlockFacts.build_get name (Fragment.finditer true 0 src) []).
  destruct (find _ _); reflexivity.
Qed.

(** X12. The fragment written in copy mode is empty or starts with
    [def], and each of its changed blocks is a block of the new
    partition, as it is. *)
Theorem fragment_starts_with_def (code_content new_code : string) :
  let orig_map := Fragment._func_blocks (Text.lit code_content) in
  let new_map := Fragment._func_blocks (Text.lit new_code) in
  (Fragment.content_to_write code_content new_code = ""
   \/ exists r,
        Text.lit (Fragment.content_to_write code_content new_code)
        = (Text.lit "def" ++ r)%list)
  /\ Forall (fun b => exists name, In (name, b) new_map)
            (Fragment.changed_blocks orig_map new_map).
Proof.
  intros orig_map new_map.
  pose proof (BlockFacts.func_blocks_kept (Text.lit new_code)) as Hk.
  fold new_map in Hk.
  assert (Hstrip : forall e, In e new_map ->
                     Text.strip (snd e) = snd e
                     /\ exists r, snd e = (Text.lit "def" ++ r)%list).
  { intros e He. rewrite Forall_forall in Hk.
    destruct (Hk e He) as [H1 H2]. split; assumption. }
  split.
  - change (Fragment.content_to_write code_content new_code)
      with (string_of_list_ascii (Fragment.content_of_maps orig_map new_map)).
    unfold Text.lit at 1. rewrite list_ascii_of_string_of_list_ascii.
    assert (Hc : Forall (fun b => exists r, b = (Text.lit "def" ++ r)%list)
                        (Fragment.changed_blocks orig_map new_map)).
    { unfold Fragment.changed_blocks. apply Forall_forall. intros b Hb.
      apply in_map_iff in Hb as [e [<- He]]. apply filter_In in He as [He _].
      destruct (Hstrip e He) as [-> H]. exact H. }
    assert (Hi : Forall (fun b => exists r, b = (Text.lit "def" ++ r)%list)
                        (Fragment.inter orig_map new_map)).
    { unfold Fragment.inter. apply Forall_forall. intros b Hb.
      apply in_map_iff in Hb as [e [<- He]]. apply filter_In in He as [He _].
      destruct (Hstrip e He) as [-> H]. exact H. }
    unfold Fragment.content_of_maps.
    destruct (Fragment.changed_blocks orig_map new_map) as [|b bs].
    + simpl Text.join. cbv iota.
      destruct (Fragment.inter orig_map new_map) as [|b bs].
      * destruct new_map as [|[k v] d]; [left; reflexivity|]. right.
        destruct (Hstrip (k, v) (or_introl eq_refl)) as [H1 H2].
        cbn [snd] in H1, H2. rewrite H1. exact H2.
      * right. inversion Hi; subst. assumption.
    + right. inversion Hc as [|? ? [r Hr] _]; subst.
      destruct (BlockFacts.join_starts (Text.lit "def" ++ r)%list bs)
        as [r' Hj].
      rewrite Hj. simpl. eexists. reflexivity.
  - unfold Fragment.changed_blocks. apply Forall_forall. intros b Hb.
    apply in_map_iff in Hb as [[name block] [<- He]].
    apply filter_In in He as [He _].
    destruct (Hstrip _ He) as [-> _]. exists name. exact He.
Qed.

(** X13. When the new code is the original content the fragment is the
    first function block of the file (and empty when the file has no
    function block): no block is changed, and the fallback takes the
    first common block. *)
Theorem unchanged_code_fragment (code_content : string) :
  let blocks := Fragment._func_blocks (Text.lit code_content) in
  Fragment.changed_blocks blocks blocks = []
  /\ Fragment.content_to_write code_content code_content
     = string_of_list_ascii
         match blocks with
         | [] => []
         | (_, first) :: _ => first
         end.
Proof.
  intros blocks.
  pose proof (BlockFacts.func_blocks_kept (Text.lit code_content)) as Hk.
  pose proof (BlockFacts.func_blocks_nodup (Text.lit code_content)) as Hn.
  fold blocks in Hk, Hn.
  assert (Hc : Fragment.changed_blocks blocks blocks = []).
  { unfold Fragment.changed_blocks.
    assert (H : forall l, incl l blocks ->
                  filter (fun e => Fragment.differs blocks (fst e) (snd e)) l
                  = []).
    { induction l as [|[k v] l IH]; intros Hl; [reflexivity|]. simpl.
      unfold Fragment.differs at 1. simpl.
      rewrite (BlockFacts.dict_get_in k v blocks Hn)
        by (apply Hl; left; reflexivity).
      rewrite BlockFacts.chars_eqb_refl. simpl.
      apply IH. intros x Hx. apply Hl. right. exact Hx. }
    rewrite (H blocks (incl_refl _)). reflexivity. }
  split; [exact Hc|].
  change (Fragment.content_to_write code_content code_content)
    with (string_of_list_ascii (Fragment.content_of_maps blocks blocks)).
  f_equal. unfold Fragment.content_of_maps. rewrite Hc. simpl Text.join.
  cbv iota. unfold Fragment.inter.
  destruct blocks as [|[k v] d]; [reflexivity|].
  cbn [filter fst]. unfold Fragment.dict_has at 1. cbn [Fragment.dict_get].
  rewrite BlockFacts.chars_eqb_refl. cbn [map snd].
  inversion Hk as [|? ? [_ Hs] _]; subst. exact Hs.
Qed.

(* ================================================================== *)
(** * The sandbox and the listing of the files *)
(* ================================================================== *)

Module ToolsFacts.
Import Tools.

Lemma startswith_spec (s pre : string) :
  startswith s pre = true <-> exists suffix, s = pre ++ suffix.
Proof.
  revert s. induction pre as [|a pre IH]; intros s; simpl.
  - split; [intros _; exists s; reflexivity|reflexivity].
  - destruct s as [|b s].
    + split; [discriminate|intros [x H]; discriminate].
    + destruct (Ascii.eqb_spec a b) as [<-|Hne]; simpl.
      * rewrite IH. split; intros [x H]; exists x; congruence.
      * split; [discriminate|intros [x H]; congruence].
Qed.

Lemma startswith_append (s t pre : string) :
  startswith s pre = true -> startswith (s ++ t) pre = true.
Proof.
  intros H. apply startswith_spec in H as [x ->].
  apply startswith_spec. exists (x ++ t).
  induction pre as [|a pre IH]; simpl; [reflexivity|]. rewrite IH.
  reflexivity.
Qed.

Lemma string_append_assoc (a b c : string) : (a ++ b) ++ c = a ++ b ++ c.
Proof. induction a as [|x a IH]; simpl; [|rewrite IH]; reflexivity. Qed.

Lemma string_of_chars_append (a b : list ascii) :
  string_of_list_ascii (a ++ b)%list
  = string_of_list_ascii a ++ string_of_list_ascii b.
Proof. induction a as [|c a IH]; simpl; [|rewrite IH]; reflexivity. Qed.

Lemma endswith_append (a f suf : string) :
  endswith f suf = true -> endswith (a ++ f) suf = true.
Proof.
  unfold endswith. intros H.
  rewrite CodeFacts.chars_of_append, rev_app_distr, string_of_chars_append.
  apply startswith_append. exact H.
Qed.

(** Induction on a directory, with the property for its subdirectories. *)
Lemma Tree_induction (P : Tree -> Prop) :
  (forall name files subdirs, Forall P subdirs -> P (Dir name files subdirs))
  -> forall t, P t.
Proof.
  intros H. fix IH 1. intros [name files subdirs]. apply H.
  induction subdirs as [|sub subdirs IHs]; constructor; [apply IH|exact IHs].
Qed.

Lemma walk_unfold join root name files subdirs :
  walk join root (Dir name files subdirs)
  = (map (join root) (filter (fun f => endswith f ".py") files)
     ++ walk_below join root subdirs)%list.
Proof. reflexivity. Qed.

Lemma in_below join root (subdirs : list Tree) (p : string) :
  In p (walk_below join root subdirs) <->
  exists sub, In sub subdirs /\ kept_dir (dir_name sub) = true
              /\ In p (walk join (join root (dir_name sub)) sub).
Proof.
  induction subdirs as [|s subdirs IH]; simpl.
  - split; [tauto|intros [sub [[] _]]].
  - destruct (kept_dir (dir_name s)) eqn:E.
    + rewrite in_app_iff, IH. split.
      * intros [H|[sub [H1 H2]]]; [exists s; tauto|exists sub; tauto].
      * intros [sub [[<-|H1] [H2 H3]]]; [left; exact H3|].
        right. exists sub. tauto.
    + rewrite IH. split.
      * intros [sub [H1 H2]]. exists sub. tauto.
      * intros [sub [[<-|H1] [H2 H3]]]; [congruence|].
        exists sub. tauto.
Qed.

End ToolsFacts.

(** X14. The sandbox test is the textual prefix test on absolute paths: a
    path is safe exactly when its absolute form is the target directory
    followed by anything (a separator is not asked for).  [read_file] and
    [write_file] raise exactly on the unsafe paths, and errors of the
    file system come back as text; [run_pylint] does not raise on an
    unsafe path, it returns the alert text. *)
Theorem sandbox_check (os : Tools.OS) (self : Tools.SwarmTools)
    (path content : string) :
  (Tools._is_safe_path os self path = true <->
   exists suffix,
     Tools.abspath os path = Tools.tools_target_dir self ++ suffix)
  /\ ((exists m, Tools.read_file os self path = Tools.Raised m) <->
      Tools._is_safe_path os self path = false)
  /\ ((exists m, Tools.write_file os self path content = Tools.Raised m) <->
      Tools._is_safe_path os self path = false)
  /\ (Tools._is_safe_path os self path = true
      \/ Tools.run_pylint os self path = "Security Alert: invalid path").
Proof.
  split; [apply ToolsFacts.startswith_spec|].
  unfold Tools.read_file, Tools.write_file, Tools.run_pylint.
  destruct (Tools._is_safe_path os self path); simpl.
  - split.
    { split; [|discriminate]. intros [m H].
      destruct (Tools.open_read os path); discriminate. }
    split; [|left; reflexivity].
    split; [|discriminate]. intros [m H].
    destruct (Tools.open_write os path content); discriminate.
  - split; [split; [reflexivity|intros _; eexists; reflexivity]|].
    split; [split; [reflexivity|intros _; eexists; reflexivity]|].
    right. reflexivity.
Qed.

(** X15. [list_files] returns exactly the files that end in [".py"] and
    lie in the target directory or below it through directories named
    neither [refactored] nor [tests]; with POSIX paths, each path it
    returns starts with the directory walked and ends in [".py"]. *)
Theorem list_files_spec :
  (forall join t root p,
      In p (Tools.walk join root t) <-> listed_in join root t p)
  /\ (forall t root,
        Forall (fun p => Tools.startswith p root = true
                         /\ Tools.endswith p ".py" = true)
               (Tools.walk posix_join root t)).
Proof.
  split.
  - intros join t. induction t as [name files subdirs IH]
      using ToolsFacts.Tree_induction.
    intros root p. rewrite ToolsFacts.walk_unfold, in_app_iff,
      ToolsFacts.in_below, in_map_iff.
    rewrite Forall_forall in IH. split.
    + intros [[f [<- Hf]]|[sub [H1 [H2 H3]]]].
      * apply filter_In in Hf as [Hf He]. constructor; assumption.
      * apply (listed_below join root name files subdirs sub p H1 H2).
        apply (IH sub H1). exact H3.
    + intros H. inversion H; subst.
      * left. exists f. split; [reflexivity|].
        apply filter_In. split; assumption.
      * right. exists sub. split; [assumption|]. split; [assumption|].
        apply (IH sub); assumption.
  - intros t. induction t as [name files subdirs IH]
      using ToolsFacts.Tree_induction.
    intros root. rewrite ToolsFacts.walk_unfold. apply Forall_app. split.
    + apply Forall_forall. intros p Hp.
      apply in_map_iff in Hp as [f [<- Hf]].
      apply filter_In in Hf as [_ He]. unfold posix_join. split.
      * apply ToolsFacts.startswith_spec. eexists. reflexivity.
      * apply ToolsFacts.endswith_append, ToolsFacts.endswith_append.
        exact He.
    + apply Forall_forall. intros p Hp.
      apply ToolsFacts.in_below in Hp as [sub [H1 [H2 H3]]].
      rewrite Forall_forall in IH.
      specialize (IH sub H1 (posix_join root (Tools.dir_name sub))).
      rewrite Forall_forall in IH. destruct (IH p H3) as [Hs He].
      split; [|exact He].
      apply ToolsFacts.startswith_spec in Hs as [x ->].
      apply ToolsFacts.startswith_spec. unfold posix_join.
      eexists. rewrite !ToolsFacts.string_append_assoc. reflexivity.
Qed.

(* ================================================================== *)
(** * Runs whose model always fails, and the values of the status *)
(* ================================================================== *)

Section FailingModel.

Variable w : World.
Hypothesis model_fails :
  forall t p, failed (_safe_llm_invoke (llm_invoke w t p)) = true.

Lemma step_status (c : Config) :
  status (state (step w c)) =
  match at_node c with
  | Some auditor =>
      if disable_llm (state c) then LLM_DISABLED
      else if failed (_safe_llm_invoke
                        (llm_invoke w (clock c)
                           (AuditorPrompt (current_file_path (state c))
                              (read_file w (clock c)
                                 (current_file_path (state c)))
                              (run_pylint w (clock c)
                                 (current_file_path (state c))))))
           then LLM_FAILURE else status (state c)
  | Some fixer =>
      if disable_llm (state c) then LLM_DISABLED
      else if Status_eqb (status (state c)) LLM_FAILURE then status (state c)
      else if failed (_safe_llm_invoke
                        (llm_invoke w (clock c) (fixer_prompt (state c))))
           then LLM_FAILURE else status (state c)
  | _ => status (state c)
  end.
Proof.
  unfold step. destruct (at_node c) as [[]|]; try reflexivity;
    simpl; node_cases; try reflexivity; simpl in *; discriminate.
Qed.

Lemma failed_invariant_step (c : Config) :
  failed_invariant c -> failed_invariant (step w c).
Proof.
  intros [Hd H]. split; [rewrite step_disable_llm; exact Hd|].
  rewrite step_status, step_node, Hd.
  destruct (at_node c) as [[]|] eqn:E.
  - destruct (_ <? _); tauto.
  - rewrite model_fails. tauto.
  - destruct H as [H|[H|[H|H]]]; try discriminate.
    rewrite H. simpl. tauto.
  - destruct H as [H|[H|[H|H]]]; try discriminate. tauto.
  - tauto.
  - tauto.
Qed.

Lemma failed_invariant_judge (c : Config) :
  failed_invariant c -> at_node c = Some judge ->
  at_node (step w c) = Some next_file_processor.
Proof.
  intros [Hd H] Ej. rewrite step_node, Ej.
  assert (Hs : status (state c) = LLM_FAILURE)
    by (destruct H as [H|[H|[H|H]]]; congruence).
  assert (Hr : judge_router (state (step w c)) = route_next_file).
  { apply judge_router_next_file. right. left.
    rewrite step_status, Ej. exact Hs. }
  rewrite Hr. reflexivity.
Qed.

Lemma failed_invariant_fixer (c : Config) :
  failed_invariant c -> at_node c = Some fixer ->
  at_node (step w c) = Some judge.
Proof.
  intros [Hd H] Ef. rewrite step_node, Ef.
  assert (Hs : status (state c) = LLM_FAILURE)
    by (destruct H as [H|[H|[H|H]]]; congruence).
  unfold fixer_raises, fixer_answered, fixer_asks. rewrite Ef, Hs, Hd.
  reflexivity.
Qed.

(** One request for each auditor, and nothing else. *)
Lemma failed_step_effects (c : Config) :
  failed_invariant c ->
  exists new,
    effects (step w c) = (effects c ++ new)%list
    /\ Forall (fun e => is_auditor_request e = true) new
    /\ length new = (match at_node c with Some auditor => 1 | _ => 0 end)
    /\ results (state (step w c)) = results (state c).
Proof.
  intros [Hd H]. unfold step.
  destruct (at_node c) as [[]|] eqn:E; simpl;
    try (exists []; rewrite ?app_nil_r; repeat split; constructor).
  - unfold auditor_node. rewrite Hd, model_fails. simpl.
    eexists. split; [reflexivity|]. repeat constructor.
  - assert (Hs : status (state c) = LLM_FAILURE)
      by (destruct H as [H|[H|[H|H]]]; congruence).
    unfold fixer_node. rewrite Hd, Hs. simpl.
    exists []. rewrite app_nil_r. repeat split; constructor.
Qed.

End FailingModel.

(** X16. When every call of the model fails (and the model is enabled),
    every file still goes once through manager, auditor, fixer, judge and
    the file transition: the auditor sends one request per file, the
    fixer sends none and writes nothing, no record is made, and the judge
    never sends a file back. *)
Theorem failing_model_run (w : World) (dir : string) (fs : list string)
    (max_iter cooldown : nat) (om : OutputMode) (od : string) :
  (forall t p, failed (_safe_llm_invoke (llm_invoke w t p)) = true) ->
  let c0 := start (initial_state dir fs max_iter cooldown false om od) in
  let total := 5 * length fs + 1 in
  executed w total c0 = (cycles (length fs) ++ [manager])%list
  /\ at_node (steps w total c0) = None
  /\ (forall n, is_retry w (steps w n c0) = false)
  /\ (forall n,
        Forall (fun e => is_auditor_request e = true)
               (effects (steps w n c0))
        /\ length (effects (steps w n c0))
           = count_nodes (Node_eqb auditor) (executed w n c0)
        /\ results (state (steps w n c0)) = []).
Proof.
  intros Hfail c0 total.
  assert (H0 : failed_invariant c0) by (split; [reflexivity|tauto]).
  pose proof (fun n => advancing_steps w failed_invariant
                         (failed_invariant_step w Hfail) n c0 H0) as Hn.
  destruct (advancing_run w failed_invariant (failed_invariant_step w Hfail)
              (failed_invariant_fixer w) (failed_invariant_judge w)
              (length fs) c0 H0 eq_refl eq_refl)
    as [E N].
  split; [exact E|]. split; [exact N|]. split.
  { intros n. apply (advancing_never_retries w failed_invariant
                       (failed_invariant_judge w)), Hn. }
  intros n. induction n as [|n [IH1 [IH2 IH3]]];
    [repeat split; constructor|].
  destruct (failed_step_effects w Hfail _ (Hn n)) as [new [He [Hf [Hl Hr]]]].
  rewrite steps_succ, He, Hr.
  split; [apply Forall_app; split; assumption|].
  split; [|exact IH3].
  rewrite length_app, IH2, Hl.
  replace (S n) with (n + 1) by lia. rewrite executed_add.
  unfold count_nodes. rewrite filter_app, length_app. f_equal.
  unfold executed, trace. cbn [flat_map].
  destruct (at_node (steps w n c0)) as [[]|]; reflexivity.
Qed.

Lemma failing_model_run_witness :
  executed always_failing_model 11 (start (Scenario.two_files 10))
  = (cycles 2 ++ [manager])%list
  /\ results (state (steps always_failing_model 11
                           (start (Scenario.two_files 10)))) = []
  /\ length (effects (steps always_failing_model 11
                            (start (Scenario.two_files 10)))) = 2.
Proof.
  pose proof (failing_model_run always_failing_model "sandbox"
                ["sandbox/a.py"; "sandbox/b.py"] 10 0 overwrite "refactored"
                (fun _ _ => eq_refl)) as H.
  cbv zeta in H. destruct H as [E [_ [_ H]]].
  destruct (H 11) as [_ [Hl Hr]].
  split; [exact E|]. split; [exact Hr|].
  exact (eq_trans Hl eq_refl).
Defined.

Section StatusValues.

Variable w : World.
Variables (dir : string) (fs : list string) (max_iter cooldown : nat).
Variables (om : OutputMode) (od : string).

Lemma enabled_status (n : nat) :
  let c := steps w n (start (initial_state dir fs max_iter cooldown false
                                           om od)) in
  status (state c) = STARTING \/ status (state c) = LLM_FAILURE.
Proof.
  cbv zeta. induction n as [|n IH]; [left; reflexivity|].
  destruct (run_constants w dir fs max_iter cooldown false om od n)
    as [_ [_ [_ [_ [Hd _]]]]].
  rewrite steps_succ, step_status, Hd.
  destruct (at_node (steps w n _)) as [[]|]; try exact IH.
  - destruct (failed _); [right; reflexivity|exact IH].
  - destruct (Status_eqb _ _); [exact IH|].
    destruct (failed _); [right; reflexivity|exact IH].
Qed.

Lemma disabled_status (n : nat) :
  let c0 := start (initial_state dir fs max_iter cooldown true om od) in
  let c := steps w n c0 in
  status (state c) = LLM_DISABLED
  \/ (status (state c) = STARTING
      /\ count_nodes is_stage (executed w n c0) = 0
      /\ (at_node c = Some manager \/ at_node c = Some auditor
          \/ at_node c = None)).
Proof.
  cbv zeta. set (c0 := start _).
  induction n as [|n IH]; [right; repeat split; left; reflexivity|].
  destruct (run_constants w dir fs max_iter cooldown true om od n)
    as [_ [_ [_ [_ [Hd _]]]]]. fold c0 in Hd.
  assert (Hex : executed w (S n) c0
                = (executed w n c0
                   ++ match at_node (steps w n c0) with
                      | Some x => [x]
                      | None => []
                      end)%list).
  { replace (S n) with (n + 1) by lia. rewrite executed_add.
    unfold executed at 2. unfold trace. cbn [flat_map].
    rewrite app_nil_r. reflexivity. }
  rewrite Hex, steps_succ, step_status, step_node, Hd.
  unfold count_nodes in *. rewrite filter_app, length_app.
  destruct (at_node (steps w n c0)) as [[]|] eqn:E.
  - destruct IH as [IH|[H1 [H2 H3]]]; [left; exact IH|right].
    rewrite H1, H2. split; [reflexivity|]. split; [reflexivity|].
    destruct (_ <? _); tauto.
  - left. reflexivity.
  - left. reflexivity.
  - destruct IH as [IH|[_ [_ H]]]; [left; exact IH|].
    destruct H as [H|[H|H]]; discriminate.
  - destruct IH as [IH|[_ [_ H]]]; [left; exact IH|].
    destruct H as [H|[H|H]]; discriminate.
  - destruct IH as [IH|[H1 [H2 H3]]]; [left; exact IH|right].
    rewrite H1, H2. repeat split. tauto.
Qed.

End StatusValues.

(** X17. In a run from the initial state with the model enabled the
    status is [STARTING] or [LLM_FAILURE], never [LLM_DISABLED]; with the
    model disabled it is [LLM_DISABLED] from the first stage on ([STARTING]
    only while no stage has run), never [LLM_FAILURE]. *)
Theorem status_of_a_run :
  forall w dir fs max_iter cooldown no_llm om od n,
    let c0 := start (initial_state dir fs max_iter cooldown no_llm om od) in
    let c := steps w n c0 in
    if no_llm
    then status (state c) = LLM_DISABLED
         \/ (status (state c) = STARTING
             /\ count_nodes is_stage (executed w n c0) = 0)
    else status (state c) = STARTING \/ status (state c) = LLM_FAILURE.
Proof.
  intros w dir fs max_iter cooldown no_llm om od n. cbv zeta.
  destruct no_llm.
  - destruct (disabled_status w dir fs max_iter cooldown om od n)
      as [H|[H1 [H2 _]]]; [left; exact H|right; split; assumption].
  - apply enabled_status.
Qed.
